(** * MapleFE: rule-table recursion analysis, AST fix-ups and containers

    A shallow embedding of parts of the MapleFE front end:

    - [Guamian]      the two-level list container of shared/include/container.h;
    - [RecDetector]  the depth-first left-recursion detector of
                     recdetect/rec_detect.cpp;
    - [Recursion]    the LeadNode / FronNode analysis of recursion.cpp;
    - [AST]          the tree fix-ups of shared/src/ast.cpp
                     (ASTTree::NewTreeNode, ASTTree::Manipulate and the
                     Merge methods of list nodes).

    C++ control flow that can stop the program (MASSERT, MERROR) or touch
    memory outside an array is made explicit with the [Result] type.

    The first part holds the definitions, module by module; the second
    part, from Properties on, holds the lemmas and theorems, in the
    modules [GuamianFacts], [RecDetectorFacts], [RecursionFacts] and
    [ASTFacts]. *)

From Stdlib Require Import NArith Lia.
From stdpp Require Import base tactics numbers option list.

Set Warnings "-register-all".

(** ** Outcomes of a C++ call *)

Inductive Failure : Type :=
| AssertFail    (* MASSERT failed, or MERROR ended the process *)
| BadAccess     (* NULL dereference or read outside an array   *)
| NoFuel.       (* the model's step budget ran out             *)

Inductive Result (A : Type) : Type :=
| Ok (a : A)
| Fail (f : Failure).
Arguments Ok {A} a.
Arguments Fail {A} f.

#[global] Instance Result_bind : MBind Result := fun A B k r =>
  match r with
  | Ok a => k a
  | Fail f => Fail f
  end.

#[global] Instance Result_ret : MRet Result := fun A a => Ok a.

Definition MASSERT (b : bool) : Result unit :=
  if b then Ok tt else Fail AssertFail.

Definition of_access {A : Type} (o : option A) : Result A :=
  match o with
  | Some a => Ok a
  | None => Fail BadAccess
  end.

(** ** Guamian (shared/include/container.h)

    The knob chain hanging off [mHeader] is a list, the newest knob first;
    each knob's element chain is a list, the newest element first.  A
    [Knob*] that outlives one call ([mTempKnob]) is the number of knobs
    that were allocated before it, which does not change when later knobs
    are linked in front. *)

Module Guamian.
Section Container.
Context {K E : Type} `{EqDecision K} `{EqDecision E}.

Record Knob : Type := mkKnob {
  mAttr : N;
  mData : K;
  mChildren : list E
}.

Record t : Type := mkGuamian {
  mHeader : list Knob;
  mTempKnob : option nat
}.

(** Guamian() *)
Definition empty : t := mkGuamian [] None.

(** Knob* FindKnob(K key): position in the chain of the first knob whose
    data is [key]. *)
Fixpoint FindKnobIn (key : K) (chain : list Knob) : option nat :=
  match chain with
  | [] => None
  | knob :: rest =>
      if decide (mData knob = key) then Some 0
      else S <$> FindKnobIn key rest
  end.

Definition FindKnob (key : K) (g : t) : option nat :=
  FindKnobIn key (mHeader g).

(** Knob* FindOrCreateKnob(K key): a new knob becomes the header. *)
Definition FindOrCreateKnob (key : K) (g : t) : t * nat :=
  match FindKnob key g with
  | Some i => (g, i)
  | None => (mkGuamian (mkKnob 0 key [] :: mHeader g) (mTempKnob g), 0)
  end.

(** bool FindElem(Knob *knob, E data) *)
Fixpoint FindElemIn (data : E) (elems : list E) : bool :=
  match elems with
  | [] => false
  | e :: rest => if decide (e = data) then true else FindElemIn data rest
  end.

(** void AddElem(Knob *knob, E data): a datum that is not found becomes
    the first child. *)
Definition AddElemKnob (data : E) (knob : Knob) : Knob :=
  if FindElemIn data (mChildren knob) then knob
  else mkKnob (mAttr knob) (mData knob) (data :: mChildren knob).

(** void RemoveElem(Knob *knob, E data): unlinks the first occurrence. *)
Fixpoint RemoveElemIn (data : E) (elems : list E) : list E :=
  match elems with
  | [] => []
  | e :: rest => if decide (e = data) then rest else e :: RemoveElemIn data rest
  end.

Definition RemoveElemKnob (data : E) (knob : Knob) : Knob :=
  mkKnob (mAttr knob) (mData knob) (RemoveElemIn data (mChildren knob)).

(** void MoveElemToHead(Knob *knob, E data) *)
Definition MoveElemToHeadKnob (data : E) (knob : Knob) : Knob :=
  if FindElemIn data (mChildren knob)
  then mkKnob (mAttr knob) (mData knob)
              (data :: RemoveElemIn data (mChildren knob))
  else knob.

(** unsigned NumOfElem(Knob *knob) *)
Definition NumOfElemKnob (knob : Knob) : nat := length (mChildren knob).

(** E GetElemAtIndex(Knob *knob, unsigned idx); the C++ result is an
    uninitialised value when [idx] is out of range. *)
Definition GetElemAtIndexKnob (knob : Knob) (idx : nat) : option E :=
  mChildren knob !! idx.

Definition on_knob (i : nat) (f : Knob -> Knob) (g : t) : t :=
  mkGuamian (alter f i (mHeader g)) (mTempKnob g).

(** void AddElem(K key, E data) *)
Definition AddElem (key : K) (data : E) (g : t) : t :=
  let '(g1, i) := FindOrCreateKnob key g in
  on_knob i (AddElemKnob data) g1.

(** void RemoveElem(K key, E data) *)
Definition RemoveElem (key : K) (data : E) (g : t) : t :=
  let '(g1, i) := FindOrCreateKnob key g in
  on_knob i (RemoveElemKnob data) g1.

(** bool FindElem(K key, E data) *)
Definition FindElem (key : K) (data : E) (g : t) : bool :=
  match FindKnob key g with
  | None => false
  | Some i =>
      match mHeader g !! i with
      | Some knob => FindElemIn data (mChildren knob)
      | None => false
      end
  end.

(** E FindFirstElem(K key, bool &found) *)
Definition FindFirstElem (key : K) (g : t) : option E :=
  match FindKnob key g with
  | None => None
  | Some i => knob ← mHeader g !! i; head (mChildren knob)
  end.

(** void MoveElemToHead(K key, E data) *)
Definition MoveElemToHead (key : K) (data : E) (g : t) : t :=
  match FindKnob key g with
  | None => g
  | Some i => on_knob i (MoveElemToHeadKnob data) g
  end.

(** The paired operations work on the knob that [mTempKnob] points to. *)
Definition knob_id (g : t) (i : nat) : nat := length (mHeader g) - 1 - i.

Definition PairedFindOrCreateKnob (key : K) (g : t) : t :=
  let '(g1, i) := FindOrCreateKnob key g in
  mkGuamian (mHeader g1) (Some (knob_id g1 i)).

Definition PairedFindKnob (key : K) (g : t) : t * bool :=
  match FindKnob key g with
  | Some i => (mkGuamian (mHeader g) (Some (knob_id g i)), true)
  | None => (mkGuamian (mHeader g) None, false)
  end.

Definition temp_knob (g : t) : Result (nat * Knob) :=
  id ← of_access (mTempKnob g);
  let i := knob_id g id in
  knob ← of_access (mHeader g !! i);
  Ok (i, knob).

Definition PairedAddElem (data : E) (g : t) : Result t :=
  '(i, _) ← temp_knob g;
  Ok (on_knob i (AddElemKnob data) g).

Definition PairedFindElem (data : E) (g : t) : Result bool :=
  '(_, knob) ← temp_knob g;
  Ok (FindElemIn data (mChildren knob)).

Definition PairedNumOfElem (g : t) : Result nat :=
  '(_, knob) ← temp_knob g;
  Ok (NumOfElemKnob knob).

(** void PairedRemoveElem(E data) *)
Definition PairedRemoveElem (data : E) (g : t) : Result t :=
  '(i, _) ← temp_knob g;
  Ok (on_knob i (RemoveElemKnob data) g).

(** void PairedMoveElemToHead(E data) *)
Definition PairedMoveElemToHead (data : E) (g : t) : Result t :=
  '(i, _) ← temp_knob g;
  Ok (on_knob i (MoveElemToHeadKnob data) g).

(** E PairedFindFirstElem(bool &found) *)
Definition PairedFindFirstElem (g : t) : Result (option E) :=
  '(_, knob) ← temp_knob g;
  Ok (head (mChildren knob)).

(** E PairedGetElemAtIndex(unsigned idx) *)
Definition PairedGetElemAtIndex (idx : nat) (g : t) : Result (option E) :=
  '(_, knob) ← temp_knob g;
  Ok (GetElemAtIndexKnob knob idx).

(** void PairedSetAttr(unsigned i) *)
Definition PairedSetAttr (a : N) (g : t) : Result t :=
  '(i, _) ← temp_knob g;
  Ok (on_knob i (fun knob => mkKnob a (mData knob) (mChildren knob)) g).

(** unsigned PairedGetAttr() *)
Definition PairedGetAttr (g : t) : Result N :=
  '(_, knob) ← temp_knob g;
  Ok (mAttr knob).

(** Number of elements hanging under [key] (0 when there is no knob). *)
Definition NumOfElem (key : K) (g : t) : nat :=
  match FindKnob key g with
  | None => 0
  | Some i => from_option NumOfElemKnob 0 (mHeader g !! i)
  end.

(** "Duplication of knobs or elements is not supported in Guamian." *)
Definition elems_nodup (g : t) : Prop :=
  Forall (fun knob => NoDup (mChildren knob)) (mHeader g).

Definition knobs_nodup (g : t) : Prop := NoDup (mData <$> mHeader g).

(** The element chain hanging under [key], the newest element first; no
    chain when there is no knob. *)
Definition ElemsOf (key : K) (g : t) : list E :=
  match FindKnob key g with
  | None => []
  | Some i => from_option mChildren [] (mHeader g !! i)
  end.

(** The cursor of the paired operations points to the knob of [key]. *)
Definition paired_with (key : K) (g : t) : Prop :=
  exists i, FindKnob key g = Some i /\ mTempKnob g = Some (knob_id g i).

(** A sequence of calls [AddElem(key, data)], the first call first. *)
Definition AddElems (calls : list (K * E)) (g : t) : t :=
  foldl (fun g1 call => AddElem call.1 call.2 g1) g calls.

End Container.

Arguments Knob : clear implicits.
Arguments t : clear implicits.

(** A container keyed by rule-table numbers holding token positions. *)
Definition sample : t nat nat :=
  AddElem 7 31 (AddElem 4 20 (AddElem 7 30 empty)).

End Guamian.

(** ** Rule tables

    ruletable.h is not among the sources: the types of this section are
    written from the data model of the specification and from the members
    that the functions below read and write.  A [RuleTable*] is the number
    of the table in the array of generated tables. *)

(** Modelled from the spec: enum EntryType of ruletable.h, the kind of a
    rule table, "one of {OneOf, Concatenate, ZeroOrMore, ZeroOrOne, Data}",
    and the [ET_Null] that the switch statements name. *)
Inductive EntryType : Type :=
| ET_Oneof | ET_Zeroormore | ET_Zeroorone | ET_Concatenate | ET_Data | ET_Null.

(** Modelled from the spec: enum DataType of ruletable.h, the tag of a
    table-data slot, "one of {reference to another rule table, reference
    to a system token, character literal, string literal, type-id}", and
    the [DT_Null] that the switch statements name. *)
Inductive DataType : Type :=
| DT_Char | DT_String | DT_Type | DT_Token | DT_Subtable | DT_Null.

#[global] Instance EntryType_eq_dec : EqDecision EntryType.
Proof. solve_decision. Defined.

#[global] Instance DataType_eq_dec : EqDecision DataType.
Proof. solve_decision. Defined.

(** unsigned arithmetic *)
Definition UINT_MOD : N := 4294967296.
Definition uadd (a b : N) : N := ((a + b) mod UINT_MOD)%N.
Definition usub (a b : N) : N := ((a + UINT_MOD - b mod UINT_MOD) mod UINT_MOD)%N.

Module TableData.
(** Modelled from the spec: struct TableData of ruletable.h, "a child slot
    of a rule table".  The payload is a C union ([mEntry], [mToken],
    [mChar], ...): one machine word that every member reads, so a slot
    whose tag is rewritten keeps its payload. *)
Record t : Type := mk {
  mType : DataType;
  mData : N          (* the union: mEntry, mToken, mChar, ... *)
}.
Definition mEntry (d : t) : N := mData d.
Definition mToken (d : t) : N := mData d.
End TableData.

Module Action.
(** Modelled from the spec: struct Action of ruletable.h, "action id +
    ordered element indices". *)
Record t : Type := mk {
  mId : N;
  mElems : list N    (* mNumElem is the length *)
}.
End Action.

Module RuleTable.
(** Modelled from the spec: struct RuleTable of ruletable.h, with its
    kind, its "ordered sequence of table-data entries" and its "ordered
    list of rule actions"; the properties are not read here. *)
Record t : Type := mk {
  mType : EntryType;
  mData : list TableData.t;    (* mNum is the length *)
  mActions : list Action.t     (* mNumAction is the length *)
}.
Definition mNum (rt : t) : N := N.of_nat (length (mData rt)).
Definition mNumAction (rt : t) : N := N.of_nat (length (mActions rt)).
End RuleTable.

(** The generated tables, addressed by table number. *)
Abbreviation Tables := (list RuleTable.t).

Definition table_at (m : Tables) (p : N) : option RuleTable.t :=
  m !! N.to_nat p.

(** Following a path of child indices from a table: every step must go
    through a sub-table slot.  This is what "the rule reached by following
    the cycle's child indices" means in the statements below. *)
Fixpoint follow (m : Tables) (p : N) (path : list N) : option N :=
  match path with
  | [] => Some p
  | i :: rest =>
      match table_at m p with
      | None => None
      | Some rt =>
          match RuleTable.mData rt !! N.to_nat i with
          | Some d =>
              if decide (TableData.mType d = DT_Subtable)
              then follow m (TableData.mEntry d) rest
              else None
          | None => None
          end
      end
  end.

(** ** RecDetector (recdetect/rec_detect.cpp)

    rec_detect.h and the revision of container.h that has [ContTree],
    [SmallVector::Back], [PopBack] and [Clear] are not among the sources,
    and the specification leaves the detector to the offline tools: the
    classes of this section have the members that rec_detect.cpp uses.
    A [SmallVector] is the list of its elements, the last pushed at the
    end; [Back] reads the last element, [PopBack] drops it, [Clear] empties
    the vector.  A [Recursion*] is the number of the recursion in
    [mRecursions]. *)

Module RecDetector.

Module ContTreeNode.
(** Modelled from the spec: class ContTreeNode of container.h, used through
    [NewNode(data, parent)], [GetData] and [GetParent] only; the nodes of
    the tree are numbered in allocation order and each holds its datum and
    the number of its parent. *)
Record t : Type := mk {
  mData : N;
  mParent : option nat
}.
End ContTreeNode.

Module Recursion.
(** Modelled from the spec: class Recursion and class RecPath of
    rec_detect.h, "lead rule and the set of cycles as arrays of child
    indices": the lead rule and the paths, each the list of its
    positions. *)
Record t : Type := mk {
  mRuleTable : N;
  mPaths : list (list N)
}.
End Recursion.

Module Rule2Recursion.
(** Modelled from the spec: class Rule2Recursion of rec_detect.h, "each
    rule table is mapped to the group id(s) to which it belongs". *)
Record t : Type := mk {
  mRule : N;
  mRecursions : list nat
}.
End Rule2Recursion.

(** Modelled from the spec: the data members of class RecDetector
    (rec_detect.h) that rec_detect.cpp reads and writes. *)
Record t : Type := mk {
  mInProcess : list N;
  mDone : list N;
  mTree : list ContTreeNode.t;
  mRecursions : list Recursion.t;
  mRule2Recursions : list Rule2Recursion.t
}.

Definition with_InProcess (l : list N) (s : t) : t :=
  mk l (mDone s) (mTree s) (mRecursions s) (mRule2Recursions s).
Definition with_Done (l : list N) (s : t) : t :=
  mk (mInProcess s) l (mTree s) (mRecursions s) (mRule2Recursions s).
Definition with_Tree (l : list ContTreeNode.t) (s : t) : t :=
  mk (mInProcess s) (mDone s) l (mRecursions s) (mRule2Recursions s).
Definition with_Recursions (l : list Recursion.t) (s : t) : t :=
  mk (mInProcess s) (mDone s) (mTree s) l (mRule2Recursions s).
Definition with_Rule2Recursions (l : list Rule2Recursion.t) (s : t) : t :=
  mk (mInProcess s) (mDone s) (mTree s) (mRecursions s) l.

Fixpoint contains (l : list N) (rt : N) : bool :=
  match l with
  | [] => false
  | x :: rest => if (rt =? x)%N then true else contains rest rt
  end.

(** bool RecDetector::IsInProcess(RuleTable *t) *)
Definition IsInProcess (rt : N) (s : t) : bool := contains (mInProcess s) rt.

(** bool RecDetector::IsDone(RuleTable *t) *)
Definition IsDone (rt : N) (s : t) : bool := contains (mDone s) rt.

(** ContTreeNode* ContTree::NewNode(data, parent) *)
Definition NewNode (rt : N) (p : option nat) (s : t) : t * nat :=
  (with_Tree (mTree s ++ [ContTreeNode.mk rt p]) s, length (mTree s)).

(** void Rule2Recursion::AddRecursion(Recursion *rec), also the second
    half of RecDetector::AddRule2Recursion *)
Definition add_recursion_once (rec : nat) (recs : list nat) : list nat :=
  if bool_decide (rec ∈ recs) then recs else recs ++ [rec].

Fixpoint find_rule2recursion (rule : N) (maps : list Rule2Recursion.t)
    : option nat :=
  match maps with
  | [] => None
  | r2r :: rest =>
      if (rule =? Rule2Recursion.mRule r2r)%N then Some 0%nat
      else S <$> find_rule2recursion rule rest
  end.

(** void RecDetector::AddRule2Recursion(RuleTable *rule, Recursion *rec) *)
Definition AddRule2Recursion (rule : N) (rec : nat) (s : t) : t :=
  let maps := mRule2Recursions s in
  let '(maps1, i) :=
    match find_rule2recursion rule maps with
    | Some i => (maps, i)
    | None => (maps ++ [Rule2Recursion.mk rule []], length maps)
    end in
  with_Rule2Recursions
    (alter (fun r2r => Rule2Recursion.mk (Rule2Recursion.mRule r2r)
                         (add_recursion_once rec (Rule2Recursion.mRecursions r2r)))
           i maps1) s.

Fixpoint find_recursion (rule : N) (recs : list Recursion.t) : option nat :=
  match recs with
  | [] => None
  | rec :: rest =>
      if (Recursion.mRuleTable rec =? rule)%N then Some 0%nat
      else S <$> find_recursion rule rest
  end.

(** Recursion* RecDetector::FindOrCreateRecursion(RuleTable *rule) *)
Definition FindOrCreateRecursion (rule : N) (s : t) : t * nat :=
  match find_recursion rule (mRecursions s) with
  | Some i => (s, i)
  | None => (with_Recursions (mRecursions s ++ [Recursion.mk rule []]) s,
             length (mRecursions s))
  end.

Section Detect.

(** The generated rule tables, and [RuleFindChild] of ruletable_util,
    which finds the index of a child rule in its parent rule; neither is
    among the sources, both are parameters. *)
Variable tables : Tables.
Variable RuleFindChild : N -> N -> option N.

(** Step 1 of AddRecursion: the walk from [p] up to the node of [rt]; the
    tree has no more than [fuel] nodes to climb. *)
Fixpoint climb (fuel : nat) (tree : list ContTreeNode.t) (rt : N)
    (node : option nat) (node_list : list N) : Result (option nat * list N) :=
  match node with
  | None => Ok (None, node_list)
  | Some handle =>
      match fuel with
      | O => Fail NoFuel
      | S fuel' =>
          n ← of_access (tree !! handle);
          if (ContTreeNode.mData n =? rt)%N then Ok (Some handle, node_list)
          else climb fuel' tree rt (ContTreeNode.mParent n)
                     (node_list ++ [ContTreeNode.mData n])
      end
  end.

(** Step 2 of AddRecursion: the positions along the path, read from the
    node list in reverse order. *)
Fixpoint path_positions (parent_rule : N) (rules : list N) : Result (list N) :=
  match rules with
  | [] => Ok []
  | child_rule :: rest =>
      index ← match RuleFindChild parent_rule child_rule with
              | Some index => Ok index
              | None => Fail AssertFail
              end;
      positions ← path_positions child_rule rest;
      Ok (index :: positions)
  end.

(** void RecDetector::AddRecursion(RuleTable *rt, ContTreeNode *p) *)
Definition AddRecursion (rt : N) (p : option nat) (s : t) : Result t :=
  '(target, node_list) ← climb (length (mTree s)) (mTree s) rt p [rt];
  _ ← MASSERT (0 <? length node_list)%nat;
  _ ← MASSERT (bool_decide (is_Some target));
  path ← path_positions rt (rev node_list);
  let '(s1, rec) := FindOrCreateRecursion rt s in
  let s2 := with_Recursions
              (alter (fun r => Recursion.mk (Recursion.mRuleTable r)
                                 (Recursion.mPaths r ++ [path]))
                     rec (mRecursions s1)) s1 in
  Ok (foldl (fun st rule => AddRule2Recursion rule rec st) s2 (rev node_list)).

(** void RecDetector::DetectOneof(rule_table, p); [detect] is
    DetectRuleTable. *)
Fixpoint DetectOneof_slots (detect : N -> option nat -> t -> Result t)
    (slots : list TableData.t) (p : option nat) (s : t) : Result t :=
  match slots with
  | [] => Ok s
  | data :: rest =>
      s1 ← (if decide (TableData.mType data = DT_Subtable)
            then detect (TableData.mEntry data) p s
            else Ok s);
      DetectOneof_slots detect rest p s1
  end.

Definition DetectOneof (detect : N -> option nat -> t -> Result t)
    (rule_table : RuleTable.t) (p : option nat) (s : t) : Result t :=
  DetectOneof_slots detect (RuleTable.mData rule_table) p s.

(** void RecDetector::DetectZeroormore(rule_table, p) *)
Definition DetectZeroormore (detect : N -> option nat -> t -> Result t)
    (rule_table : RuleTable.t) (p : option nat) (s : t) : Result t :=
  _ ← MASSERT (RuleTable.mNum rule_table =? 1)%N;
  data ← of_access (RuleTable.mData rule_table !! 0%nat);
  if decide (TableData.mType data = DT_Subtable)
  then detect (TableData.mEntry data) p s
  else Ok s.

(** void RecDetector::DetectConcatenate(rule_table, p): the first slot is
    always detected, a later one only when it is not in process. *)
Fixpoint DetectConcatenate_slots (detect : N -> option nat -> t -> Result t)
    (slots : list TableData.t) (p : option nat) (s : t) : Result t :=
  match slots with
  | [] => Ok s
  | data :: rest =>
      s1 ← (if decide (TableData.mType data = DT_Subtable)
            then if IsInProcess (TableData.mEntry data) s then Ok s
                 else detect (TableData.mEntry data) p s
            else Ok s);
      DetectConcatenate_slots detect rest p s1
  end.

Definition DetectConcatenate (detect : N -> option nat -> t -> Result t)
    (rule_table : RuleTable.t) (p : option nat) (s : t) : Result t :=
  data ← of_access (RuleTable.mData rule_table !! 0%nat);
  s1 ← (if decide (TableData.mType data = DT_Subtable)
        then detect (TableData.mEntry data) p s
        else Ok s);
  DetectConcatenate_slots detect (drop 1 (RuleTable.mData rule_table)) p s1.

(** void RecDetector::DetectRuleTable(RuleTable *rt, ContTreeNode *p);
    [fuel] bounds the depth of the calls. *)
Fixpoint DetectRuleTable (fuel : nat) (rt : N) (p : option nat) (s : t)
    : Result t :=
  match fuel with
  | O => Fail NoFuel
  | S fuel' =>
      if IsDone rt s then Ok s
      else if IsInProcess rt s then AddRecursion rt p s
      else
        let s1 := with_InProcess (mInProcess s ++ [rt]) s in
        let '(s2, node) := NewNode rt p s1 in
        rule_table ← of_access (table_at tables rt);
        s3 ← match RuleTable.mType rule_table with
             | ET_Oneof =>
                 DetectOneof (DetectRuleTable fuel') rule_table (Some node) s2
             | ET_Data | ET_Zeroorone | ET_Zeroormore =>
                 DetectZeroormore (DetectRuleTable fuel') rule_table (Some node) s2
             | ET_Concatenate =>
                 DetectConcatenate (DetectRuleTable fuel') rule_table (Some node) s2
             | ET_Null => Ok s2
             end;
        _ ← MASSERT (IsInProcess rt s3);
        back ← of_access (last (mInProcess s3));
        _ ← MASSERT (back =? rt)%N;
        let s4 := with_InProcess (removelast (mInProcess s3)) s3 in
        _ ← MASSERT (negb (IsDone rt s4));
        Ok (with_Done (mDone s4 ++ [rt]) s4)
  end.

(** void RecDetector::Detect(), the top tables being those that
    SetupTopTables pushes. *)
Fixpoint Detect_tops (fuel : nat) (tops : list N) (s : t) : Result t :=
  match tops with
  | [] => Ok s
  | top :: rest =>
      s1 ← DetectRuleTable fuel top None
             (with_Tree [] (with_InProcess [] s));
      Detect_tops fuel rest s1
  end.

Definition Detect (fuel : nat) (tops : list N) (s : t) : Result t :=
  Detect_tops fuel tops (with_Done [] s).

(** *** Vocabulary of the statements about DetectRuleTable *)

(** What a call leaves of the stack and of the done vector: the stack as
    it was, the done vector extended, and still without duplicates if it
    had none. *)
Definition preserved (s s' : t) : Prop :=
  mInProcess s' = mInProcess s /\
  (exists newly, mDone s' = mDone s ++ newly) /\
  (NoDup (mDone s) -> NoDup (mDone s')).

(** Every parent handle of the tree points to an older node. *)
Definition tree_wf (tree : list ContTreeNode.t) : Prop :=
  forall i n q, tree !! i = Some n -> ContTreeNode.mParent n = Some q ->
                (q < i)%nat.

(** The tree is well formed and the handle [p] is one of its nodes. *)
Definition good (p : option nat) (s : t) : Prop :=
  tree_wf (mTree s) /\ forall h, p = Some h -> (h < length (mTree s))%nat.

(** The number of rule tables that are not on the stack. *)
Definition unvisited (stack : list N) : nat :=
  length (filter (fun i => contains stack (N.of_nat i) = false)
                 (seq 0 (length tables))).

(** A call that was not stopped by the step budget, and that leaves a
    good state when it returns. *)
Definition fine (p : option nat) (r : Result t) : Prop :=
  r <> Fail NoFuel /\ forall s', r = Ok s' -> good p s'.

(** *** Vocabulary of the statements about the recorded recursions *)

(** What rec_detect.cpp expects of [RuleFindChild]: the index it gives is
    a slot of the parent that refers to the child rule. *)
Definition RuleFindChild_sound : Prop :=
  forall parent child index,
    RuleFindChild parent child = Some index ->
    follow tables parent [index] = Some child.

(** Every recorded path leads from the rule of its recursion back to that
    rule. *)
Definition paths_are_cycles (s : t) : Prop :=
  forall rec path,
    rec ∈ mRecursions s -> path ∈ Recursion.mPaths rec ->
    follow tables (Recursion.mRuleTable rec) path
      = Some (Recursion.mRuleTable rec).

(** No rule has two recursions, and no recursion is without a path. *)
Definition recursions_distinct (s : t) : Prop :=
  NoDup (Recursion.mRuleTable <$> mRecursions s) /\
  Forall (fun rec => Recursion.mPaths rec <> []) (mRecursions s).

(** The mapping has recursion [rec] under [rule]. *)
Definition mapped (rule : N) (rec : nat) (s : t) : Prop :=
  exists r2r, r2r ∈ mRule2Recursions s /\
              Rule2Recursion.mRule r2r = rule /\
              rec ∈ Rule2Recursion.mRecursions r2r.

(** [rule] is met on a recorded path of recursion [rec]: the first [n]
    positions of the path lead to it. *)
Definition on_path (rule : N) (rec : nat) (s : t) : Prop :=
  exists r path n,
    mRecursions s !! rec = Some r /\ path ∈ Recursion.mPaths r /\
    follow tables (Recursion.mRuleTable r) (take n path) = Some rule.

(** The mapping has one entry for a rule, lists a recursion once, and
    lists it under the rules on its paths and under no others. *)
Definition mapping_exact (s : t) : Prop :=
  NoDup (Rule2Recursion.mRule <$> mRule2Recursions s) /\
  Forall (fun r2r => NoDup (Rule2Recursion.mRecursions r2r))
         (mRule2Recursions s) /\
  forall rule rec, mapped rule rec s <-> on_path rule rec s.

(** The rules that the slots of [rt] refer to and that the detection
    goes into: none for a table of kind [ET_Null]. *)
Definition subtable_children (rt : N) : list N :=
  match table_at tables rt with
  | Some rule_table =>
      match RuleTable.mType rule_table with
      | ET_Null => []
      | _ => omap (fun d => if decide (TableData.mType d = DT_Subtable)
                            then Some (TableData.mEntry d) else None)
                  (RuleTable.mData rule_table)
      end
  | None => []
  end.

(** The table is done or still in process. *)
Definition reached (rt : N) (s : t) : Prop :=
  rt ∈ mDone s \/ rt ∈ mInProcess s.

(** The children of every done table are done or still in process. *)
Definition done_closed (s : t) : Prop :=
  forall rt child,
    rt ∈ mDone s -> child ∈ subtable_children rt -> reached child s.

(** No rule table is of kind [ET_Null]. *)
Definition no_Null_table : Prop :=
  forall rt rule_table,
    table_at tables rt = Some rule_table ->
    RuleTable.mType rule_table <> ET_Null.

End Detect.

(** A [RuleFindChild] for the sample run: the first sub-table slot of the
    parent that holds the child. *)
Definition find_child (tables : Tables) (parent child : N) : option N :=
  rule_table ← table_at tables parent;
  found ← list_find (fun d => TableData.mType d = DT_Subtable /\
                              TableData.mEntry d = child)
                    (RuleTable.mData rule_table);
  Some (N.of_nat found.1).

(** [Add : ONEOF(Id, Add '+' Id)]: table 0 is Add, table 1 is Id, table 2
    is the concatenation [Add '+' Id]. *)
Definition sample_tables : Tables :=
  [ RuleTable.mk ET_Oneof
      [TableData.mk DT_Subtable 1; TableData.mk DT_Subtable 2] [];
    RuleTable.mk ET_Data [TableData.mk DT_Token 100] [];
    RuleTable.mk ET_Concatenate
      [TableData.mk DT_Subtable 0; TableData.mk DT_Token 7;
       TableData.mk DT_Subtable 1] [] ]%N.

Definition fresh : t := mk [] [] [] [] [].

End RecDetector.

(** ** Recursion (recursion.cpp) *)

Module Recursion.

(** recursion.h is not among the sources: the types below have the members
    that recursion.cpp reads and writes. *)

(** Modelled from the spec: enum FronNodeType of recursion.h; a FronNode is
    a token, a rule, or the rest of a concatenation ("Concatenation
    FronNodes carry a start-index"). *)
Inductive FronNodeType : Type := FNT_Token | FNT_Rule | FNT_Concat.

#[global] Instance FronNodeType_eq_dec : EqDecision FronNodeType.
Proof. solve_decision. Defined.

Module FronNode.
(** Modelled from the spec: struct FronNode of recursion.h. *)
Record t : Type := mk {
  mPos : N;
  mType : FronNodeType;
  mData : N          (* the union: mTable, mToken, mStartIndex *)
}.
End FronNode.

#[global] Instance FronNode_eq_dec : EqDecision FronNode.t.
Proof. solve_decision. Defined.

Module LeftRecursion.
(** Modelled from the spec: struct LeftRecursion of recursion.h, "lead rule
    and the set of cycles as arrays of child indices"; a circle is the
    array [len; idx_1; ...; idx_len]. *)
Record t : Type := mk {
  mRuleTable : N;
  mCircles : list (list N)     (* mNum is the length *)
}.
End LeftRecursion.

(** Modelled from the spec: the data members of class Recursion
    (recursion.h), the "recursion descriptor": LeadNode, circles,
    RecursionNodes, LeadFronNodes and the FronNodes of every circle. *)
Record t : Type := mk {
  mLeadNode : N;
  mNum : N;
  mCircles : list (list N);
  mRecursionNodes : list N;
  mLeadFronNodes : list FronNode.t;
  mFronNodes : list (list FronNode.t)
}.

(** The inner switch of RuleFindChildAtIndex. *)
Definition child_node (data : TableData.t) : Result (FronNodeType * N) :=
  match TableData.mType data with
  | DT_Subtable => Ok (FNT_Rule, TableData.mEntry data)
  | DT_Token => Ok (FNT_Token, TableData.mToken data)
  | _ => Fail AssertFail
  end.

(** FronNode RuleFindChildAtIndex(RuleTable *parent, unsigned index); the
    [mPos] of the returned node is never set, so only tag and payload are
    returned. *)
Definition RuleFindChildAtIndex (parent : RuleTable.t) (index : N)
  : Result (FronNodeType * N) :=
  match RuleTable.mType parent with
  | ET_Concatenate | ET_Oneof =>
      data ← of_access (RuleTable.mData parent !! N.to_nat index);
      child_node data
  | ET_Data | ET_Zeroorone | ET_Zeroormore =>
      _ ← MASSERT (index =? 0)%N;
      data ← of_access (RuleTable.mData parent !! 0%nat);
      child_node data
  | ET_Null => Fail AssertFail
  end.

(** bool Recursion::IsRecursionNode(RuleTable *rt) *)
Fixpoint IsRecursionNode (nodes : list N) (rt : N) : bool :=
  match nodes with
  | [] => false
  | node :: rest => if (rt =? node)%N then true else IsRecursionNode rest rt
  end.

(** The loop [for (j = 1; j <= len; j++)] of FindRecursionNodes over one
    circle: [n] iterations are left and the next one has index [j]. *)
Fixpoint circle_nodes (m : Tables) (lead : N) (circle : list N) (len : N)
    (n : nat) (j : N) (prev : N) (nodes : list N) : Result (list N) :=
  match n with
  | O => Ok nodes
  | S n' =>
      child_index ← of_access (circle !! N.to_nat j);
      parent ← of_access (table_at m prev);
      node ← RuleFindChildAtIndex parent child_index;
      _ ← MASSERT (bool_decide (node.1 = FNT_Rule));
      let rt := node.2 in
      nodes' ← (if (j =? len)%N
                then _ ← MASSERT (rt =? lead)%N; Ok nodes
                else Ok (if IsRecursionNode nodes rt then nodes
                         else nodes ++ [rt]));
      circle_nodes m lead circle len n' (j + 1)%N rt nodes'
  end.

Fixpoint FindRecursionNodes_circles (m : Tables) (lead : N)
    (circles : list (list N)) (nodes : list N) : Result (list N) :=
  match circles with
  | [] => Ok nodes
  | circle :: rest =>
      len ← of_access (circle !! 0%nat);
      nodes' ← circle_nodes m lead circle len (N.to_nat len) 1 lead nodes;
      FindRecursionNodes_circles m lead rest nodes'
  end.

(** void Recursion::FindRecursionNodes() *)
Definition FindRecursionNodes (m : Tables) (lead : N)
    (circles : list (list N)) : Result (list N) :=
  FindRecursionNodes_circles m lead circles [lead].

(** RuleTable* Recursion::FindRuleOnCircle(unsigned cir_idx, unsigned pos);
    a table number is never NULL, so the closing [MASSERT(prev)] holds. *)
Fixpoint rule_on_circle (m : Tables) (lead : N) (circle : list N) (len : N)
    (n : nat) (j : N) (prev : N) : Result N :=
  match n with
  | O => Ok prev
  | S n' =>
      child_index ← of_access (circle !! N.to_nat j);
      parent ← of_access (table_at m prev);
      node ← RuleFindChildAtIndex parent child_index;
      _ ← MASSERT (bool_decide (node.1 = FNT_Rule));
      let rt := node.2 in
      _ ← (if (j =? len)%N then MASSERT (rt =? lead)%N else Ok tt);
      rule_on_circle m lead circle len n' (j + 1)%N rt
  end.

Definition FindRuleOnCircle (m : Tables) (lead : N) (circles : list (list N))
    (cir_idx : nat) (pos : N) : Result N :=
  circle ← of_access (circles !! cir_idx);
  len ← of_access (circle !! 0%nat);
  _ ← MASSERT (pos <=? len)%N;
  rule_on_circle m lead circle len (N.to_nat pos) 1 lead.

(** The write [data->mType = ty] into slot [i] of table [p]. *)
Definition set_child_type (m : Tables) (p : N) (i : nat) (ty : DataType) : Tables :=
  alter (fun rt =>
           RuleTable.mk (RuleTable.mType rt)
             (alter (fun d => TableData.mk ty (TableData.mData d)) i
                    (RuleTable.mData rt))
             (RuleTable.mActions rt))
        (N.to_nat p) m.

Section WithEnumerators.

(** The enumerator values of [DataType] are declared in ruletable.h,
    which is not among the sources.  They matter in one place: the
    condition [data->mType = DT_Subtable] is an assignment, whose value
    as a condition is whether the enumerator of [DT_Subtable] is not 0. *)
Variable DataType_enum : DataType -> N.

Definition assigned_Subtable_holds : bool :=
  negb (DataType_enum DT_Subtable =? 0)%N.

(** The first loop of the ET_Oneof case of FindLeadFronNodes. *)
Fixpoint circle_first_indices (circles : list (list N)) : Result (list N) :=
  match circles with
  | [] => Ok []
  | circle :: rest =>
      num ← of_access (circle !! 0%nat);
      _ ← MASSERT (2 <=? num)%N;
      first_node ← of_access (circle !! 1%nat);
      indices ← circle_first_indices rest;
      Ok (first_node :: indices)
  end.

(** The loop over [k] inside it: [k == circle_indices.ValueAtIndex(k)]. *)
Fixpoint lead_found (k : N) (circle_indices : list N) : bool :=
  match circle_indices with
  | [] => false
  | v :: rest => if (k =? v)%N then true else lead_found (k + 1)%N rest
  end.

(** The loop over the children of a OneOf LeadNode.  Iteration [i] reads
    and writes slot [i] only, so the slots still to be visited are the
    ones read when the loop started. *)
Fixpoint lead_oneof_children (lead : N) (circle_indices : list N) (i : nat)
    (children : list TableData.t) (st : Tables * list FronNode.t)
    : Result (Tables * list FronNode.t) :=
  match children with
  | [] => Ok st
  | data :: rest =>
      let '(m, fron) := st in
      st' ← (if decide (TableData.mType data = DT_Token)
             then Ok (m, fron ++ [FronNode.mk 0 FNT_Token (TableData.mToken data)])
             else
               let m1 := set_child_type m lead i DT_Subtable in
               if assigned_Subtable_holds then
                 let ruletable := TableData.mEntry data in
                 if lead_found 0 circle_indices then Ok (m1, fron)
                 else Ok (m1, fron ++ [FronNode.mk 0 FNT_Rule ruletable])
               else Fail AssertFail);
      lead_oneof_children lead circle_indices (S i) rest st'
  end.

(** The loop of the ET_Concatenate case of FindLeadFronNodes. *)
Fixpoint lead_concat_circles (lead_mNum : N) (circles : list (list N))
    (fron : list FronNode.t) : Result (list FronNode.t) :=
  match circles with
  | [] => Ok fron
  | circle :: rest =>
      num ← of_access (circle !! 0%nat);
      _ ← MASSERT (2 <=? num)%N;
      circle_index ← of_access (circle !! 1%nat);
      let fron' :=
        if (circle_index <? usub lead_mNum 1)%N
        then fron ++ [FronNode.mk 0 FNT_Concat (uadd circle_index 1)]
        else fron in
      lead_concat_circles lead_mNum rest fron'
  end.

(** void Recursion::FindLeadFronNodes().  In the ET_Zeroormore,
    ET_Zeroorone and ET_Data case the second assertion compares
    [mCircles[0]], the address of the first circle array, with the
    integer 1; no array lives at address 1, so the assertion fails. *)
Definition FindLeadFronNodes (m : Tables) (lead : N) (circles : list (list N))
    : Result (Tables * list FronNode.t) :=
  lead_table ← of_access (table_at m lead);
  match RuleTable.mType lead_table with
  | ET_Oneof =>
      circle_indices ← circle_first_indices circles;
      lead_oneof_children lead circle_indices 0 (RuleTable.mData lead_table) (m, [])
  | ET_Zeroormore | ET_Zeroorone | ET_Data =>
      _ ← MASSERT (RuleTable.mNum lead_table =? 1)%N;
      _ ← MASSERT false;
      Ok (m, [])
  | ET_Concatenate =>
      fron ← lead_concat_circles (RuleTable.mNum lead_table) circles [];
      Ok (m, fron)
  | ET_Null => Fail AssertFail
  end.

(** The loop over the children of a OneOf rule on a circle. *)
Fixpoint oneof_children (nodes : list N) (j prev next : N) (i : nat)
    (children : list TableData.t) (st : Tables * list FronNode.t)
    : Result (Tables * list FronNode.t) :=
  match children with
  | [] => Ok st
  | data :: rest =>
      let '(m, fron) := st in
      st' ← (if decide (TableData.mType data = DT_Token)
             then Ok (m, fron ++ [FronNode.mk j FNT_Token (TableData.mToken data)])
             else
               let m1 := set_child_type m prev i DT_Subtable in
               if assigned_Subtable_holds then
                 let ruletable := TableData.mEntry data in
                 let found := IsRecursionNode nodes ruletable in
                 if negb found && negb (ruletable =? next)%N
                 then Ok (m1, fron ++ [FronNode.mk j FNT_Rule ruletable])
                 else Ok (m1, fron)
               else Fail AssertFail);
      oneof_children nodes j prev next (S i) rest st'
  end.

(** The switch on [prev_type] in FindFronNodes(unsigned). *)
Definition fron_of_rule (nodes : list N) (j prev next child_index : N)
    (prev_table : RuleTable.t) (st : Tables * list FronNode.t)
    : Result (Tables * list FronNode.t) :=
  match RuleTable.mType prev_table with
  | ET_Oneof =>
      oneof_children nodes j prev next 0 (RuleTable.mData prev_table) st
  | ET_Zeroormore | ET_Zeroorone | ET_Data =>
      _ ← MASSERT (RuleTable.mNum prev_table =? 1)%N;
      _ ← MASSERT (child_index =? 0)%N;
      Ok st
  | ET_Concatenate =>
      let '(m, fron) := st in
      if (child_index <? usub (RuleTable.mNum prev_table) 1)%N
      then Ok (m, fron ++ [FronNode.mk j FNT_Concat (uadd child_index 1)])
      else Ok st
  | ET_Null => Fail AssertFail
  end.

(** The loop [for (j = 1; j <= len; j++)] of FindFronNodes(unsigned). *)
Fixpoint circle_fron_nodes (nodes : list N) (lead : N) (circle : list N)
    (len : N) (n : nat) (j : N) (prev : N) (st : Tables * list FronNode.t)
    : Result (Tables * list FronNode.t) :=
  match n with
  | O => Ok st
  | S n' =>
      child_index ← of_access (circle !! N.to_nat j);
      prev_table ← of_access (table_at st.1 prev);
      node ← RuleFindChildAtIndex prev_table child_index;
      _ ← MASSERT (bool_decide (node.1 = FNT_Rule));
      let next := node.2 in
      _ ← (if (j =? len)%N then MASSERT (next =? lead)%N else Ok tt);
      if (j =? 1)%N
      then circle_fron_nodes nodes lead circle len n' (j + 1)%N next st
      else
        st' ← fron_of_rule nodes j prev next child_index prev_table st;
        circle_fron_nodes nodes lead circle len n' (j + 1)%N next st'
  end.

(** void Recursion::FindFronNodes(unsigned circle_index) *)
Definition FindFronNodes_circle (nodes : list N) (lead : N)
    (circles : list (list N)) (circle_index : nat)
    (st : Tables * list (list FronNode.t))
    : Result (Tables * list (list FronNode.t)) :=
  circle ← of_access (circles !! circle_index);
  len ← of_access (circle !! 0%nat);
  fron_nodes ← of_access (st.2 !! circle_index);
  '(m, fron_nodes') ←
    circle_fron_nodes nodes lead circle len (N.to_nat len) 1 lead
                      (st.1, fron_nodes);
  Ok (m, <[circle_index := fron_nodes']> st.2).

Fixpoint FindFronNodes_from (nodes : list N) (lead : N)
    (circles : list (list N)) (n : nat) (i : nat)
    (st : Tables * list (list FronNode.t))
    : Result (Tables * list (list FronNode.t)) :=
  match n with
  | O => Ok st
  | S n' =>
      st' ← FindFronNodes_circle nodes lead circles i st;
      FindFronNodes_from nodes lead circles n' (S i) st'
  end.

(** void Recursion::FindFronNodes(); the name that it asks of
    GetRuleTableName is not used. *)
Definition FindFronNodes (nodes : list N) (lead : N)
    (circles : list (list N)) (st : Tables * list (list FronNode.t))
    : Result (Tables * list (list FronNode.t)) :=
  FindFronNodes_from nodes lead circles (length circles) 0 st.

(** void Recursion::Init(LeftRecursion *lr).  One vector of FronNodes is
    allocated for each of the [gLeftRecursionsNum] recursions of the
    grammar; the rule tables come back with the slot tags that the
    analysis rewrote. *)
Definition Init (gLeftRecursionsNum : N) (m : Tables) (lr : LeftRecursion.t)
    : Result (Tables * t) :=
  let fron0 := replicate (N.to_nat gLeftRecursionsNum) [] in
  let lead := LeftRecursion.mRuleTable lr in
  let circles := LeftRecursion.mCircles lr in
  nodes ← FindRecursionNodes m lead circles;
  '(m1, lead_fron) ← FindLeadFronNodes m lead circles;
  '(m2, fron) ← FindFronNodes nodes lead circles (m1, fron0);
  Ok (m2, mk lead (N.of_nat (length circles)) circles nodes lead_fron fron).

End WithEnumerators.

(** *** Vocabulary of the statements about Init *)

(** What one more visited rule does to the RecursionNodes. *)
Definition add_node (nodes : list N) (rt : N) : list N :=
  if IsRecursionNode nodes rt then nodes else nodes ++ [rt].

(** The analysis writes [DT_Subtable] into slots whose tag is not
    [DT_Token]: a slot after such writes keeps its payload, and its tag
    unless that was not [DT_Token] and is [DT_Subtable] now. *)
Definition data_le (d d' : TableData.t) : Prop :=
  TableData.mData d' = TableData.mData d /\
  (TableData.mType d' = TableData.mType d \/
   (TableData.mType d <> DT_Token /\ TableData.mType d' = DT_Subtable)).

(** A rule table after such writes: same kind, same actions, slot by slot
    [data_le]. *)
Definition table_le (rt rt' : RuleTable.t) : Prop :=
  RuleTable.mType rt' = RuleTable.mType rt /\
  RuleTable.mActions rt' = RuleTable.mActions rt /\
  Forall2 data_le (RuleTable.mData rt) (RuleTable.mData rt').

(** The memory [m'] is the memory [m] up to such writes. *)
Definition relabelled (m m' : Tables) : Prop := Forall2 table_le m m'.

(** A child of a OneOf rule met at position [j], when the walk goes on to
    [next]: the test on the tag only tells token slots from the others. *)
Definition oneof_fron (nodes : list N) (j next : N) (d : TableData.t)
  : list FronNode.t :=
  if decide (TableData.mType d = DT_Token)
  then [FronNode.mk j FNT_Token (TableData.mToken d)]
  else if negb (IsRecursionNode nodes (TableData.mEntry d))
          && negb (TableData.mEntry d =? next)%N
       then [FronNode.mk j FNT_Rule (TableData.mEntry d)]
       else [].

(** A child of a OneOf LeadNode; [found] is the outcome of the search in
    [circle_indices], which does not look at the child. *)
Definition lead_oneof_fron (found : bool) (d : TableData.t) : list FronNode.t :=
  if decide (TableData.mType d = DT_Token)
  then [FronNode.mk 0 FNT_Token (TableData.mToken d)]
  else if found then []
       else [FronNode.mk 0 FNT_Rule (TableData.mEntry d)].

Definition rule_fron (nodes : list N) (j next child_index : N)
    (rt : RuleTable.t) : list FronNode.t :=
  match RuleTable.mType rt with
  | ET_Oneof => flat_map (oneof_fron nodes j next) (RuleTable.mData rt)
  | ET_Concatenate =>
      if (child_index <? usub (RuleTable.mNum rt) 1)%N
      then [FronNode.mk j FNT_Concat (uadd child_index 1)]
      else []
  | _ => []
  end.

(** What the walk over the positions [j0 .. j0+n-1] of a circle, started
    on rule [prev], has added: nothing below position [j0]; and for the
    rule [p] that the circle reaches before position [j0+k] (from
    position 2 on), the nodes recorded with that position are those of
    [rule_fron]. *)
Definition walk_added (m0 : Tables) (nodes : list N) (circle : list N)
    (j0 : N) (n : nat) (prev : N) (added : list FronNode.t) : Prop :=
  Forall (fun f => (j0 <= FronNode.mPos f)%N) added /\
  forall (k : nat) (p : N) (rt : RuleTable.t) (ci : N),
    (k < n)%nat -> (2 <= j0 + N.of_nat k)%N ->
    follow m0 prev (take k (drop (N.to_nat j0) circle)) = Some p ->
    table_at m0 p = Some rt ->
    circle !! (N.to_nat j0 + k)%nat = Some ci ->
    exists next,
      filter (fun f => FronNode.mPos f = (j0 + N.of_nat k)%N) added
        = rule_fron nodes (j0 + N.of_nat k) next ci rt /\
      (forall nxt, follow m0 p [ci] = Some nxt -> next = nxt).

(** What FindFronNodes has stored for circle [c] of [circles], when the
    walks are read in the tables [m0]. *)
Definition circle_result (m0 : Tables) (nodes : list N) (lead : N)
    (circles : list (list N)) (c : nat) (fr0 fr : list FronNode.t) : Prop :=
  exists circle len added,
    circles !! c = Some circle /\ circle !! 0%nat = Some len /\
    fr = fr0 ++ added /\
    walk_added m0 nodes circle 1 (N.to_nat len) lead added.

(** The enumerators numbered in declaration order. *)
Definition declared_enum (d : DataType) : N :=
  match d with
  | DT_Char => 0 | DT_String => 1 | DT_Type => 2
  | DT_Token => 3 | DT_Subtable => 4 | DT_Null => 5
  end%N.

(** *** Sample grammars *)

Definition sub (p : N) : TableData.t := TableData.mk DT_Subtable p.
Definition tok (p : N) : TableData.t := TableData.mk DT_Token p.
Definition chr (c : N) : TableData.t := TableData.mk DT_Char c.

(** [Add : ONEOF(Id, Add '+' Id)]: table 0 is Add, table 1 is Id, table 2
    is the concatenation; the circle goes through slot 1 of Add and slot 0
    of the concatenation. *)
Definition Add_tables : Tables :=
  [ RuleTable.mk ET_Oneof [sub 1; sub 2] [];
    RuleTable.mk ET_Data [tok 100] [];
    RuleTable.mk ET_Concatenate [sub 0; tok 7; sub 1] [] ]%N.

Definition Add_recursion : LeftRecursion.t :=
  LeftRecursion.mk 0 [[2; 1; 0]]%N.

(** [Add : ONEOF(Add '+' Id, Id)]: the same rule with its alternatives
    swapped; the circle goes through slot 0 of Add. *)
Definition AddSwapped_tables : Tables :=
  [ RuleTable.mk ET_Oneof [sub 2; sub 1] [];
    RuleTable.mk ET_Data [tok 100] [];
    RuleTable.mk ET_Concatenate [sub 0; tok 7; sub 1] [] ]%N.

Definition AddSwapped_recursion : LeftRecursion.t :=
  LeftRecursion.mk 0 [[2; 0; 0]]%N.

(** [A : B C D], [B : ONEOF(xxx, A)], the example in the comment of
    FindLeadFronNodes. *)
Definition ABCD_tables : Tables :=
  [ RuleTable.mk ET_Concatenate [sub 1; sub 2; sub 3] [];
    RuleTable.mk ET_Oneof [tok 5; sub 0] [];
    RuleTable.mk ET_Data [tok 6] [];
    RuleTable.mk ET_Data [tok 7] [] ]%N.

Definition ABCD_recursion : LeftRecursion.t :=
  LeftRecursion.mk 0 [[2; 0; 1]]%N.

(** [Primary : ONEOF('this', Access)], [Access : ONEOF(Primary, 'c')] where
    ['c'] is a character literal slot. *)
Definition Char_tables : Tables :=
  [ RuleTable.mk ET_Oneof [tok 100; sub 1] [];
    RuleTable.mk ET_Oneof [sub 0; chr 99] [] ]%N.

Definition Char_recursion : LeftRecursion.t :=
  LeftRecursion.mk 0 [[2; 1; 0]]%N.

(** *** RecursionAll

    Modelled from the spec: class RecursionAll of recursion.h, the
    "recursion descriptor" of every left-recursive rule group of the
    grammar; its one data member is the vector [mRecursions].  The
    generated [gLeftRecursions] is the list of its elements and
    [gLeftRecursionsNum] the count that the generated file declares. *)
Module RecursionAll.

Section WithEnumerators.

Variable DataType_enum : DataType -> N.

(** The loop of RecursionAll::Init: [new Recursion(gLeftRecursions[i])]
    runs Recursion::Init on the tables as the earlier recursions left
    them. *)
Fixpoint Init_from (gLeftRecursionsNum : N)
    (gLeftRecursions : list LeftRecursion.t) (n i : nat)
    (st : Tables * list t) : Result (Tables * list t) :=
  match n with
  | O => Ok st
  | S n' =>
      lr ← of_access (gLeftRecursions !! i);
      '(m', rec) ← Init DataType_enum gLeftRecursionsNum st.1 lr;
      Init_from gLeftRecursionsNum gLeftRecursions n' (S i) (m', st.2 ++ [rec])
  end.

(** void RecursionAll::Init() *)
Definition Init (gLeftRecursionsNum : N)
    (gLeftRecursions : list LeftRecursion.t) (m : Tables)
    : Result (Tables * list t) :=
  Init_from gLeftRecursionsNum gLeftRecursions (N.to_nat gLeftRecursionsNum) 0
            (m, []).

End WithEnumerators.

(** Recursion* RecursionAll::FindRecursion(RuleTable *rt) *)
Fixpoint FindRecursion (mRecursions : list t) (rt : N) : option t :=
  match mRecursions with
  | [] => None
  | rec :: rest =>
      if (mLeadNode rec =? rt)%N then Some rec else FindRecursion rest rt
  end.

(** bool RecursionAll::IsLeadNode(RuleTable *rt) *)
Definition IsLeadNode (mRecursions : list t) (rt : N) : bool :=
  match FindRecursion mRecursions rt with
  | Some _ => true
  | None => false
  end.

End RecursionAll.

(** The grammar of the Add sample has one recursion. *)
Definition Add_gLeftRecursions : list LeftRecursion.t := [Add_recursion].



End Recursion.

(** ** AST construction (shared/src/ast.cpp)

    ast.h, ast_builder.h and parser.h are not among the sources; the node
    classes have the fields that ast.cpp reads and writes.  An AST is a
    finite tree, so a [TreeNode*] is the tree it points to and NULL is
    [None].  The back link [mParent] is the inverse of the child links and
    has no field of its own here: [SetParent] only has to find its
    receiver. *)

Module AST.

(** supported_operators.def *)
Inductive OprId : Type :=
| OPR_Add | OPR_Sub | OPR_Mul | OPR_Div | OPR_Mod | OPR_Inc | OPR_Dec
| OPR_EQ | OPR_NE | OPR_GT | OPR_LT | OPR_GE | OPR_LE
| OPR_Band | OPR_Bor | OPR_Bxor | OPR_Bcomp
| OPR_Shl | OPR_Shr | OPR_Zext
| OPR_Land | OPR_Lor | OPR_Not
| OPR_Assign | OPR_AddAssign | OPR_SubAssign | OPR_MulAssign
| OPR_DivAssign | OPR_ModAssign | OPR_ShlAssign | OPR_ShrAssign
| OPR_BandAssign | OPR_BorAssign | OPR_BxorAssign | OPR_ZextAssign
| OPR_Arrow | OPR_Select | OPR_Cond
| OPR_NA.

#[global] Instance OprId_eq_dec : EqDecision OprId.
Proof. solve_decision. Defined.

(** ast_nk.def: the kinds that the functions below do not look into. *)
Inductive OtherKind : Type :=
| NK_Package | NK_Import | NK_Field | NK_Dimension | NK_Attr | NK_PrimType
| NK_UserType | NK_TerOperator | NK_Lambda | NK_Block | NK_Function
| NK_Class | NK_Interface | NK_AnnotationType | NK_Annotation | NK_Exception
| NK_Return | NK_CondBranch | NK_Break | NK_ForLoop | NK_WhileLoop
| NK_DoLoop | NK_New | NK_Delete | NK_Call | NK_SwitchLabel | NK_SwitchCase
| NK_Switch.

(** Modelled from the spec: class TreeNode and its subclasses (ast.h), "a
    tagged node belonging to a closed set of kinds", each with "its
    kind-specific fields"; names and literal values are words. *)
Inductive TreeNode : Type :=
| IdentifierNode (mName : N)
| LiteralNode (mData : N)
| ParenthesisNode (mExpr : option TreeNode)
| CastNode (mDestType : option TreeNode) (mExpr : option TreeNode)
| UnaOperatorNode (mIsPost : bool) (mOprId : OprId) (mOpnd : option TreeNode)
| BinOperatorNode (mOprId : OprId) (mOpndA mOpndB : option TreeNode)
| VarListNode (mVars : list TreeNode)
| ExprListNode (mExprs : list TreeNode)
| PassNode (mChildren : list TreeNode)
| OtherNode (mKind : OtherKind).

Definition IsIdentifier (n : TreeNode) : bool :=
  match n with IdentifierNode _ => true | _ => false end.
Definition IsParenthesis (n : TreeNode) : bool :=
  match n with ParenthesisNode _ => true | _ => false end.
Definition IsUnaOperator (n : TreeNode) : bool :=
  match n with UnaOperatorNode _ _ _ => true | _ => false end.
Definition IsVarList (n : TreeNode) : bool :=
  match n with VarListNode _ => true | _ => false end.
Definition IsExprList (n : TreeNode) : bool :=
  match n with ExprListNode _ => true | _ => false end.
Definition IsPass (n : TreeNode) : bool :=
  match n with PassNode _ => true | _ => false end.

(** Modelled from the spec: struct Param of ast_builder.h,
    "Param{empty?, is_tree_node?, token | ast_node}". *)
Inductive Param : Type :=
| EmptyParam
| TokenParam (mToken : N)
| TreeParam (mTreeNode : TreeNode).

(** Modelled from the spec: class AppealNode of parser.h, as far as AST
    construction reads it: the payload ("either a rule table or a token"),
    the sorted children and the AST node attached to the appeal node. *)
Inductive AppealNode : Type :=
| TokenAppeal (mToken : N) (mAstTreeNode : option TreeNode)
| TableAppeal (mTable : RuleTable.t) (mSortedChildren : list AppealNode)
              (mAstTreeNode : option TreeNode).

Definition IsToken (a : AppealNode) : bool :=
  match a with TokenAppeal _ _ => true | TableAppeal _ _ _ => false end.

Definition GetAstTreeNode (a : AppealNode) : option TreeNode :=
  match a with
  | TokenAppeal _ t => t
  | TableAppeal _ _ t => t
  end.

Definition SortedChildren (a : AppealNode) : list AppealNode :=
  match a with
  | TokenAppeal _ _ => []
  | TableAppeal _ children _ => children
  end.

Section Builder.

(** The values of the operator properties ([Unary], [Binary], ...) are
    declared in a header that is not among the sources. *)
Variables Unary Binary Ternary Pre Post : N.

(** The AST builder ([gASTBuilder]) and the lookup of a sorted child by
    its slot in the rule ([AppealNode::GetSortedChildByIndex], which
    consults the generated token tables) are taken as given. *)
Variable CreateTokenTreeNode : N -> option TreeNode.
Variable Build : N -> list Param -> Result (option TreeNode).
Variable GetSortedChildByIndex : AppealNode -> N -> Result (option AppealNode).

(** gOperatorDesc, from supported_operators.def *)
Definition gOperatorDesc : list (OprId * N) :=
  [ (OPR_Add, N.lor Binary Unary); (OPR_Sub, N.lor Binary Unary);
    (OPR_Mul, Binary); (OPR_Div, Binary); (OPR_Mod, Binary);
    (OPR_Inc, N.lor Pre Post); (OPR_Dec, N.lor Pre Post);
    (OPR_EQ, Binary); (OPR_NE, Binary); (OPR_GT, Binary); (OPR_LT, Binary);
    (OPR_GE, Binary); (OPR_LE, Binary);
    (OPR_Band, Binary); (OPR_Bor, Binary); (OPR_Bxor, Unary);
    (OPR_Bcomp, Unary);
    (OPR_Shl, Binary); (OPR_Shr, Binary); (OPR_Zext, Binary);
    (OPR_Land, Binary); (OPR_Lor, Binary); (OPR_Not, Unary);
    (OPR_Assign, Binary); (OPR_AddAssign, Binary); (OPR_SubAssign, Binary);
    (OPR_MulAssign, Binary); (OPR_DivAssign, Binary);
    (OPR_ModAssign, Binary); (OPR_ShlAssign, Binary);
    (OPR_ShrAssign, Binary); (OPR_BandAssign, Binary);
    (OPR_BorAssign, Binary); (OPR_BxorAssign, Binary);
    (OPR_ZextAssign, Binary);
    (OPR_Arrow, Binary); (OPR_Select, Ternary); (OPR_Cond, Ternary) ].

(** unsigned GetOperatorProperty(OprId id) *)
Fixpoint GetOperatorProperty_in (desc : list (OprId * N)) (id : OprId)
    : Result N :=
  match desc with
  | [] => Fail AssertFail
  | (opr, d) :: rest =>
      if decide (opr = id) then Ok d else GetOperatorProperty_in rest id
  end.

Definition GetOperatorProperty (id : OprId) : Result N :=
  GetOperatorProperty_in gOperatorDesc id.

(** TreeNode* ASTTree::BuildBinaryOperation(childA, childB, id): both
    children receive [SetParent], so neither may be NULL. *)
Definition BuildBinaryOperation (childA childB : option TreeNode) (id : OprId)
    : Result TreeNode :=
  _ ← of_access childA;
  _ ← of_access childB;
  Ok (BinOperatorNode id childA childB).

(** Modelled from the spec: the members of class PassNode (ast.h), "a
    generic Pass container" that conveys the children up unchanged;
    [AddChild] appends. *)
Definition BuildPassNode : TreeNode := PassNode [].

Definition AddChild (pass : TreeNode) (child : TreeNode) : TreeNode :=
  match pass with
  | PassNode children => PassNode (children ++ [child])
  | other => other
  end.

(** Modelled from the spec: the members of class CastNode and
    ParenthesisNode (ast.h), "a parenthesised type followed by an
    expression is rewritten as a cast"; [SetDestType], [SetExpr] and
    [GetExpr] are field accessors.

    TreeNode* ASTTree::Manipulate2Cast(child_a, child_b) *)
Definition Manipulate2Cast (child_a child_b : TreeNode) : option TreeNode :=
  match child_a with
  | ParenthesisNode type_expr => Some (CastNode type_expr (Some child_b))
  | _ => None
  end.

(** TreeNode* ASTTree::Manipulate2Binary(child_a, child_b); the message
    written to std::cout is left out. *)
Definition Manipulate2Binary (child_a child_b : TreeNode)
    : Result (option TreeNode) :=
  match child_b with
  | UnaOperatorNode _ opr unary_sub =>
      property ← GetOperatorProperty opr;
      if negb (N.land property Binary =? 0)%N
         && negb (N.land property Unary =? 0)%N
      then binary ← BuildBinaryOperation (Some child_a) unary_sub opr;
           Ok (Some binary)
      else Ok None
  | _ => Ok None
  end.

(** The vector [child_trees] of Manipulate. *)
Definition child_trees (appeal_node : AppealNode) : list TreeNode :=
  omap GetAstTreeNode (SortedChildren appeal_node).

(** TreeNode* ASTTree::Manipulate(AppealNode *appeal_node) *)
Definition Manipulate (appeal_node : AppealNode) : Result (option TreeNode) :=
  let trees := child_trees appeal_node in
  match trees with
  | [only] => Ok (Some only)
  | _ =>
      sub_tree ← match trees with
                 | [child_a; child_b] =>
                     match Manipulate2Cast child_a child_b with
                     | Some cast => Ok (Some cast)
                     | None => Manipulate2Binary child_a child_b
                     end
                 | _ => Ok None
                 end;
      match sub_tree with
      | Some t => Ok (Some t)
      | None =>
          if (0 <? length trees)%nat
          then Ok (Some (foldl AddChild BuildPassNode trees))
          else Ok None
      end
  end.

(** The parameter that NewTreeNode passes for one element of an action. *)
Definition param_of (child : option AppealNode) : Param :=
  match child with
  | None => EmptyParam
  | Some c =>
      match GetAstTreeNode c with
      | Some tree_node => TreeParam tree_node
      | None =>
          match c with
          | TokenAppeal token _ => TokenParam token
          | TableAppeal _ _ _ => EmptyParam
          end
      end
  end.

Fixpoint action_params (appeal_node : AppealNode) (elems : list N)
    : Result (list Param) :=
  match elems with
  | [] => Ok []
  | elem_idx :: rest =>
      child ← GetSortedChildByIndex appeal_node elem_idx;
      params ← action_params appeal_node rest;
      Ok (param_of child :: params)
  end.

(** The loop over the actions of the rule: every action overwrites
    [sub_tree] with what the builder returns. *)
Fixpoint run_actions (appeal_node : AppealNode) (actions : list Action.t)
    (sub_tree : option TreeNode) : Result (option TreeNode) :=
  match actions with
  | [] => Ok sub_tree
  | action :: rest =>
      params ← action_params appeal_node (Action.mElems action);
      built ← Build (Action.mId action) params;
      run_actions appeal_node rest built
  end.

(** TreeNode* ASTTree::NewTreeNode(AppealNode *appeal_node) *)
Definition NewTreeNode (appeal_node : AppealNode) : Result (option TreeNode) :=
  match appeal_node with
  | TokenAppeal token _ => Ok (CreateTokenTreeNode token)
  | TableAppeal rule_table _ _ =>
      sub_tree ← run_actions appeal_node (RuleTable.mActions rule_table) None;
      match sub_tree with
      | Some t => Ok (Some t)
      | None => Manipulate appeal_node
      end
  end.

End Builder.

(** The loop [for (i = 0; i < p->GetChildrenNum(); i++) Merge(p->GetChild(i))]. *)
Definition merge_children (merge : TreeNode -> list TreeNode -> Result (list TreeNode))
  : list TreeNode -> list TreeNode -> Result (list TreeNode) :=
  fix go (children : list TreeNode) (members : list TreeNode) :=
    match children with
    | [] => Ok members
    | child :: rest => members' ← merge child members; go rest members'
    end.

(** void VarListNode::Merge(TreeNode *n), as a function on the [mVars] of
    the receiver; [AddVar] pushes at the back. *)
Fixpoint VarListNode_Merge (n : TreeNode) (mVars : list TreeNode)
    : Result (list TreeNode) :=
  match n with
  | IdentifierNode _ => Ok (mVars ++ [n])
  | VarListNode vars => Ok (mVars ++ vars)
  | PassNode children => merge_children VarListNode_Merge children mVars
  | _ => Fail AssertFail
  end.

(** void ExprListNode::Merge(TreeNode *n), as a function on the [mExprs] of
    the receiver; [AddExpr] pushes at the back. *)
Fixpoint ExprListNode_Merge (n : TreeNode) (mExprs : list TreeNode)
    : Result (list TreeNode) :=
  match n with
  | ExprListNode exprs => Ok (mExprs ++ exprs)
  | PassNode children => merge_children ExprListNode_Merge children mExprs
  | _ => Ok (mExprs ++ [n])
  end.

(** "The children recursively contained in a Pass node": the nodes left
    when every nested Pass node is replaced by its children. *)
Fixpoint PassContents (n : TreeNode) : list TreeNode :=
  match n with
  | PassNode children => flat_map PassContents children
  | _ => [n]
  end.

(** What one of these nodes gives to a list node: a list node of the same
    kind gives its members, any other node gives itself. *)
Definition ExprMembers (n : TreeNode) : list TreeNode :=
  match n with
  | ExprListNode exprs => exprs
  | _ => [n]
  end.

Definition VarMembers (n : TreeNode) : list TreeNode :=
  match n with
  | VarListNode vars => vars
  | _ => [n]
  end.

(** The nodes that a variable list accepts. *)
Definition VarMergeable (n : TreeNode) : bool :=
  IsIdentifier n || IsVarList n.

Fixpoint size (n : TreeNode) : nat :=
  match n with
  | PassNode l | VarListNode l | ExprListNode l => S (list_sum (map size l))
  | _ => 1
  end.

(** The usual numbering of the operator properties. *)
Definition flag_Unary : N := 1.
Definition flag_Binary : N := 2.
Definition flag_Ternary : N := 4.
Definition flag_Pre : N := 8.
Definition flag_Post : N := 16.

(** A builder that knows no action and no token. *)
Definition no_token : N -> option TreeNode := fun _ => None.
Definition no_build : N -> list Param -> Result (option TreeNode) :=
  fun _ _ => Fail AssertFail.
Definition no_child : AppealNode -> N -> Result (option AppealNode) :=
  fun _ _ => Ok None.

(** [Expr : Primary UnaryExpr], a rule without actions. *)
Definition Expr_rule : RuleTable.t :=
  RuleTable.mk ET_Concatenate
    [TableData.mk DT_Subtable 1; TableData.mk DT_Subtable 2] [].

Definition appeal_of (t : TreeNode) : AppealNode :=
  TableAppeal (RuleTable.mk ET_Data [] []) [] (Some t).

(** the input [(int) x] *)
Definition cast_input : AppealNode :=
  TableAppeal Expr_rule
    [appeal_of (ParenthesisNode (Some (OtherNode NK_PrimType)));
     appeal_of (IdentifierNode 24)] None.

(** the input [a + b], parsed as [a] and [+b] *)
Definition plus_input : AppealNode :=
  TableAppeal Expr_rule
    [appeal_of (IdentifierNode 1);
     appeal_of (UnaOperatorNode false OPR_Add (Some (IdentifierNode 2)))] None.

(** a rule without actions above a single identifier and a separator *)
Definition single_input : AppealNode :=
  TableAppeal Expr_rule
    [appeal_of (IdentifierNode 1); TokenAppeal 7 None] None.

(** *** Flattening Pass nodes into a switch *)

Definition IsSwitchLabel (n : TreeNode) : bool :=
  match n with OtherNode NK_SwitchLabel => true | _ => false end.
Definition IsSwitchCase (n : TreeNode) : bool :=
  match n with OtherNode NK_SwitchCase => true | _ => false end.

(** The loop [while (!working_list.empty())] that SwitchCaseNode::AddLabel,
    SwitchCaseNode::AddStmt and SwitchNode::AddCase share: the front node
    is popped; the children of a Pass node are pushed at the back; any
    other node is pushed on the vector of the receiver, after the
    assertion [accept] of the function.  Every turn of the loop takes
    one unit of [fuel]. *)
Fixpoint flatten_worklist (accept : TreeNode -> bool) (fuel : nat)
    (working_list : list TreeNode) (mItems : list TreeNode)
    : Result (list TreeNode) :=
  match working_list with
  | [] => Ok mItems
  | t :: rest =>
      match fuel with
      | O => Fail NoFuel
      | S fuel' =>
          match t with
          | PassNode children =>
              flatten_worklist accept fuel' (rest ++ children) mItems
          | _ =>
              _ ← MASSERT (accept t);
              flatten_worklist accept fuel' rest (mItems ++ [t])
          end
      end
  end.

(** void SwitchCaseNode::AddLabel(TreeNode *t) *)
Definition SwitchCaseNode_AddLabel (fuel : nat) (t : TreeNode)
    (mLabels : list TreeNode) : Result (list TreeNode) :=
  flatten_worklist IsSwitchLabel fuel [t] mLabels.

(** void SwitchCaseNode::AddStmt(TreeNode *t), which asserts nothing *)
Definition SwitchCaseNode_AddStmt (fuel : nat) (t : TreeNode)
    (mStmts : list TreeNode) : Result (list TreeNode) :=
  flatten_worklist (fun _ => true) fuel [t] mStmts.

(** void SwitchNode::AddCase(TreeNode *tree) *)
Definition SwitchNode_AddCase (fuel : nat) (tree : TreeNode)
    (mCases : list TreeNode) : Result (list TreeNode) :=
  flatten_worklist IsSwitchCase fuel [tree] mCases.

(** a switch body [{ case-label; { stmt; stmt } }] as the parser hands it
    over, statements in a nested Pass node *)
Definition nested_pass : TreeNode :=
  PassNode [PassNode [OtherNode NK_Return; OtherNode NK_Break];
            OtherNode NK_SwitchLabel].

(** the labels [case 1: case 2:] of one switch case, the first in a Pass
    node of its own *)
Definition nested_labels : TreeNode :=
  PassNode [PassNode [OtherNode NK_SwitchLabel]; OtherNode NK_SwitchLabel].

(** a builder whose action 1 builds an identifier and whose other actions
    build nothing *)
Definition sample_build : N -> list Param -> Result (option TreeNode) :=
  fun id _ =>
    match id with
    | 1%N => Ok (Some (IdentifierNode 9))
    | _ => Ok None
    end.

(** [Expr : Primary UnaryExpr] with two actions *)
Definition two_actions_rule : RuleTable.t :=
  RuleTable.mk ET_Concatenate
    [TableData.mk DT_Subtable 1; TableData.mk DT_Subtable 2]
    [Action.mk 1 []; Action.mk 2 []].

End AST.

(** ** The parser's bookkeeping (shared/src/ast_type.cpp, from line 2338)

    The file holds the end of the parser: the memo of successful matches
    and the functions of an appeal node.  parser.h and succ_match.h are
    not among the sources.  A [SmallVector] and a [std::vector] are the
    lists of their elements, the last pushed at the end. *)

Module Parser.

(** *** SuccMatch *)

Module SuccMatch.

(** Modelled from the spec: class SuccMatch of succ_match.h, "a two-level
    associative structure keyed by start token" that stores for a start
    token "a set of appeal nodes that succeeded" and "the set of end-token
    indices matched"; the two containers are the ones that the functions
    name, and an [AppealNode*] is the address of the node. *)
Record t : Type := mk {
  mNodes : Guamian.t N N;
  mMatches : Guamian.t N N
}.

Definition empty : t := mk Guamian.empty Guamian.empty.

(** void SuccMatch::AddStartToken(unsigned t) *)
Definition AddStartToken (t : N) (sm : SuccMatch.t) : SuccMatch.t :=
  mk (Guamian.PairedFindOrCreateKnob t (mNodes sm))
     (Guamian.PairedFindOrCreateKnob t (mMatches sm)).

(** void SuccMatch::AddMatch(unsigned m) *)
Definition AddMatch (m : N) (sm : SuccMatch.t) : Result SuccMatch.t :=
  matches ← Guamian.PairedAddElem m (mMatches sm);
  Ok (mk (mNodes sm) matches).

(** bool SuccMatch::GetStartToken(unsigned t) *)
Definition GetStartToken (t : N) (sm : SuccMatch.t)
    : Result (SuccMatch.t * bool) :=
  let '(nodes, found_n) := Guamian.PairedFindKnob t (mNodes sm) in
  let '(matches, found_m) := Guamian.PairedFindKnob t (mMatches sm) in
  _ ← MASSERT (bool_decide (found_n = found_m));
  Ok (mk nodes matches, found_n).

(** unsigned SuccMatch::GetSuccNodesNum() *)
Definition GetSuccNodesNum (sm : SuccMatch.t) : Result nat :=
  Guamian.PairedNumOfElem (mNodes sm).

(** AppealNode* SuccMatch::GetSuccNode(unsigned idx) *)
Definition GetSuccNode (idx : nat) (sm : SuccMatch.t) : Result (option N) :=
  Guamian.PairedGetElemAtIndex idx (mNodes sm).

(** bool SuccMatch::FindNode(AppealNode *n) *)
Definition FindNode (n : N) (sm : SuccMatch.t) : Result bool :=
  Guamian.PairedFindElem n (mNodes sm).

(** void SuccMatch::RemoveNode(AppealNode *n) *)
Definition RemoveNode (n : N) (sm : SuccMatch.t) : Result SuccMatch.t :=
  nodes ← Guamian.PairedRemoveElem n (mNodes sm);
  Ok (mk nodes (mMatches sm)).

(** unsigned SuccMatch::GetMatchNum() *)
Definition GetMatchNum (sm : SuccMatch.t) : Result nat :=
  Guamian.PairedNumOfElem (mMatches sm).

(** unsigned SuccMatch::GetOneMatch(unsigned idx) *)
Definition GetOneMatch (idx : nat) (sm : SuccMatch.t) : Result (option N) :=
  Guamian.PairedGetElemAtIndex idx (mMatches sm).

(** bool SuccMatch::FindMatch(unsigned m) *)
Definition FindMatch (m : N) (sm : SuccMatch.t) : Result bool :=
  Guamian.PairedFindElem m (mMatches sm).

(** bool SuccMatch::FindMatch(unsigned start, unsigned target), with the
    state that GetStartToken leaves *)
Definition FindMatch_from (start target : N) (sm : SuccMatch.t)
    : Result (SuccMatch.t * bool) :=
  '(sm1, found) ← GetStartToken start sm;
  _ ← MASSERT found;
  found ← FindMatch target sm1;
  Ok (sm1, found).

(** The start tokens of a container, the newest first. *)
Definition tokens (g : Guamian.t N N) : list N :=
  Guamian.mData <$> Guamian.mHeader g.

(** The two containers know the same start tokens. *)
Definition same_tokens (sm : SuccMatch.t) : Prop :=
  tokens (mNodes sm) = tokens (mMatches sm).

(** start token 3 with the matches 5 and 7, start token 4 without any *)
Definition sample : SuccMatch.t :=
  mk (Guamian.mkGuamian
        [Guamian.mkKnob 0 4%N []; Guamian.mkKnob 0 3%N [100%N]] None)
     (Guamian.mkGuamian
        [Guamian.mkKnob 0 4%N []; Guamian.mkKnob 0 3%N [7%N; 5%N]] None).

End SuccMatch.

(** *** AppealNode *)

(** enum TK_Type of token.h *)
Inductive TK_Type : Type :=
| TT_ID | TT_KW | TT_LT | TT_SP | TT_OP | TT_CM | TT_NA.

#[global] Instance TK_Type_eq_dec : EqDecision TK_Type.
Proof. solve_decision. Defined.

(** A [Token*]: the address of a system token, [&gSystemTokens[id]], or
    of a token that the lexer made. *)
Inductive TokenPtr : Type :=
| SystemToken (id : N)
| LexerToken (addr : N).

#[global] Instance TokenPtr_eq_dec : EqDecision TokenPtr.
Proof. solve_decision. Defined.

(** The payload of an appeal node, [union {RuleTable *mTable; Token
    *mToken}] with [mIsTable]; a [RuleTable*] is the number of the
    table. *)
Inductive AppealData : Type :=
| AppealToken (mToken : TokenPtr)
| AppealTable (mTable : N).

Section Appeal.

(** The values of [mAfter] and the tests on them are those of parser.h. *)
Variable AppealStatus : Type.
Variables IsSuccStatus IsFailStatus IsNAStatus : AppealStatus -> bool.
(** [mTkType] of the token at an address *)
Variable mTkType : TokenPtr -> TK_Type.
Variable tables : Tables.
Variables TblIdentifier TblLiteral : N.

(** Modelled from the spec: class AppealNode of parser.h, "one attempt to
    match one rule table (or one token) starting at some token index",
    with the members that the functions below read and write. *)
Inductive AppealNode : Type := mkAppealNode {
  mData : AppealData;
  mStartIndex : N;
  mAfter : AppealStatus;
  mMatches : list N;
  mSimplifiedIndex : N;
  mChildren : list AppealNode;
  mSortedChildren : list AppealNode
}.

Definition IsToken (n : AppealNode) : bool :=
  match mData n with AppealToken _ => true | AppealTable _ => false end.
Definition IsTable (n : AppealNode) : bool :=
  match mData n with AppealTable _ => true | AppealToken _ => false end.
Definition IsSucc (n : AppealNode) : bool := IsSuccStatus (mAfter n).
Definition IsFail (n : AppealNode) : bool := IsFailStatus (mAfter n).
Definition IsNA (n : AppealNode) : bool := IsNAStatus (mAfter n).

(** bool Token::IsIdentifier(), bool Token::IsLiteral() *)
Definition IsIdentifier (token : TokenPtr) : bool :=
  bool_decide (mTkType token = TT_ID).
Definition IsLiteral (token : TokenPtr) : bool :=
  bool_decide (mTkType token = TT_LT).

(** bool AppealNode::FindMatch(unsigned m) *)
Fixpoint FindMatchIn (m : N) (matches : list N) : bool :=
  match matches with
  | [] => false
  | x :: rest => if (m =? x)%N then true else FindMatchIn m rest
  end.

Definition FindMatch (m : N) (this : AppealNode) : bool :=
  FindMatchIn m (mMatches this).

(** void AppealNode::AddMatch(unsigned m) *)
Definition AddMatch (m : N) (this : AppealNode) : AppealNode :=
  if FindMatch m this then this
  else mkAppealNode (mData this) (mStartIndex this) (mAfter this)
         (mMatches this ++ [m]) (mSimplifiedIndex this) (mChildren this)
         (mSortedChildren this).

(** unsigned AppealNode::LongestMatch() *)
Definition LongestMatch (this : AppealNode) : Result N :=
  _ ← MASSERT (IsSucc this);
  _ ← MASSERT (0 <? length (mMatches this))%nat;
  Ok (foldl (fun longest m => if (longest <? m)%N then m else longest)
            0%N (mMatches this)).

(** void AppealNode::CopyMatch(AppealNode *another), for another node
    than [this] *)
Definition CopyMatch (another this : AppealNode) : AppealNode :=
  let this1 := foldl (fun node m => AddMatch m node) this (mMatches another) in
  if IsFail this1 || IsNA this1
  then mkAppealNode (mData this1) (mStartIndex this1) (mAfter another)
         (mMatches this1) (mSimplifiedIndex this1) (mChildren this1)
         (mSortedChildren this1)
  else this1.

(** bool AppealNode::SuccEqualTo(AppealNode *other) *)
Definition SuccEqualTo (other this : AppealNode) : bool :=
  if IsSucc this && IsSucc other
     && (mStartIndex this =? mStartIndex other)%N
  then match mData this, mData other with
       | AppealToken a, AppealToken b => bool_decide (a = b)
       | AppealTable a, AppealTable b => (a =? b)%N
       | _, _ => false
       end
  else false.

(** One turn of the loop of GetSortedChildIndex: whether the slot [data]
    of the rule table names the child. *)
Definition slot_names (data : TableData.t) (child : AppealNode)
    : Result bool :=
  match TableData.mType data with
  | DT_Token =>
      match mData child with
      | AppealToken token =>
          Ok (bool_decide (token = SystemToken (TableData.mToken data)))
      | AppealTable _ => Ok false
      end
  | DT_Subtable =>
      let t := TableData.mEntry data in
      if (t =? TblIdentifier)%N then
        match mData child with
        | AppealToken token => Ok (IsIdentifier token)
        | AppealTable _ => Ok false
        end
      else if (t =? TblLiteral)%N then
        match mData child with
        | AppealToken token => Ok (IsLiteral token)
        | AppealTable _ => Ok false
        end
      else
        match mData child with
        | AppealTable child_table => Ok (child_table =? t)%N
        | AppealToken _ => Ok false
        end
  | DT_String | DT_Char => Ok false
  | DT_Type | DT_Null => Fail AssertFail
  end.

(** The loop [for (unsigned i = 0; i < rule_table->mNum; i++)] from slot
    [i] on; it has no break. *)
Fixpoint index_in_slots (slots : list TableData.t) (child : AppealNode)
    (i : nat) (found : bool) (index : N) : Result (bool * N) :=
  match slots with
  | [] => Ok (found, index)
  | data :: rest =>
      named ← slot_names data child;
      if named : bool
      then index_in_slots rest child (S i) true (N.of_nat (S i))
      else index_in_slots rest child (S i) found index
  end.

(** bool AppealNode::GetSortedChildIndex(AppealNode *child, unsigned
    &index): the result and the value of [index] at the return. *)
Definition GetSortedChildIndex (child : AppealNode) (index : N)
    (this : AppealNode) : Result (bool * N) :=
  match mData this with
  | AppealToken _ => Fail AssertFail
  | AppealTable table =>
      if negb (mSimplifiedIndex child =? 0)%N
      then Ok (true, mSimplifiedIndex child)
      else
        rule_table ← of_access (table_at tables table);
        index_in_slots (RuleTable.mData rule_table) child 0 false index
  end.

(** AppealNode* AppealNode::GetSortedChildByIndex(unsigned index) *)
Fixpoint child_by_index (this : AppealNode) (index : N)
    (children : list AppealNode) : Result (option AppealNode) :=
  match children with
  | [] => Ok None
  | child :: rest =>
      '(found, id) ← GetSortedChildIndex child 0 this;
      _ ← MASSERT found;
      if (id =? index)%N then Ok (Some child)
      else child_by_index this index rest
  end.

Definition GetSortedChildByIndex (index : N) (this : AppealNode)
    : Result (option AppealNode) :=
  child_by_index this index (mSortedChildren this).

(** The tests of one turn of the loop of FindSpecChild: whether [child]
    becomes [ret_child]. *)
Definition spec_child (tdata : TableData.t) (match_ : N)
    (child : AppealNode) : bool :=
  if IsSucc child && FindMatch match_ child then
    match TableData.mType tdata with
    | DT_Subtable =>
        let child_rule := TableData.mEntry tdata in
        let first :=
          match mData child with
          | AppealTable t => (t =? child_rule)%N
          | AppealToken _ => false
          end in
        let second :=
          IsToken child
          && ((child_rule =? TblLiteral)%N || (child_rule =? TblIdentifier)%N) in
        first || second
    | DT_Token =>
        match mData child with
        | AppealToken token =>
            bool_decide (token = SystemToken (TableData.mToken tdata))
        | AppealTable _ => false
        end
    | _ => false
    end
  else false.

(** AppealNode* AppealNode::FindSpecChild(TableData *tdata, unsigned
    match): the loop has no break. *)
Definition FindSpecChild (tdata : TableData.t) (match_ : N)
    (this : AppealNode) : option AppealNode :=
  foldl (fun ret_child child =>
           if spec_child tdata match_ child then Some child else ret_child)
        None (mChildren this).

End Appeal.

Arguments mkAppealNode {AppealStatus}.
Arguments mData {AppealStatus}.
Arguments mStartIndex {AppealStatus}.
Arguments mAfter {AppealStatus}.
Arguments mMatches {AppealStatus}.
Arguments mSimplifiedIndex {AppealStatus}.
Arguments mChildren {AppealStatus}.
Arguments mSortedChildren {AppealStatus}.
Arguments IsToken {AppealStatus}.
Arguments IsTable {AppealStatus}.
Arguments FindMatch {AppealStatus}.
Arguments AddMatch {AppealStatus}.

(** The grammar [0: Expr : Term '+' Term], [1: Term], with the system
    token 9 for ['+'], and the tables 20 and 21 for identifiers and
    literals. *)
Definition sample_rules : Tables :=
  [RuleTable.mk ET_Concatenate
     [TableData.mk DT_Subtable 1; TableData.mk DT_Token 9;
      TableData.mk DT_Subtable 1] [];
   RuleTable.mk ET_Data [TableData.mk DT_Subtable 20] []].

(** The status of a node as a flag: succeeded or not attempted. *)
Definition leaf (data : AppealData) (after : bool) (matches : list N)
    : AppealNode bool :=
  mkAppealNode data 0 after matches 0 [] [].

(** the appeal node of [a + b], with its two operands and the operator *)
Definition sample_parent : AppealNode bool :=
  mkAppealNode (AppealTable 0) 0 true [2%N] 0
    [leaf (AppealTable 1) true [0%N]; leaf (AppealTable 1) true [2%N];
     leaf (AppealToken (SystemToken 9)) true [1%N]]
    [leaf (AppealTable 1) true [0%N];
     leaf (AppealToken (SystemToken 9)) true [1%N];
     leaf (AppealTable 1) true [2%N]].

End Parser.

(** * Properties *)

(** ** Outcomes of a C++ call *)

Lemma rbind_Ok {A B : Type} (r : Result A) (k : A -> Result B) (b : B) :
  r ≫= k = Ok b -> exists a, r = Ok a /\ k a = Ok b.
Proof. destruct r as [a|f]; simpl; [eauto | discriminate]. Qed.

Lemma MASSERT_Ok (b : bool) (u : unit) : MASSERT b = Ok u -> b = true.
Proof. destruct b; [reflexivity | discriminate]. Qed.

Lemma of_access_Ok {A : Type} (o : option A) (a : A) :
  of_access o = Ok a -> o = Some a.
Proof. destruct o; simpl; congruence. Qed.

(** Splits a hypothesis [H : (x ← r; k) = Ok b] into its steps. *)
Ltac rsplit H :=
  repeat match type of H with
  | mbind ?k ?r = Ok ?b =>
      let a := fresh "a" in
      let Ha := fresh "Hstep" in
      apply rbind_Ok in H; destruct H as (a & Ha & H)
  end.

(** ** Guamian *)

Module GuamianFacts.
Import Guamian.

Section Container.
Context {K E : Type} `{EqDecision K} `{EqDecision E}.

Local Abbreviation Knob := (Knob K E).
Local Abbreviation t := (t K E).

Lemma FindKnobIn_Some (key : K) (chain : list Knob) (i : nat) :
  FindKnobIn key chain = Some i ->
  exists knob, chain !! i = Some knob /\ mData knob = key.
Proof.
  revert i; induction chain as [|knob rest IH]; intros i; simpl.
  - discriminate.
  - destruct (decide (mData knob = key)) as [Hk|Hk].
    + intros [= <-]. exists knob. split; [reflexivity | exact Hk].
    + destruct (FindKnobIn key rest) as [j|] eqn:Hj; simpl; [|discriminate].
      intros [= <-]. simpl. apply IH. reflexivity.
Qed.

Lemma FindKnobIn_lt (key : K) (chain : list Knob) (i : nat) :
  FindKnobIn key chain = Some i -> i < length chain.
Proof.
  intros Hi. apply FindKnobIn_Some in Hi as (knob & Hk & _).
  eapply lookup_lt_Some; eassumption.
Qed.

Lemma FindElemIn_true (data : E) (elems : list E) :
  FindElemIn data elems = true <-> data ∈ elems.
Proof.
  induction elems as [|e rest IH]; simpl.
  - split; [discriminate | intros Hin; inversion Hin].
  - destruct (decide (e = data)) as [->|Hne].
    + split; [intros _; left | reflexivity].
    + rewrite IH. split; [intros Hin; right; exact Hin |].
      intros Hin. apply elem_of_cons in Hin as [Heq|Hin]; [congruence | exact Hin].
Qed.

Lemma AddElemKnob_found (data : E) (knob : Knob) :
  FindElemIn data (mChildren (AddElemKnob data knob)) = true.
Proof.
  unfold AddElemKnob.
  destruct (FindElemIn data (mChildren knob)) eqn:Hf; [exact Hf|].
  simpl. rewrite decide_True; reflexivity.
Qed.

Lemma AddElemKnob_fixed (data : E) (knob : Knob) :
  FindElemIn data (mChildren knob) = true -> AddElemKnob data knob = knob.
Proof. unfold AddElemKnob. intros ->. reflexivity. Qed.

Lemma AddElemKnob_data (data : E) (knob : Knob) :
  mData (AddElemKnob data knob) = mData knob.
Proof. unfold AddElemKnob. destruct (FindElemIn _ _); reflexivity. Qed.

Lemma AddElemKnob_nodup (data : E) (knob : Knob) :
  NoDup (mChildren knob) -> NoDup (mChildren (AddElemKnob data knob)).
Proof.
  unfold AddElemKnob. intros Hnd.
  destruct (FindElemIn data (mChildren knob)) eqn:Hf; [exact Hnd|].
  simpl. apply NoDup_cons_2; [|exact Hnd].
  intros Hin. apply FindElemIn_true in Hin. congruence.
Qed.

Lemma alter_fixed (f : Knob -> Knob) (i : nat) (chain : list Knob) (knob : Knob) :
  chain !! i = Some knob -> f knob = knob -> alter f i chain = chain.
Proof.
  intros Hi Hf. apply list_eq. intros j.
  destruct (decide (i = j)) as [<-|Hne].
  - rewrite list_lookup_alter_eq, Hi. simpl. rewrite Hf. reflexivity.
  - rewrite list_lookup_alter_ne by exact Hne. reflexivity.
Qed.

Lemma FindKnobIn_alter (key : K) (f : Knob -> Knob) (i : nat) (chain : list Knob) :
  (forall knob, mData (f knob) = mData knob) ->
  FindKnobIn key (alter f i chain) = FindKnobIn key chain.
Proof.
  intros Hf. revert i. induction chain as [|knob rest IH]; intros i.
  - reflexivity.
  - destruct i as [|i]; cbn [alter list_alter FindKnobIn].
    + rewrite Hf. reflexivity.
    + fold (alter f i rest). rewrite IH. reflexivity.
Qed.

(** After [AddElem key data] the datum is found under the key. *)
Lemma FindElem_AddElem (key : K) (data : E) (g : t) :
  FindElem key data (AddElem key data g) = true.
Proof.
  unfold AddElem, FindOrCreateKnob, FindElem, FindKnob.
  destruct (FindKnobIn key (mHeader g)) as [i|] eqn:Hi; simpl.
  - rewrite FindKnobIn_alter by apply AddElemKnob_data. rewrite Hi.
    destruct (FindKnobIn_Some _ _ _ Hi) as (knob & Hk & _).
    rewrite list_lookup_alter_eq, Hk. simpl. apply AddElemKnob_found.
  - rewrite decide_True by reflexivity. simpl.
    rewrite decide_True; reflexivity.
Qed.

(** Adding a datum that is already under the key changes nothing at all. *)
Lemma AddElem_present (key : K) (data : E) (g : t) :
  FindElem key data g = true -> AddElem key data g = g.
Proof.
  unfold AddElem, FindOrCreateKnob, FindElem, FindKnob.
  destruct (FindKnobIn key (mHeader g)) as [i|] eqn:Hi; [|discriminate].
  destruct (mHeader g !! i) as [knob|] eqn:Hk; [|discriminate].
  intros Hf. unfold on_knob.
  rewrite (alter_fixed _ _ _ knob Hk (AddElemKnob_fixed _ _ Hf)).
  destruct g; reflexivity.
Qed.

Lemma AddElem_nodup (key : K) (data : E) (g : t) :
  elems_nodup g -> elems_nodup (AddElem key data g).
Proof.
  unfold elems_nodup, AddElem, FindOrCreateKnob, FindKnob. intros Hnd.
  destruct (FindKnobIn key (mHeader g)) as [i|] eqn:Hi; simpl.
  - apply Forall_alter; [exact Hnd|].
    intros knob _. apply AddElemKnob_nodup.
  - constructor; [|exact Hnd].
    unfold AddElemKnob. simpl. apply NoDup_singleton.
Qed.

(** C9. [AddElem] is idempotent.  When [data] already hangs under [key]
    the whole container, the paired-operation cursor included, is left as
    it was, so every later query answers as before; in general a second
    [AddElem key data] changes nothing that the first one produced, the
    number of elements under [key] stays the same, and chains without
    duplicates stay without duplicates. *)
Theorem AddElem_idempotent (key : K) (data : E) (g : t) :
  (FindElem key data g = true -> AddElem key data g = g) /\
  AddElem key data (AddElem key data g) = AddElem key data g /\
  NumOfElem key (AddElem key data (AddElem key data g))
    = NumOfElem key (AddElem key data g) /\
  (elems_nodup g -> elems_nodup (AddElem key data g)).
Proof.
  assert (Hidem : AddElem key data (AddElem key data g) = AddElem key data g).
  { apply AddElem_present, FindElem_AddElem. }
  split; [apply AddElem_present|].
  split; [exact Hidem|].
  split; [rewrite Hidem; reflexivity | apply AddElem_nodup].
Qed.

(** *** Lookups, counts and the paired cursor *)

Lemma FindKnobIn_None (key : K) (chain : list Knob) :
  FindKnobIn key chain = None <-> key ∉ (mData <$> chain).
Proof.
  induction chain as [|knob rest IH]; simpl.
  - split; [intros _ Hin; inversion Hin | reflexivity].
  - rewrite not_elem_of_cons. destruct (decide (mData knob = key)) as [Hk|Hk].
    + split; [discriminate | intros [Hne _]; congruence].
    + destruct (FindKnobIn key rest) as [j|]; simpl.
      * split; [discriminate|]. intros [_ Hnin]. apply IH in Hnin. discriminate.
      * split; [|reflexivity]. intros _. split; [congruence | apply IH; reflexivity].
Qed.

Lemma FindKnobIn_first (key : K) (chain : list Knob) (i j : nat) (knob : Knob) :
  FindKnobIn key chain = Some i -> chain !! j = Some knob -> mData knob = key ->
  i <= j.
Proof.
  revert i j. induction chain as [|k rest IH]; intros i j; simpl; [discriminate|].
  destruct (decide (mData k = key)) as [Hk|Hk].
  - intros [= <-] _ _. lia.
  - destruct (FindKnobIn key rest) as [i'|] eqn:Hi; simpl; [|discriminate].
    intros [= <-]. destruct j as [|j]; simpl.
    + intros [= ->] Hkey. congruence.
    + intros Hj Hkey. specialize (IH i' j eq_refl Hj Hkey). lia.
Qed.

Lemma fmap_mData_alter (f : Knob -> Knob) (i : nat) (chain : list Knob) :
  (forall knob, mData (f knob) = mData knob) ->
  mData <$> alter f i chain = mData <$> chain.
Proof.
  intros Hf. revert i. induction chain as [|knob rest IH]; intros i; [reflexivity|].
  destruct i as [|i]; cbn [alter list_alter fmap list_fmap].
  - rewrite Hf. reflexivity.
  - f_equal. apply IH.
Qed.

(** The chain under [key'] after a knob operation [f] was applied to the
    knob of [key]. *)
Lemma ElemsOf_on_knob (key key' : K) (f : Knob -> Knob) (h : list E -> list E)
    (i : nat) (g : t) :
  (forall knob, mData (f knob) = mData knob) ->
  (forall knob, mChildren (f knob) = h (mChildren knob)) ->
  FindKnob key g = Some i ->
  ElemsOf key' (on_knob i f g)
    = if decide (key' = key) then h (ElemsOf key g) else ElemsOf key' g.
Proof.
  intros Hdata Hch Hi. unfold ElemsOf, FindKnob, on_knob in *. simpl.
  rewrite FindKnobIn_alter by exact Hdata.
  destruct (decide (key' = key)) as [->|Hne].
  - rewrite Hi. destruct (FindKnobIn_Some _ _ _ Hi) as (knob & Hk & _).
    rewrite list_lookup_alter_eq, Hk. simpl. apply Hch.
  - destruct (FindKnobIn key' (mHeader g)) as [j|] eqn:Hj; [|reflexivity].
    rewrite list_lookup_alter_ne; [reflexivity|].
    intros <-. destruct (FindKnobIn_Some _ _ _ Hi) as (k1 & Hk1 & Hd1).
    destruct (FindKnobIn_Some _ _ _ Hj) as (k2 & Hk2 & Hd2). congruence.
Qed.

Lemma ElemsOf_created (key key' : K) (f : Knob -> Knob) (h : list E -> list E)
    (g : t) :
  (forall knob, mData (f knob) = mData knob) ->
  (forall knob, mChildren (f knob) = h (mChildren knob)) ->
  ElemsOf key' (let '(g1, i) := FindOrCreateKnob key g in on_knob i f g1)
    = if decide (key' = key) then h (ElemsOf key g) else ElemsOf key' g.
Proof.
  intros Hdata Hch. unfold FindOrCreateKnob.
  destruct (FindKnob key g) as [i|] eqn:Hi.
  - apply ElemsOf_on_knob; assumption.
  - assert (Hnone : ElemsOf key g = []) by (unfold ElemsOf; rewrite Hi; reflexivity).
    rewrite Hnone. unfold ElemsOf, FindKnob, on_knob in *. simpl.
    rewrite Hdata. simpl.
    destruct (decide (key = key')) as [<-|Hne].
    + rewrite decide_True by reflexivity. simpl. rewrite Hch. reflexivity.
    + rewrite decide_False by congruence.
      destruct (FindKnobIn key' (mHeader g)) as [j|]; reflexivity.
Qed.

Lemma ElemsOf_AddElem (key key' : K) (data : E) (g : t) :
  ElemsOf key' (AddElem key data g)
    = if decide (key' = key)
      then if FindElemIn data (ElemsOf key g) then ElemsOf key g
           else data :: ElemsOf key g
      else ElemsOf key' g.
Proof.
  unfold AddElem.
  rewrite (ElemsOf_created key key' (AddElemKnob data)
             (fun l => if FindElemIn data l then l else data :: l)).
  - reflexivity.
  - apply AddElemKnob_data.
  - intros knob. unfold AddElemKnob. destruct (FindElemIn _ _); reflexivity.
Qed.

Lemma ElemsOf_RemoveElem (key key' : K) (data : E) (g : t) :
  ElemsOf key' (RemoveElem key data g)
    = if decide (key' = key) then RemoveElemIn data (ElemsOf key g)
      else ElemsOf key' g.
Proof.
  unfold RemoveElem.
  rewrite (ElemsOf_created key key' (RemoveElemKnob data) (RemoveElemIn data));
    reflexivity.
Qed.

Lemma ElemsOf_MoveElemToHead (key key' : K) (data : E) (g : t) :
  ElemsOf key' (MoveElemToHead key data g)
    = if decide (key' = key)
      then if FindElemIn data (ElemsOf key g)
           then data :: RemoveElemIn data (ElemsOf key g) else ElemsOf key g
      else ElemsOf key' g.
Proof.
  unfold MoveElemToHead. destruct (FindKnob key g) as [i|] eqn:Hi.
  - rewrite (ElemsOf_on_knob key key' (MoveElemToHeadKnob data)
               (fun l => if FindElemIn data l then data :: RemoveElemIn data l
                         else l)); [reflexivity| | |exact Hi].
    + intros knob. unfold MoveElemToHeadKnob. destruct (FindElemIn _ _); reflexivity.
    + intros knob. unfold MoveElemToHeadKnob. destruct (FindElemIn _ _); reflexivity.
  - destruct (decide (key' = key)) as [->|]; [|reflexivity].
    unfold ElemsOf. rewrite Hi. reflexivity.
Qed.

Lemma FindElem_ElemsOf (key : K) (data : E) (g : t) :
  FindElem key data g = FindElemIn data (ElemsOf key g).
Proof.
  unfold FindElem, ElemsOf. destruct (FindKnob key g) as [i|]; [|reflexivity].
  destruct (mHeader g !! i); reflexivity.
Qed.

Lemma NumOfElem_ElemsOf (key : K) (g : t) :
  NumOfElem key g = length (ElemsOf key g).
Proof.
  unfold NumOfElem, ElemsOf. destruct (FindKnob key g) as [i|]; [|reflexivity].
  destruct (mHeader g !! i); reflexivity.
Qed.

Lemma FindFirstElem_ElemsOf (key : K) (g : t) :
  FindFirstElem key g = head (ElemsOf key g).
Proof.
  unfold FindFirstElem, ElemsOf. destruct (FindKnob key g) as [i|]; [|reflexivity].
  destruct (mHeader g !! i); reflexivity.
Qed.

Lemma FindElemIn_bool (data : E) (elems : list E) :
  FindElemIn data elems = bool_decide (data ∈ elems).
Proof.
  destruct (FindElemIn data elems) eqn:Hf.
  - symmetry. apply bool_decide_eq_true, FindElemIn_true, Hf.
  - symmetry. apply bool_decide_eq_false. intros Hin.
    apply FindElemIn_true in Hin. congruence.
Qed.

Lemma RemoveElemIn_other (data data' : E) (elems : list E) :
  data' <> data ->
  FindElemIn data' (RemoveElemIn data elems) = FindElemIn data' elems.
Proof.
  intros Hne. induction elems as [|e rest IH]; [reflexivity|]. simpl.
  destruct (decide (e = data)) as [->|He].
  - rewrite decide_False by congruence. reflexivity.
  - simpl. rewrite IH. reflexivity.
Qed.

Lemma RemoveElemIn_self (data : E) (elems : list E) :
  NoDup elems -> FindElemIn data (RemoveElemIn data elems) = false.
Proof.
  induction elems as [|e rest IH]; [reflexivity|]. intros Hnd.
  apply NoDup_cons in Hnd as [Hnin Hnd]. simpl.
  destruct (decide (e = data)) as [->|He].
  - destruct (FindElemIn data rest) eqn:Hf; [|reflexivity].
    apply FindElemIn_true in Hf. contradiction.
  - simpl. rewrite decide_False by exact He. apply IH, Hnd.
Qed.

Lemma RemoveElemIn_subset (data x : E) (elems : list E) :
  x ∈ RemoveElemIn data elems -> x ∈ elems.
Proof.
  induction elems as [|e rest IH]; [intros Hin; exact Hin|]. simpl.
  destruct (decide (e = data)).
  - intros Hin. right. exact Hin.
  - rewrite !elem_of_cons. intros [->|Hin]; [left; reflexivity | right; auto].
Qed.

Lemma RemoveElemIn_nodup (data : E) (elems : list E) :
  NoDup elems -> NoDup (RemoveElemIn data elems).
Proof.
  induction elems as [|e rest IH]; [intros Hnd; exact Hnd|]. intros Hnd.
  apply NoDup_cons in Hnd as [Hnin Hnd]. simpl.
  destruct (decide (e = data)); [exact Hnd|].
  apply NoDup_cons_2; [|apply IH, Hnd].
  intros Hin. apply Hnin. eapply RemoveElemIn_subset, Hin.
Qed.

Lemma RemoveElemIn_length (data : E) (elems : list E) :
  length (RemoveElemIn data elems) + (if FindElemIn data elems then 1 else 0)
    = length elems.
Proof.
  induction elems as [|e rest IH]; [reflexivity|]. simpl.
  destruct (decide (e = data)); simpl; lia.
Qed.

Lemma ElemsOf_nodup (key : K) (g : t) :
  elems_nodup g -> NoDup (ElemsOf key g).
Proof.
  unfold elems_nodup, ElemsOf. intros Hnd.
  destruct (FindKnob key g) as [i|]; [|constructor].
  destruct (mHeader g !! i) as [knob|] eqn:Hk; [|constructor]. simpl.
  eapply Forall_lookup_1 in Hnd; [exact Hnd | exact Hk].
Qed.

Lemma bool_decide_and_l (P Q : Prop) `{Decision P} `{Decision Q} :
  P -> bool_decide (P /\ Q) = bool_decide Q.
Proof. intros HP. apply bool_decide_ext. tauto. Qed.

Lemma bool_decide_and_false (P Q : Prop) `{Decision P} `{Decision Q} :
  ~ P -> bool_decide (P /\ Q) = false.
Proof. intros HP. apply bool_decide_eq_false. tauto. Qed.

(** X1. Looking up after an insertion: [data'] hangs under [key'] after
    [AddElem key data] exactly when it is the pair just added or it hung
    there before. *)
Theorem FindElem_after_AddElem (key key' : K) (data data' : E) (g : t) :
  FindElem key' data' (AddElem key data g)
    = bool_decide (key' = key /\ data' = data) || FindElem key' data' g.
Proof.
  rewrite !FindElem_ElemsOf, ElemsOf_AddElem.
  destruct (decide (key' = key)) as [->|Hne].
  - rewrite bool_decide_and_l by reflexivity.
    destruct (FindElemIn data (ElemsOf key g)) eqn:Hf.
    + destruct (decide (data' = data)) as [->|Hd].
      * rewrite Hf, orb_true_r. reflexivity.
      * rewrite bool_decide_eq_false_2 by exact Hd. reflexivity.
    + simpl. destruct (decide (data = data')) as [<-|Hd].
      * rewrite bool_decide_eq_true_2 by reflexivity. reflexivity.
      * rewrite bool_decide_eq_false_2 by congruence. reflexivity.
  - rewrite bool_decide_and_false by exact Hne. reflexivity.
Qed.

(** X2. Looking up after a removal, in a container whose chains hold no
    element twice: [data'] hangs under [key'] after [RemoveElem key data]
    exactly when it hung there before and is not the pair removed. *)
Theorem FindElem_after_RemoveElem (key key' : K) (data data' : E) (g : t) :
  elems_nodup g ->
  FindElem key' data' (RemoveElem key data g)
    = FindElem key' data' g && negb (bool_decide (key' = key /\ data' = data)).
Proof.
  intros Hnd. rewrite !FindElem_ElemsOf, ElemsOf_RemoveElem.
  destruct (decide (key' = key)) as [->|Hne].
  - rewrite bool_decide_and_l by reflexivity.
    destruct (decide (data' = data)) as [->|Hd].
    + rewrite bool_decide_eq_true_2 by reflexivity. simpl.
      rewrite andb_false_r. apply RemoveElemIn_self, ElemsOf_nodup, Hnd.
    + rewrite bool_decide_eq_false_2 by exact Hd. simpl. rewrite andb_true_r.
      apply RemoveElemIn_other, Hd.
  - rewrite bool_decide_and_false by exact Hne. simpl. rewrite andb_true_r.
    reflexivity.
Qed.

Lemma MoveElemIn_find (data data' : E) (elems : list E) :
  FindElemIn data elems = true ->
  FindElemIn data' (data :: RemoveElemIn data elems) = FindElemIn data' elems.
Proof.
  intros Hf. simpl. destruct (decide (data = data')) as [<-|Hd].
  - symmetry. exact Hf.
  - apply RemoveElemIn_other. congruence.
Qed.

(** X3. [MoveElemToHead key data] moves, it neither adds nor drops: every
    lookup and every element count is as before, and the first element
    under [key] is [data] when [data] hangs there, and the old first
    element otherwise. *)
Theorem MoveElemToHead_moves (key key' : K) (data data' : E) (g : t) :
  FindElem key' data' (MoveElemToHead key data g) = FindElem key' data' g /\
  NumOfElem key' (MoveElemToHead key data g) = NumOfElem key' g /\
  FindFirstElem key (MoveElemToHead key data g)
    = if FindElem key data g then Some data else FindFirstElem key g.
Proof.
  rewrite !FindElem_ElemsOf, !NumOfElem_ElemsOf, !FindFirstElem_ElemsOf,
    !ElemsOf_MoveElemToHead.
  destruct (decide (key = key)) as [_|Hne]; [|congruence].
  destruct (FindElemIn data (ElemsOf key g)) eqn:Hf.
  - destruct (decide (key' = key)) as [->|Hne].
    + split; [apply MoveElemIn_find, Hf|]. split; [|reflexivity].
      pose proof (RemoveElemIn_length data (ElemsOf key g)) as Hlen.
      rewrite Hf in Hlen. simpl. lia.
    + split; [reflexivity|]. split; reflexivity.
  - destruct (decide (key' = key)) as [->|]; split; try reflexivity; split; reflexivity.
Qed.

(** X4. Counting: [AddElem key data] makes the chain of [key] one longer
    when [data] was not there and leaves every other count alone;
    [RemoveElem key data] makes it one shorter when [data] was there. *)
Theorem NumOfElem_counts (key key' : K) (data : E) (g : t) :
  NumOfElem key' (AddElem key data g)
    = NumOfElem key' g
      + (if bool_decide (key' = key) && negb (FindElem key data g) then 1 else 0) /\
  NumOfElem key' (RemoveElem key data g)
    + (if bool_decide (key' = key) && FindElem key data g then 1 else 0)
    = NumOfElem key' g.
Proof.
  rewrite !NumOfElem_ElemsOf, !FindElem_ElemsOf, ElemsOf_AddElem,
    ElemsOf_RemoveElem.
  destruct (decide (key' = key)) as [->|Hne].
  - rewrite bool_decide_eq_true_2 by reflexivity. simpl.
    pose proof (RemoveElemIn_length data (ElemsOf key g)) as Hlen.
    destruct (FindElemIn data (ElemsOf key g)); simpl in *; lia.
  - rewrite bool_decide_eq_false_2 by exact Hne. simpl. lia.
Qed.

Lemma knobs_nodup_on_knob (f : Knob -> Knob) (i : nat) (g : t) :
  (forall knob, mData (f knob) = mData knob) ->
  knobs_nodup g -> knobs_nodup (on_knob i f g).
Proof.
  unfold knobs_nodup, on_knob. simpl. intros Hf Hnd.
  rewrite fmap_mData_alter by exact Hf. exact Hnd.
Qed.

Lemma knobs_nodup_FindOrCreateKnob (key : K) (g : t) :
  knobs_nodup g -> knobs_nodup (FindOrCreateKnob key g).1.
Proof.
  unfold FindOrCreateKnob, FindKnob, knobs_nodup. intros Hnd.
  destruct (FindKnobIn key (mHeader g)) as [i|] eqn:Hi; [exact Hnd|]. simpl.
  apply NoDup_cons_2; [|exact Hnd]. apply FindKnobIn_None, Hi.
Qed.

Lemma elems_nodup_FindOrCreateKnob (key : K) (g : t) :
  elems_nodup g -> elems_nodup (FindOrCreateKnob key g).1.
Proof.
  unfold FindOrCreateKnob, elems_nodup. intros Hnd.
  destruct (FindKnob key g); [exact Hnd|]. simpl.
  constructor; [constructor | exact Hnd].
Qed.

Lemma MoveElemToHeadKnob_nodup (data : E) (knob : Knob) :
  NoDup (mChildren knob) -> NoDup (mChildren (MoveElemToHeadKnob data knob)).
Proof.
  unfold MoveElemToHeadKnob. intros Hnd.
  destruct (FindElemIn data (mChildren knob)) eqn:Hf; [|exact Hnd]. simpl.
  apply NoDup_cons_2; [|apply RemoveElemIn_nodup, Hnd].
  intros Hin. apply FindElemIn_true in Hin.
  rewrite RemoveElemIn_self in Hin by exact Hnd. discriminate.
Qed.

(** X5. "Duplication of knobs or elements is not supported": a container
    in which no key has two knobs and no chain holds an element twice
    stays so under every operation that changes it; the empty container
    is one. *)
Theorem no_duplication_kept (key : K) (data : E) (g : t) :
  knobs_nodup g -> elems_nodup g ->
  (knobs_nodup (AddElem key data g) /\ elems_nodup (AddElem key data g)) /\
  (knobs_nodup (RemoveElem key data g) /\ elems_nodup (RemoveElem key data g)) /\
  (knobs_nodup (MoveElemToHead key data g)
   /\ elems_nodup (MoveElemToHead key data g)) /\
  (knobs_nodup (PairedFindOrCreateKnob key g)
   /\ elems_nodup (PairedFindOrCreateKnob key g)).
Proof.
  intros Hk He.
  pose proof (knobs_nodup_FindOrCreateKnob key g Hk) as Hk1.
  pose proof (elems_nodup_FindOrCreateKnob key g He) as He1.
  split; [|split; [|split]].
  - split; [|apply AddElem_nodup, He].
    unfold AddElem. destruct (FindOrCreateKnob key g) as [g1 i].
    apply knobs_nodup_on_knob; [apply AddElemKnob_data | exact Hk1].
  - unfold RemoveElem. destruct (FindOrCreateKnob key g) as [g1 i]. split.
    + apply knobs_nodup_on_knob; [reflexivity | exact Hk1].
    + unfold elems_nodup, on_knob. simpl. apply Forall_alter; [exact He1|].
      intros knob _. apply RemoveElemIn_nodup.
  - unfold MoveElemToHead. destruct (FindKnob key g) as [i|]; [|split; assumption].
    split.
    + apply knobs_nodup_on_knob; [|exact Hk].
      intros knob. unfold MoveElemToHeadKnob. destruct (FindElemIn _ _); reflexivity.
    + unfold elems_nodup, on_knob. simpl. apply Forall_alter; [exact He|].
      intros knob _. apply MoveElemToHeadKnob_nodup.
  - unfold PairedFindOrCreateKnob. destruct (FindOrCreateKnob key g) as [g1 i].
    split; [exact Hk1 | exact He1].
Qed.

Lemma knob_id_back (g : t) (i : nat) :
  i < length (mHeader g) -> knob_id g (knob_id g i) = i.
Proof. unfold knob_id. lia. Qed.

Lemma paired_temp_knob (key : K) (g : t) :
  paired_with key g ->
  exists i knob, temp_knob g = Ok (i, knob) /\ FindKnob key g = Some i /\
                 mHeader g !! i = Some knob.
Proof.
  intros (i & Hi & Htemp).
  destruct (FindKnobIn_Some _ _ _ Hi) as (knob & Hk & _).
  exists i, knob. split; [|split; assumption].
  unfold temp_knob. rewrite Htemp. simpl.
  rewrite knob_id_back by (eapply lookup_lt_Some; exact Hk).
  rewrite Hk. reflexivity.
Qed.

Lemma paired_ElemsOf (key : K) (g : t) (i : nat) (knob : Knob) :
  FindKnob key g = Some i -> mHeader g !! i = Some knob ->
  ElemsOf key g = mChildren knob.
Proof. intros Hi Hk. unfold ElemsOf. rewrite Hi, Hk. reflexivity. Qed.

Lemma paired_FindOrCreateKnob (key : K) (g : t) :
  paired_with key (PairedFindOrCreateKnob key g).
Proof.
  unfold paired_with, PairedFindOrCreateKnob, FindOrCreateKnob.
  destruct (FindKnob key g) as [i|] eqn:Hi.
  - exists i. split; [exact Hi | reflexivity].
  - exists 0. split; [|reflexivity].
    unfold FindKnob. simpl. rewrite decide_True; reflexivity.
Qed.

Lemma ElemsOf_PairedFindOrCreateKnob (key key' : K) (g : t) :
  ElemsOf key' (PairedFindOrCreateKnob key g) = ElemsOf key' g.
Proof.
  unfold PairedFindOrCreateKnob, FindOrCreateKnob.
  destruct (FindKnob key g) as [i|] eqn:Hi; [reflexivity|].
  unfold ElemsOf, FindKnob in *. simpl.
  destruct (decide (key = key')) as [<-|Hne].
  - rewrite Hi. reflexivity.
  - destruct (FindKnobIn key' (mHeader g)); reflexivity.
Qed.

Lemma paired_AddElem (key k : K) (d : E) (g : t) :
  paired_with key g -> paired_with key (AddElem k d g).
Proof.
  intros (i & Hi & Htemp). unfold paired_with, AddElem, FindOrCreateKnob.
  pose proof (FindKnobIn_lt _ _ _ Hi) as Hlt.
  destruct (FindKnob k g) as [j|] eqn:Hj.
  - exists i. unfold FindKnob, on_knob, knob_id in *. simpl.
    rewrite FindKnobIn_alter by apply AddElemKnob_data.
    rewrite length_alter. split; assumption.
  - exists (S i). unfold FindKnob, on_knob, knob_id in *. simpl.
    destruct (decide (k = key)) as [->|Hne]; [congruence|].
    rewrite Hi. split; [reflexivity|]. rewrite Htemp. f_equal. lia.
Qed.

Lemma paired_AddElems (key : K) (calls : list (K * E)) (g : t) :
  paired_with key g -> paired_with key (AddElems calls g).
Proof.
  unfold AddElems. revert g. induction calls as [|[k d] calls IH]; intros g Hp.
  - exact Hp.
  - simpl. apply IH, paired_AddElem, Hp.
Qed.

Lemma paired_reads (key : K) (g : t) :
  paired_with key g ->
  (forall d, PairedFindElem d g = Ok (FindElem key d g)) /\
  PairedNumOfElem g = Ok (NumOfElem key g) /\
  PairedFindFirstElem g = Ok (FindFirstElem key g) /\
  (forall idx, PairedGetElemAtIndex idx g = Ok (ElemsOf key g !! idx)).
Proof.
  intros Hp. destruct (paired_temp_knob _ _ Hp) as (i & knob & Htk & Hi & Hk).
  pose proof (paired_ElemsOf _ _ _ _ Hi Hk) as Hel.
  unfold PairedFindElem, PairedNumOfElem, PairedFindFirstElem,
    PairedGetElemAtIndex.
  rewrite Htk. simpl.
  split; [|split; [|split]].
  - intros d. rewrite FindElem_ElemsOf, Hel. reflexivity.
  - rewrite NumOfElem_ElemsOf, Hel. reflexivity.
  - rewrite FindFirstElem_ElemsOf, Hel. reflexivity.
  - intros idx. rewrite Hel. reflexivity.
Qed.

Lemma paired_writes (key : K) (d : E) (g : t) :
  paired_with key g ->
  PairedAddElem d g = Ok (AddElem key d g) /\
  PairedRemoveElem d g = Ok (RemoveElem key d g) /\
  PairedMoveElemToHead d g = Ok (MoveElemToHead key d g).
Proof.
  intros Hp. destruct (paired_temp_knob _ _ Hp) as (i & knob & Htk & Hi & Hk).
  unfold PairedAddElem, PairedRemoveElem, PairedMoveElemToHead, AddElem,
    RemoveElem, MoveElemToHead, FindOrCreateKnob.
  rewrite Htk, Hi. simpl. repeat split; reflexivity.
Qed.

(** X6. A paired sequence does what the keyed operations do: after
    [PairedFindOrCreateKnob key] the paired queries answer as the keyed
    queries on [key] did before it, and the paired updates are the keyed
    updates on [key]. *)
Theorem Paired_operations_on_key (key : K) (d : E) (g : t) :
  let g1 := PairedFindOrCreateKnob key g in
  PairedFindElem d g1 = Ok (FindElem key d g) /\
  PairedNumOfElem g1 = Ok (NumOfElem key g) /\
  PairedFindFirstElem g1 = Ok (FindFirstElem key g) /\
  PairedAddElem d g1 = Ok (AddElem key d g1) /\
  PairedRemoveElem d g1 = Ok (RemoveElem key d g1) /\
  PairedMoveElemToHead d g1 = Ok (MoveElemToHead key d g1).
Proof.
  intros g1. pose proof (paired_FindOrCreateKnob key g) as Hp. fold g1 in Hp.
  destruct (paired_reads key g1 Hp) as (Hfind & Hnum & Hfirst & _).
  destruct (paired_writes key d g1 Hp) as (Hadd & Hrem & Hmove).
  rewrite Hfind, Hnum, Hfirst, Hadd, Hrem, Hmove.
  rewrite !FindElem_ElemsOf, !NumOfElem_ElemsOf, !FindFirstElem_ElemsOf.
  subst g1. rewrite !ElemsOf_PairedFindOrCreateKnob. repeat split; reflexivity.
Qed.

(** X7. The cursor is a pointer to the knob, not a position in the chain:
    however many elements are added under whatever keys after
    [PairedFindOrCreateKnob key], new knobs being linked in front, the
    paired queries still answer for [key]. *)
Theorem Paired_cursor_stable (key : K) (d : E) (calls : list (K * E)) (g : t) :
  let g1 := AddElems calls (PairedFindOrCreateKnob key g) in
  PairedFindElem d g1 = Ok (FindElem key d g1) /\
  PairedNumOfElem g1 = Ok (NumOfElem key g1) /\
  PairedFindFirstElem g1 = Ok (FindFirstElem key g1) /\
  PairedAddElem d g1 = Ok (AddElem key d g1).
Proof.
  intros g1.
  assert (Hp : paired_with key g1)
    by apply paired_AddElems, paired_FindOrCreateKnob.
  destruct (paired_reads key g1 Hp) as (Hfind & Hnum & Hfirst & _).
  destruct (paired_writes key d g1 Hp) as (Hadd & _).
  repeat split; auto.
Qed.

(** X8. [PairedFindKnob] does not create: when [key] has a knob the
    paired operations work on it, and when it has none the cursor is NULL
    and every paired operation dereferences it. *)
Theorem PairedFindKnob_found_or_null (key : K) (d : E) (g : t) :
  let '(g1, found) := PairedFindKnob key g in
  mHeader g1 = mHeader g /\
  found = bool_decide (key ∈ (mData <$> mHeader g)) /\
  PairedFindElem d g1
    = (if found then Ok (FindElem key d g) else Fail BadAccess) /\
  PairedNumOfElem g1
    = (if found then Ok (NumOfElem key g) else Fail BadAccess) /\
  PairedAddElem d g1
    = (if found then Ok (AddElem key d g1) else Fail BadAccess) /\
  PairedRemoveElem d g1
    = (if found then Ok (RemoveElem key d g1) else Fail BadAccess).
Proof.
  unfold PairedFindKnob. destruct (FindKnob key g) as [i|] eqn:Hi.
  - set (g1 := mkGuamian (mHeader g) (Some (knob_id g i))).
    assert (Hp : paired_with key g1) by (exists i; split; [exact Hi | reflexivity]).
    destruct (paired_reads key g1 Hp) as (Hfind & Hnum & _).
    destruct (paired_writes key d g1 Hp) as (Hadd & Hrem & _).
    split; [reflexivity|]. split.
    { symmetry. apply bool_decide_eq_true. unfold FindKnob in Hi.
      destruct (FindKnobIn key (mHeader g)) eqn:Hf; [|discriminate].
      destruct (decide (key ∈ mData <$> mHeader g)) as [Hin|Hnin]; [exact Hin|].
      apply FindKnobIn_None in Hnin. congruence. }
    rewrite Hfind, Hnum, Hadd, Hrem. repeat split; reflexivity.
  - split; [reflexivity|]. split.
    { symmetry. apply bool_decide_eq_false. apply FindKnobIn_None, Hi. }
    repeat split; reflexivity.
Qed.

Lemma FindElemIn_lookup (data : E) (elems : list E) :
  FindElemIn data elems = true <->
  exists idx, idx < length elems /\ elems !! idx = Some data.
Proof.
  rewrite FindElemIn_true, list_elem_of_lookup. split.
  - intros [idx Hidx]. exists idx. split; [|exact Hidx].
    eapply lookup_lt_Some, Hidx.
  - intros (idx & _ & Hidx). exists idx. exact Hidx.
Qed.

(** X9. Walking a chain by index, as the users of the container do with
    [PairedNumOfElem] and [PairedGetElemAtIndex]: the indices below the
    count give exactly the elements that [FindElem] finds, and an index
    from the count on gives no element (the C++ returns an
    uninitialised value). *)
Theorem Paired_walk_by_index (key : K) (g : t) :
  let g1 := PairedFindOrCreateKnob key g in
  (forall d, FindElem key d g = true <->
             exists idx, idx < NumOfElem key g /\
                         PairedGetElemAtIndex idx g1 = Ok (Some d)) /\
  (forall idx, PairedGetElemAtIndex idx g1 = Ok None <->
               NumOfElem key g <= idx).
Proof.
  intros g1. pose proof (paired_FindOrCreateKnob key g) as Hp. fold g1 in Hp.
  destruct (paired_reads key g1 Hp) as (_ & _ & _ & Hget).
  assert (Hel : ElemsOf key g1 = ElemsOf key g)
    by apply ElemsOf_PairedFindOrCreateKnob.
  split.
  - intros d. rewrite FindElem_ElemsOf, NumOfElem_ElemsOf, FindElemIn_lookup.
    split; intros (idx & Hlt & Hidx); exists idx; (split; [exact Hlt|]).
    + rewrite Hget, Hel, Hidx. reflexivity.
    + rewrite Hget, Hel in Hidx. congruence.
  - intros idx. rewrite Hget, Hel, NumOfElem_ElemsOf. split.
    + intros [= Hnone]. apply lookup_ge_None, Hnone.
    + intros Hge. apply lookup_ge_None in Hge. rewrite Hge. reflexivity.
Qed.

End Container.

Lemma AddElem_idempotent_witness :
  FindElem 7 30 sample = true /\ AddElem 7 30 sample = sample /\
  NumOfElem 7 (AddElem 7 30 sample) = 2.
Proof.
  split; [reflexivity|].
  split; [|reflexivity].
  apply (proj1 (AddElem_idempotent 7 30 sample)). reflexivity.
Defined.

Lemma FindElem_after_RemoveElem_witness :
  elems_nodup sample /\ FindElem 7 30 (RemoveElem 7 30 sample) = false /\
  FindElem 7 31 (RemoveElem 7 30 sample) = true.
Proof.
  assert (Hnd : elems_nodup sample)
    by (unfold elems_nodup; apply (bool_decide_unpack _); vm_compute; exact I).
  split; [exact Hnd|].
  split; rewrite (FindElem_after_RemoveElem _ _ _ _ sample Hnd); reflexivity.
Defined.

Lemma no_duplication_kept_witness :
  knobs_nodup sample /\ elems_nodup sample /\
  knobs_nodup (AddElem 9 1 sample) /\ elems_nodup (RemoveElem 7 31 sample).
Proof.
  assert (Hk : knobs_nodup sample)
    by (unfold knobs_nodup; apply (bool_decide_unpack _); vm_compute; exact I).
  assert (He : elems_nodup sample)
    by (unfold elems_nodup; apply (bool_decide_unpack _); vm_compute; exact I).
  split; [exact Hk|]. split; [exact He|].
  split.
  - apply (no_duplication_kept 9 1 sample Hk He).
  - apply (no_duplication_kept 7 31 sample Hk He).
Defined.

End GuamianFacts.

(** ** RecDetector *)

Module RecDetectorFacts.
Import RecDetector.

Section Detect.

Variable tables : Tables.
Variable RuleFindChild : N -> N -> option N.

Local Abbreviation path_positions := (path_positions RuleFindChild).
Local Abbreviation AddRecursion := (AddRecursion RuleFindChild).
Local Abbreviation DetectRuleTable := (DetectRuleTable tables RuleFindChild).
Local Abbreviation unvisited := (unvisited tables).

(** *** What a call leaves of the stack and of the done vector *)

Lemma preserved_refl (s : t) : preserved s s.
Proof.
  split; [reflexivity|]. split; [|tauto].
  exists []. rewrite app_nil_r. reflexivity.
Qed.

Lemma preserved_trans (s1 s2 s3 : t) :
  preserved s1 s2 -> preserved s2 s3 -> preserved s1 s3.
Proof.
  intros (Hp12 & (n12 & Hd12) & Hn12) (Hp23 & (n23 & Hd23) & Hn23).
  split; [congruence|]. split; [|tauto].
  exists (n12 ++ n23). rewrite Hd23, Hd12, app_assoc. reflexivity.
Qed.

Lemma contains_spec (l : list N) (rt : N) : contains l rt = true <-> rt ∈ l.
Proof.
  induction l as [|x l IH]; cbn.
  - split; [discriminate | intros Hin; inversion Hin].
  - destruct (N.eqb_spec rt x) as [->|Hne].
    + split; [intros _; left | reflexivity].
    + rewrite IH, elem_of_cons. split; [tauto|].
      intros [Heq|Hin]; [congruence | exact Hin].
Qed.

Lemma AddRule2Recursion_fields (rule : N) (rec : nat) (s : t) :
  mInProcess (AddRule2Recursion rule rec s) = mInProcess s /\
  mDone (AddRule2Recursion rule rec s) = mDone s /\
  mTree (AddRule2Recursion rule rec s) = mTree s.
Proof.
  unfold AddRule2Recursion.
  destruct (find_rule2recursion rule (mRule2Recursions s));
    repeat split; reflexivity.
Qed.

Lemma AddRule2Recursion_all_fields (rec : nat) (rules : list N) (s : t) :
  mInProcess (foldl (fun st rule => AddRule2Recursion rule rec st) s rules)
    = mInProcess s /\
  mDone (foldl (fun st rule => AddRule2Recursion rule rec st) s rules)
    = mDone s /\
  mTree (foldl (fun st rule => AddRule2Recursion rule rec st) s rules)
    = mTree s.
Proof.
  revert s. induction rules as [|rule rules IH]; intros s;
    [repeat split; reflexivity|].
  cbn [foldl]. destruct (IH (AddRule2Recursion rule rec s)) as (-> & -> & ->).
  apply AddRule2Recursion_fields.
Qed.

(** Recording a recursion touches neither the stack, nor the done vector,
    nor the tree. *)
Lemma AddRecursion_preserved (rt : N) (p : option nat) (s s' : t) :
  AddRecursion rt p s = Ok s' ->
  mInProcess s' = mInProcess s /\ mDone s' = mDone s /\ mTree s' = mTree s.
Proof.
  unfold AddRecursion. intros Hadd. rsplit Hadd. destruct a as [target node_list].
  rsplit Hadd. unfold FindOrCreateRecursion in Hadd.
  destruct (find_recursion rt (mRecursions s)); injection Hadd as <-;
    rewrite (proj1 (AddRule2Recursion_all_fields _ _ _)),
            (proj1 (proj2 (AddRule2Recursion_all_fields _ _ _))),
            (proj2 (proj2 (AddRule2Recursion_all_fields _ _ _)));
    repeat split; reflexivity.
Qed.

Section Loops.

Variable detect : N -> option nat -> t -> Result t.
Hypothesis detect_preserved :
  forall rt p s s', detect rt p s = Ok s' -> preserved s s'.

Lemma DetectOneof_slots_preserved (slots : list TableData.t) (p : option nat) :
  forall s s', DetectOneof_slots detect slots p s = Ok s' -> preserved s s'.
Proof.
  induction slots as [|data rest IH]; intros s s' Hloop.
  - injection Hloop as <-. apply preserved_refl.
  - cbn [DetectOneof_slots] in Hloop. rsplit Hloop.
    apply (preserved_trans _ a); [|apply IH; exact Hloop].
    destruct (decide (TableData.mType data = DT_Subtable)).
    + eapply detect_preserved. exact Hstep.
    + injection Hstep as <-. apply preserved_refl.
Qed.

Lemma DetectZeroormore_preserved (rule_table : RuleTable.t) (p : option nat)
    (s s' : t) :
  DetectZeroormore detect rule_table p s = Ok s' -> preserved s s'.
Proof.
  unfold DetectZeroormore. intros Hcall. rsplit Hcall.
  destruct (decide (TableData.mType a0 = DT_Subtable)).
  - eapply detect_preserved. exact Hcall.
  - injection Hcall as <-. apply preserved_refl.
Qed.

Lemma DetectConcatenate_slots_preserved (slots : list TableData.t)
    (p : option nat) :
  forall s s', DetectConcatenate_slots detect slots p s = Ok s' ->
               preserved s s'.
Proof.
  induction slots as [|data rest IH]; intros s s' Hloop.
  - injection Hloop as <-. apply preserved_refl.
  - cbn [DetectConcatenate_slots] in Hloop. rsplit Hloop.
    apply (preserved_trans _ a); [|apply IH; exact Hloop].
    destruct (decide (TableData.mType data = DT_Subtable)).
    + destruct (IsInProcess (TableData.mEntry data) s).
      * injection Hstep as <-. apply preserved_refl.
      * eapply detect_preserved. exact Hstep.
    + injection Hstep as <-. apply preserved_refl.
Qed.

Lemma DetectConcatenate_preserved (rule_table : RuleTable.t) (p : option nat)
    (s s' : t) :
  DetectConcatenate detect rule_table p s = Ok s' -> preserved s s'.
Proof.
  unfold DetectConcatenate. intros Hcall. rsplit Hcall.
  apply (preserved_trans _ a0);
    [|eapply DetectConcatenate_slots_preserved; exact Hcall].
  destruct (decide (TableData.mType a = DT_Subtable)).
  - eapply detect_preserved. exact Hstep0.
  - injection Hstep0 as <-. apply preserved_refl.
Qed.

End Loops.

(** The steps of a call that is not short-circuited. *)
Lemma DetectRuleTable_full (fuel : nat) (rt : N) (p : option nat) (s s' : t) :
  (forall rt p s s', DetectRuleTable fuel rt p s = Ok s' -> preserved s s') ->
  IsDone rt s = false -> IsInProcess rt s = false ->
  DetectRuleTable (S fuel) rt p s = Ok s' ->
  exists newly,
    mInProcess s' = mInProcess s /\
    mDone s' = mDone s ++ newly ++ [rt] /\
    (rt ∉ mDone s ++ newly) /\
    (NoDup (mDone s) -> NoDup (mDone s ++ newly)).
Proof.
  intros IH Hdone Hproc Hcall. cbn [DetectRuleTable] in Hcall.
  rewrite Hdone, Hproc in Hcall. cbn [NewNode] in Hcall. rsplit Hcall.
  rename a into rule_table, a0 into s3, a2 into back.
  injection Hcall as <-.
  apply MASSERT_Ok, N.eqb_eq in Hstep3. subst back.
  apply MASSERT_Ok, negb_true_iff in Hstep4.
  assert (Hchildren : preserved
            (with_Tree (mTree s ++ [ContTreeNode.mk rt p])
               (with_InProcess (mInProcess s ++ [rt]) s)) s3).
  { destruct (RuleTable.mType rule_table).
    - eapply DetectOneof_slots_preserved; [exact IH | exact Hstep0].
    - eapply DetectZeroormore_preserved; [exact IH | exact Hstep0].
    - eapply DetectZeroormore_preserved; [exact IH | exact Hstep0].
    - eapply DetectConcatenate_preserved; [exact IH | exact Hstep0].
    - eapply DetectZeroormore_preserved; [exact IH | exact Hstep0].
    - injection Hstep0 as <-. apply preserved_refl. }
  destruct Hchildren as (Hstack & (newly & Hnewly) & Hnodup).
  cbn [mInProcess mDone with_Tree with_InProcess with_Done] in *.
  exists newly. rewrite Hstack, removelast_last, Hnewly.
  split; [reflexivity|]. split; [rewrite app_assoc; reflexivity|].
  unfold IsDone in Hstep4. cbn [mDone with_InProcess] in Hstep4.
  rewrite Hnewly in Hstep4. split.
  - intros Hin. apply contains_spec in Hin. congruence.
  - intros Hnd. rewrite <- Hnewly. apply Hnodup, Hnd.
Qed.

Lemma DetectRuleTable_preserved (fuel : nat) :
  forall rt p s s', DetectRuleTable fuel rt p s = Ok s' -> preserved s s'.
Proof.
  induction fuel as [|fuel IH]; intros rt p s s' Hcall; [discriminate|].
  destruct (IsDone rt s) eqn:Hdone.
  { cbn [DetectRuleTable] in Hcall. rewrite Hdone in Hcall.
    injection Hcall as <-. apply preserved_refl. }
  destruct (IsInProcess rt s) eqn:Hproc.
  { cbn [DetectRuleTable] in Hcall. rewrite Hdone, Hproc in Hcall.
    apply AddRecursion_preserved in Hcall as (Hstack & Hsame & _).
    split; [exact Hstack|]. split; [|rewrite Hsame; tauto].
    exists []. rewrite app_nil_r. exact Hsame. }
  destruct (DetectRuleTable_full _ _ _ _ _ IH Hdone Hproc Hcall)
    as (newly & Hstack & Hnewly & Hfresh & Hnodup).
  split; [exact Hstack|]. split; [eauto|].
  intros Hnd. rewrite Hnewly, app_assoc. apply NoDup_app.
  split; [apply Hnodup, Hnd|]. split; [|apply NoDup_singleton].
  intros x Hx Hx'. apply list_elem_of_singleton in Hx'. subst x. contradiction.
Qed.

(** C10. A call of DetectRuleTable that returns leaves the in-process
    stack as it found it, only adds to the done vector, and never makes it
    hold a table twice.  If the call was not short-circuited (its table
    was neither done nor in process) the table is done and off the stack
    when it returns.  And in every later state of the detection, that is
    one whose done vector extends the one the call left, a call on a table
    that was done returns at once with the state untouched, without a
    look at the table's children. *)
Theorem DetectRuleTable_once (fuel : nat) (rt : N) (p : option nat) (s s' : t) :
  DetectRuleTable fuel rt p s = Ok s' ->
  mInProcess s' = mInProcess s /\
  (exists newly, mDone s' = mDone s ++ newly) /\
  (NoDup (mDone s) -> NoDup (mDone s')) /\
  (IsDone rt s = false -> IsInProcess rt s = false ->
   IsDone rt s' = true /\ IsInProcess rt s' = false) /\
  (forall later more fuel' p',
     IsDone rt s' = true -> mDone later = mDone s' ++ more ->
     DetectRuleTable (S fuel') rt p' later = Ok later).
Proof.
  intros Hcall.
  destruct (DetectRuleTable_preserved _ _ _ _ _ Hcall) as (Hstack & Hgrow & Hnd).
  split; [exact Hstack|]. split; [exact Hgrow|]. split; [exact Hnd|]. split.
  - intros Hdone Hproc. destruct fuel as [|fuel]; [discriminate|].
    destruct (DetectRuleTable_full _ _ _ _ _
                (DetectRuleTable_preserved fuel) Hdone Hproc Hcall)
      as (newly & Hstack' & Hnewly & _ & _).
    unfold IsDone, IsInProcess in *. rewrite Hstack', Hnewly. split; [|exact Hproc].
    apply contains_spec. rewrite !elem_of_app, list_elem_of_singleton. auto.
  - intros later more fuel' p' Hdone Hlater. cbn [DetectRuleTable].
    assert (IsDone rt later = true) as ->; [|reflexivity].
    unfold IsDone in *. apply contains_spec. rewrite Hlater.
    apply elem_of_app. left. apply contains_spec. exact Hdone.
Qed.

(** *** The step budget is not what stops a detection

    With a budget above the number of rule tables a call either returns
    or is stopped by an assertion or a bad pointer: every call that is not
    short-circuited puts one more table on the stack. *)

Lemma filter_length_le {A : Type} (P Q : A -> Prop)
    `{forall x, Decision (P x)} `{forall x, Decision (Q x)} (l : list A) :
  (forall y, Q y -> P y) ->
  (length (filter Q l) <= length (filter P l))%nat.
Proof.
  intros HQP. induction l as [|y l IH]; [reflexivity|].
  rewrite !filter_cons. destruct (decide (Q y)) as [HQ|HQ].
  - rewrite decide_True by auto. cbn. lia.
  - destruct (decide (P y)); cbn; lia.
Qed.

Lemma filter_length_lt {A : Type} (P Q : A -> Prop)
    `{forall x, Decision (P x)} `{forall x, Decision (Q x)} (l : list A)
    (x : A) :
  (forall y, Q y -> P y) -> x ∈ l -> P x -> ~ Q x ->
  (length (filter Q l) < length (filter P l))%nat.
Proof.
  intros HQP Hin HP HQ. induction l as [|y l IH]; [inversion Hin|].
  rewrite !filter_cons. apply elem_of_cons in Hin as [<-|Hin].
  - rewrite decide_False, decide_True by assumption. cbn.
    pose proof (filter_length_le P Q l HQP). lia.
  - specialize (IH Hin). destruct (decide (Q y)) as [HQy|HQy].
    + rewrite decide_True by auto. cbn. lia.
    + destruct (decide (P y)); cbn; lia.
Qed.

Lemma contains_app (l1 l2 : list N) (rt : N) :
  contains (l1 ++ l2) rt = contains l1 rt || contains l2 rt.
Proof.
  induction l1 as [|x l1 IH]; [reflexivity|].
  cbn. destruct (rt =? x)%N; [reflexivity | exact IH].
Qed.

Lemma unvisited_push (stack : list N) (rt : N) (rule_table : RuleTable.t) :
  table_at tables rt = Some rule_table -> contains stack rt = false ->
  (unvisited (stack ++ [rt]) < unvisited stack)%nat.
Proof.
  intros Hrt Hnew. unfold unvisited.
  apply (filter_length_lt _ _ _ (N.to_nat rt)).
  - intros i. rewrite contains_app. intros Hi.
    apply orb_false_iff in Hi. tauto.
  - apply elem_of_seq. apply lookup_lt_Some in Hrt. lia.
  - rewrite N2Nat.id. exact Hnew.
  - rewrite N2Nat.id, contains_app. cbn. rewrite N.eqb_refl, orb_true_r.
    discriminate.
Qed.

Lemma fine_bind {A : Type} (p : option nat) (r : Result A)
    (k : A -> Result t) :
  r <> Fail NoFuel -> (forall a, r = Ok a -> fine p (k a)) -> fine p (r ≫= k).
Proof.
  intros Hr Hk. destruct r as [a|f]; cbn.
  - apply Hk. reflexivity.
  - split; [congruence | discriminate].
Qed.

Lemma MASSERT_fuel (b : bool) : MASSERT b <> Fail NoFuel.
Proof. destruct b; discriminate. Qed.

Lemma of_access_fuel {A : Type} (o : option A) : of_access o <> Fail NoFuel.
Proof. destruct o; discriminate. Qed.

Lemma climb_fuel (tree : list ContTreeNode.t) (rt : N) (fuel : nat) :
  tree_wf tree ->
  forall node node_list,
    (forall h, node = Some h -> (h < fuel)%nat) ->
    climb fuel tree rt node node_list <> Fail NoFuel.
Proof.
  intros Hwf. induction fuel as [|fuel IH]; intros node node_list Hnode.
  - destruct node as [h|]; [|discriminate]. specialize (Hnode h eq_refl). lia.
  - destruct node as [h|]; [|discriminate]. cbn [climb].
    destruct (tree !! h) as [n|] eqn:Hn; cbn; [|discriminate].
    destruct (ContTreeNode.mData n =? rt)%N; [discriminate|].
    apply IH. intros q Hq. specialize (Hwf h n q Hn Hq).
    specialize (Hnode h eq_refl). lia.
Qed.

Lemma path_positions_fuel (rules : list N) :
  forall parent_rule, path_positions parent_rule rules <> Fail NoFuel.
Proof.
  induction rules as [|child rest IH]; intros parent_rule; [discriminate|].
  cbn [path_positions]. destruct (RuleFindChild parent_rule child); cbn.
  - specialize (IH child). destruct (path_positions child rest) as [|f]; cbn;
      [discriminate | congruence].
  - discriminate.
Qed.

Lemma bind_fuel {A B : Type} (r : Result A) (k : A -> Result B) :
  r <> Fail NoFuel -> (forall a, r = Ok a -> k a <> Fail NoFuel) ->
  r ≫= k <> Fail NoFuel.
Proof.
  intros Hr Hk. destruct r as [a|f]; cbn; [apply Hk; reflexivity | congruence].
Qed.

Lemma AddRecursion_fine (rt : N) (p : option nat) (s : t) :
  good p s -> fine p (AddRecursion rt p s).
Proof.
  intros [Hwf Hp]. split.
  - unfold AddRecursion.
    apply bind_fuel; [apply climb_fuel; assumption|].
    intros [target node_list] _.
    apply bind_fuel; [apply MASSERT_fuel|]. intros _ _.
    apply bind_fuel; [apply MASSERT_fuel|]. intros _ _.
    apply bind_fuel; [apply path_positions_fuel|]. intros path _.
    destruct (FindOrCreateRecursion rt s). discriminate.
  - intros s' Hadd. apply AddRecursion_preserved in Hadd as (_ & _ & Htree).
    unfold good. rewrite Htree. split; assumption.
Qed.

Section LoopsFuel.

Variable detect : N -> option nat -> t -> Result t.
Variable bound : nat.
Hypothesis detect_preserved :
  forall rt p s s', detect rt p s = Ok s' -> preserved s s'.
Hypothesis detect_fine :
  forall rt p s, good p s -> (unvisited (mInProcess s) < bound)%nat ->
                 fine p (detect rt p s).

Lemma DetectOneof_slots_fine (slots : list TableData.t) (p : option nat) :
  forall s, good p s -> (unvisited (mInProcess s) < bound)%nat ->
            fine p (DetectOneof_slots detect slots p s).
Proof.
  induction slots as [|data rest IH]; intros s Hgood Hbound.
  - split; [discriminate|]. intros s' [= <-]. exact Hgood.
  - cbn [DetectOneof_slots].
    destruct (decide (TableData.mType data = DT_Subtable)).
    + destruct (detect_fine (TableData.mEntry data) p s Hgood Hbound)
        as [Hfuel Hok].
      apply fine_bind; [exact Hfuel|]. intros s1 Hs1. apply IH; [auto|].
      destruct (detect_preserved _ _ _ _ Hs1) as [-> _]. exact Hbound.
    + cbn. apply IH; assumption.
Qed.

Lemma DetectZeroormore_fine (rule_table : RuleTable.t) (p : option nat) (s : t) :
  good p s -> (unvisited (mInProcess s) < bound)%nat ->
  fine p (DetectZeroormore detect rule_table p s).
Proof.
  intros Hgood Hbound. unfold DetectZeroormore.
  apply fine_bind; [apply MASSERT_fuel|]. intros _ _.
  apply fine_bind; [apply of_access_fuel|]. intros data _.
  destruct (decide (TableData.mType data = DT_Subtable)).
  - apply detect_fine; assumption.
  - split; [discriminate|]. intros s' [= <-]. exact Hgood.
Qed.

Lemma DetectConcatenate_slots_fine (slots : list TableData.t) (p : option nat) :
  forall s, good p s -> (unvisited (mInProcess s) < bound)%nat ->
            fine p (DetectConcatenate_slots detect slots p s).
Proof.
  induction slots as [|data rest IH]; intros s Hgood Hbound.
  - split; [discriminate|]. intros s' [= <-]. exact Hgood.
  - cbn [DetectConcatenate_slots].
    destruct (decide (TableData.mType data = DT_Subtable));
      [destruct (IsInProcess (TableData.mEntry data) s)|];
      try (cbn; apply IH; assumption).
    destruct (detect_fine (TableData.mEntry data) p s Hgood Hbound)
      as [Hfuel Hok].
    apply fine_bind; [exact Hfuel|]. intros s1 Hs1. apply IH; [auto|].
    destruct (detect_preserved _ _ _ _ Hs1) as [-> _]. exact Hbound.
Qed.

Lemma DetectConcatenate_fine (rule_table : RuleTable.t) (p : option nat) (s : t) :
  good p s -> (unvisited (mInProcess s) < bound)%nat ->
  fine p (DetectConcatenate detect rule_table p s).
Proof.
  intros Hgood Hbound. unfold DetectConcatenate.
  apply fine_bind; [apply of_access_fuel|]. intros data _.
  destruct (decide (TableData.mType data = DT_Subtable)).
  - destruct (detect_fine (TableData.mEntry data) p s Hgood Hbound)
      as [Hfuel Hok].
    apply fine_bind; [exact Hfuel|]. intros s1 Hs1.
    apply DetectConcatenate_slots_fine; [auto|].
    destruct (detect_preserved _ _ _ _ Hs1) as [-> _]. exact Hbound.
  - cbn. apply DetectConcatenate_slots_fine; assumption.
Qed.

End LoopsFuel.

Lemma DetectRuleTable_fine (fuel : nat) :
  forall rt p s, good p s -> (unvisited (mInProcess s) < fuel)%nat ->
                 fine p (DetectRuleTable fuel rt p s).
Proof.
  induction fuel as [|fuel IH]; intros rt p s Hgood Hbound; [lia|].
  cbn [DetectRuleTable].
  destruct (IsDone rt s) eqn:Hdone.
  { split; [discriminate|]. intros s' [= <-]. exact Hgood. }
  destruct (IsInProcess rt s) eqn:Hproc.
  { apply AddRecursion_fine. exact Hgood. }
  cbn [NewNode]. apply fine_bind; [apply of_access_fuel|].
  intros rule_table Hrt. apply of_access_Ok in Hrt.
  set (s2 := with_Tree (mTree s ++ [ContTreeNode.mk rt p])
               (with_InProcess (mInProcess s ++ [rt]) s)).
  set (node := length (mTree s)).
  destruct Hgood as [Hwf Hp].
  assert (Hgood2 : good (Some node) s2).
  { split; cbn.
    - intros i n q Hi Hq. apply lookup_app_Some in Hi as [Hi|[Hlen Hi]].
      + eapply Hwf; eassumption.
      + apply list_lookup_singleton_Some in Hi as [Hi0 <-]. cbn in Hq.
        specialize (Hp q Hq). lia.
    - intros h [= <-]. rewrite length_app. cbn. subst node. lia. }
  assert (Hbound2 : (unvisited (mInProcess s2) < fuel)%nat).
  { cbn. pose proof (unvisited_push (mInProcess s) rt rule_table Hrt Hproc).
    lia. }
  assert (Hchildren : fine (Some node)
            match RuleTable.mType rule_table with
            | ET_Oneof =>
                DetectOneof (DetectRuleTable fuel) rule_table (Some node) s2
            | ET_Concatenate =>
                DetectConcatenate (DetectRuleTable fuel) rule_table (Some node) s2
            | ET_Null => Ok s2
            | _ => DetectZeroormore (DetectRuleTable fuel) rule_table
                     (Some node) s2
            end).
  { destruct (RuleTable.mType rule_table).
    - eapply DetectOneof_slots_fine; eauto using DetectRuleTable_preserved.
    - eapply DetectZeroormore_fine; eauto using DetectRuleTable_preserved.
    - eapply DetectZeroormore_fine; eauto using DetectRuleTable_preserved.
    - eapply DetectConcatenate_fine; eauto using DetectRuleTable_preserved.
    - eapply DetectZeroormore_fine; eauto using DetectRuleTable_preserved.
    - split; [discriminate|]. intros s' [= <-]. exact Hgood2. }
  destruct Hchildren as [Hfuel Hok].
  apply fine_bind; [exact Hfuel|]. intros s3 Hs3.
  destruct (Hok s3 Hs3) as [Hwf3 Hnode3]. specialize (Hnode3 node eq_refl).
  apply fine_bind; [apply MASSERT_fuel|]. intros _ _.
  apply fine_bind; [apply of_access_fuel|]. intros back _.
  apply fine_bind; [apply MASSERT_fuel|]. intros _ _.
  apply fine_bind; [apply MASSERT_fuel|]. intros _ _.
  split; [discriminate|]. intros s' [= <-]. split; cbn; [exact Hwf3|].
  intros h Hh. specialize (Hp h Hh). subst node. lia.
Qed.

(** A detection from a top table, with a budget above the number of rule
    tables, is never stopped by the budget. *)
Lemma DetectRuleTable_budget (rt : N) (s : t) :
  DetectRuleTable (S (length tables)) rt None
    (with_Tree [] (with_InProcess [] s)) <> Fail NoFuel.
Proof.
  apply (DetectRuleTable_fine (S (length tables)) rt None).
  - split; cbn; [|discriminate]. intros i n q Hi. inversion Hi.
  - unfold unvisited.
    eapply Nat.le_lt_trans; [apply length_filter|]. rewrite length_seq. lia.
Qed.

(** *** What a detection records *)

Local Abbreviation RuleFindChild_sound := (RuleFindChild_sound tables RuleFindChild).
Local Abbreviation paths_are_cycles := (paths_are_cycles tables).
Local Abbreviation on_path := (on_path tables).
Local Abbreviation mapping_exact := (mapping_exact tables).
Local Abbreviation subtable_children := (subtable_children tables).
Local Abbreviation done_closed := (done_closed tables).
Local Abbreviation Detect_tops := (Detect_tops tables RuleFindChild).
Local Abbreviation Detect := (Detect tables RuleFindChild).

Lemma climb_extends (fuel : nat) (tree : list ContTreeNode.t) (rt : N) :
  forall node node_list target node_list',
    climb fuel tree rt node node_list = Ok (target, node_list') ->
    exists more, node_list' = node_list ++ more.
Proof.
  induction fuel as [|fuel IH]; intros node node_list target node_list' Hclimb.
  - destruct node; [discriminate|]. injection Hclimb as <- <-.
    exists []. rewrite app_nil_r. reflexivity.
  - destruct node as [h|].
    + cbn [climb] in Hclimb. rsplit Hclimb.
      destruct (ContTreeNode.mData a =? rt)%N.
      * injection Hclimb as <- <-. exists []. rewrite app_nil_r. reflexivity.
      * apply IH in Hclimb as [more ->]. rewrite <- app_assoc. eauto.
    + injection Hclimb as <- <-. exists []. rewrite app_nil_r. reflexivity.
Qed.

(** The rules that the positions of a path lead to, one after the other. *)
Lemma path_positions_follow (rules : list N) :
  RuleFindChild_sound ->
  forall parent_rule path,
    path_positions parent_rule rules = Ok path ->
    length path = length rules /\
    forall n, follow tables parent_rule (take n path)
              = Some (default parent_rule (last (take n rules))).
Proof.
  intros Hsound. induction rules as [|child rest IH]; intros parent_rule path Hpath.
  - injection Hpath as <-. split; [reflexivity|]. intros n.
    rewrite !take_nil. reflexivity.
  - cbn [path_positions] in Hpath. rsplit Hpath.
    destruct (RuleFindChild parent_rule child) as [index|] eqn:Hchild;
      [|discriminate].
    injection Hstep as <-. injection Hpath as <-.
    destruct (IH _ _ Hstep0) as [Hlen Hfollow].
    split; [simpl; rewrite Hlen; reflexivity|].
    intros [|n]; [reflexivity|].
    pose proof (Hsound _ _ _ Hchild) as Hslot.
    cbn [take]. cbn [follow] in Hslot |- *.
    destruct (table_at tables parent_rule) as [rule_table|]; [|discriminate].
    destruct (RuleTable.mData rule_table !! N.to_nat index) as [d|]; [|discriminate].
    destruct (decide (TableData.mType d = DT_Subtable)); [|discriminate].
    injection Hslot as ->. rewrite Hfollow.
    destruct (take n rest) as [|x l] eqn:Htake; [reflexivity|].
    rewrite (last_cons_cons child x l). simpl.
    destruct (last (x :: l)) eqn:Hlast; [reflexivity|].
    apply last_None in Hlast. discriminate.
Qed.

Lemma find_recursion_Some (rule : N) (recs : list Recursion.t) (i : nat) :
  find_recursion rule recs = Some i ->
  exists rec, recs !! i = Some rec /\ Recursion.mRuleTable rec = rule.
Proof.
  revert i. induction recs as [|rec rest IH]; intros i; cbn; [discriminate|].
  destruct (N.eqb_spec (Recursion.mRuleTable rec) rule) as [Heq|Hne].
  - intros [= <-]. exists rec. split; [reflexivity | exact Heq].
  - destruct (find_recursion rule rest) as [j|]; cbn; [|discriminate].
    intros [= <-]. apply IH. reflexivity.
Qed.

Lemma find_recursion_None (rule : N) (recs : list Recursion.t) :
  find_recursion rule recs = None ->
  rule ∉ (Recursion.mRuleTable <$> recs).
Proof.
  induction recs as [|rec rest IH]; cbn; [intros _ Hin; inversion Hin|].
  destruct (N.eqb_spec (Recursion.mRuleTable rec) rule) as [Heq|Hne];
    [discriminate|].
  destruct (find_recursion rule rest) as [j|]; cbn; [discriminate|].
  intros _. apply not_elem_of_cons. split; [congruence | apply IH; reflexivity].
Qed.

Lemma find_rule2recursion_Some (rule : N) (maps : list Rule2Recursion.t)
    (i : nat) :
  find_rule2recursion rule maps = Some i ->
  exists r2r, maps !! i = Some r2r /\ Rule2Recursion.mRule r2r = rule.
Proof.
  revert i. induction maps as [|r2r rest IH]; intros i; cbn; [discriminate|].
  destruct (N.eqb_spec rule (Rule2Recursion.mRule r2r)) as [Heq|Hne].
  - intros [= <-]. exists r2r. split; [reflexivity | congruence].
  - destruct (find_rule2recursion rule rest) as [j|]; cbn; [|discriminate].
    intros [= <-]. apply IH. reflexivity.
Qed.

Lemma find_rule2recursion_None (rule : N) (maps : list Rule2Recursion.t) :
  find_rule2recursion rule maps = None ->
  rule ∉ (Rule2Recursion.mRule <$> maps).
Proof.
  induction maps as [|r2r rest IH]; cbn; [intros _ Hin; inversion Hin|].
  destruct (N.eqb_spec rule (Rule2Recursion.mRule r2r)) as [Heq|Hne];
    [discriminate|].
  destruct (find_rule2recursion rule rest) as [j|]; cbn; [discriminate|].
  intros _. apply not_elem_of_cons. split; [congruence | apply IH; reflexivity].
Qed.

Lemma add_recursion_once_elem (rec x : nat) (recs : list nat) :
  x ∈ add_recursion_once rec recs <-> x ∈ recs \/ x = rec.
Proof.
  unfold add_recursion_once. destruct (bool_decide (rec ∈ recs)) eqn:Hin.
  - apply bool_decide_eq_true in Hin. split; [auto|].
    intros [Hx| ->]; assumption.
  - rewrite elem_of_app, list_elem_of_singleton. reflexivity.
Qed.

Lemma add_recursion_once_NoDup (rec : nat) (recs : list nat) :
  NoDup recs -> NoDup (add_recursion_once rec recs).
Proof.
  unfold add_recursion_once. intros Hnd.
  destruct (bool_decide (rec ∈ recs)) eqn:Hin; [exact Hnd|].
  apply bool_decide_eq_false in Hin. apply NoDup_app.
  split; [exact Hnd|]. split; [|apply NoDup_singleton].
  intros x Hx Hx'. apply list_elem_of_singleton in Hx'. congruence.
Qed.

(** The entry that AddRule2Recursion writes, and the entries it leaves. *)
Lemma AddRule2Recursion_maps (rule : N) (rec : nat) (s : t) :
  mRecursions (AddRule2Recursion rule rec s) = mRecursions s /\
  exists maps1 i r2r,
    (maps1 = mRule2Recursions s \/
     ((rule ∉ (Rule2Recursion.mRule <$> mRule2Recursions s)) /\
      maps1 = mRule2Recursions s ++ [Rule2Recursion.mk rule []])) /\
    maps1 !! i = Some r2r /\ Rule2Recursion.mRule r2r = rule /\
    mRule2Recursions (AddRule2Recursion rule rec s)
      = <[i := Rule2Recursion.mk rule
                 (add_recursion_once rec (Rule2Recursion.mRecursions r2r))]>
          maps1.
Proof.
  unfold AddRule2Recursion.
  destruct (find_rule2recursion rule (mRule2Recursions s)) as [i|] eqn:Hfind.
  - split; [reflexivity|].
    destruct (find_rule2recursion_Some _ _ _ Hfind) as (r2r & Hi & Hrule).
    exists (mRule2Recursions s), i, r2r.
    split; [left; reflexivity|]. split; [exact Hi|]. split; [exact Hrule|].
    cbn. apply list_eq. intros j. destruct (decide (i = j)) as [<-|Hne].
    + rewrite list_lookup_alter_eq, list_lookup_insert_eq
        by (eapply lookup_lt_Some; exact Hi).
      rewrite Hi, <- Hrule. reflexivity.
    + rewrite list_lookup_alter_ne, list_lookup_insert_ne by exact Hne.
      reflexivity.
  - split; [reflexivity|].
    exists (mRule2Recursions s ++ [Rule2Recursion.mk rule []]),
           (length (mRule2Recursions s)), (Rule2Recursion.mk rule []).
    split; [right; split; [apply find_rule2recursion_None, Hfind | reflexivity]|].
    split; [apply list_lookup_middle; reflexivity|]. split; [reflexivity|].
    cbn. apply list_eq. intros j.
    destruct (decide (length (mRule2Recursions s) = j)) as [<-|Hne].
    + rewrite list_lookup_alter_eq, list_lookup_insert_eq
        by (rewrite length_app; simpl; lia).
      rewrite list_lookup_middle by reflexivity. reflexivity.
    + rewrite list_lookup_alter_ne, list_lookup_insert_ne by exact Hne.
      reflexivity.
Qed.

Lemma AddRule2Recursion_mapped (rule rule' : N) (rec rec' : nat) (s : t) :
  mapped rule' rec' (AddRule2Recursion rule rec s) <->
  mapped rule' rec' s \/ (rule' = rule /\ rec' = rec).
Proof.
  unfold mapped.
  destruct (AddRule2Recursion_maps rule rec s)
    as (_ & maps1 & i & r2r & Hmaps1 & Hi & Hrule & ->).
  assert (Hold : forall x, x ∈ maps1 <->
            x ∈ mRule2Recursions s \/
            (x = Rule2Recursion.mk rule [] /\ maps1 <> mRule2Recursions s)).
  { intros x. destruct Hmaps1 as [->|[_ ->]].
    - split; [auto|]. intros [Hx|[_ Hne]]; [exact Hx | congruence].
    - rewrite elem_of_app, list_elem_of_singleton. split.
      + intros [Hx| ->]; [auto|]. right. split; [reflexivity|].
        intros Heq. apply (f_equal length) in Heq.
        rewrite length_app in Heq. simpl in Heq. lia.
      + intros [Hx|[-> _]]; auto. }
  split.
  - intros (x & Hx & Hxrule & Hxrec).
    apply list_elem_of_lookup in Hx as [j Hj].
    destruct (decide (i = j)) as [<-|Hne].
    + rewrite list_lookup_insert_eq in Hj by (eapply lookup_lt_Some; exact Hi).
      injection Hj as <-. cbn in Hxrule, Hxrec. subst rule'.
      apply add_recursion_once_elem in Hxrec as [Hin| ->]; [|auto].
      left. exists r2r.
      assert (Hr : r2r ∈ maps1) by (eapply list_elem_of_lookup_2; exact Hi).
      apply Hold in Hr as [Hr|[-> _]]; [|inversion Hin].
      split; [exact Hr|]. split; [exact Hrule | exact Hin].
    + rewrite list_lookup_insert_ne in Hj by exact Hne.
      assert (Hr : x ∈ maps1) by (eapply list_elem_of_lookup_2; exact Hj).
      apply Hold in Hr as [Hr|[-> _]]; [|inversion Hxrec].
      left. exists x. split; [exact Hr|]. split; assumption.
  - intros [(x & Hx & Hxrule & Hxrec)|[-> ->]].
    + assert (Hx1 : x ∈ maps1) by (apply Hold; left; exact Hx).
      apply list_elem_of_lookup in Hx1 as [j Hj].
      destruct (decide (i = j)) as [<-|Hne].
      * exists (Rule2Recursion.mk rule
                  (add_recursion_once rec (Rule2Recursion.mRecursions r2r))).
        split; [|split].
        -- eapply list_elem_of_lookup_2. apply list_lookup_insert_eq.
           eapply lookup_lt_Some; exact Hi.
        -- cbn. congruence.
        -- cbn. apply add_recursion_once_elem. left. congruence.
      * exists x. split; [|split; assumption].
        eapply list_elem_of_lookup_2.
        rewrite list_lookup_insert_ne by exact Hne. exact Hj.
    + exists (Rule2Recursion.mk rule
                (add_recursion_once rec (Rule2Recursion.mRecursions r2r))).
      split; [|split].
      * eapply list_elem_of_lookup_2. apply list_lookup_insert_eq.
        eapply lookup_lt_Some; exact Hi.
      * reflexivity.
      * cbn. apply add_recursion_once_elem. right. reflexivity.
Qed.

Lemma AddRule2Recursion_shape (rule : N) (rec : nat) (s : t) :
  NoDup (Rule2Recursion.mRule <$> mRule2Recursions s) ->
  Forall (fun r2r => NoDup (Rule2Recursion.mRecursions r2r))
         (mRule2Recursions s) ->
  NoDup (Rule2Recursion.mRule
           <$> mRule2Recursions (AddRule2Recursion rule rec s)) /\
  Forall (fun r2r => NoDup (Rule2Recursion.mRecursions r2r))
         (mRule2Recursions (AddRule2Recursion rule rec s)).
Proof.
  intros Hrules Hrecs.
  destruct (AddRule2Recursion_maps rule rec s)
    as (_ & maps1 & i & r2r & Hmaps1 & Hi & Hrule & ->).
  assert (Hrules1 : NoDup (Rule2Recursion.mRule <$> maps1)).
  { destruct Hmaps1 as [->|[Hnew ->]]; [exact Hrules|].
    rewrite fmap_app. apply NoDup_app. split; [exact Hrules|].
    split; [|apply NoDup_singleton].
    intros x Hx Hx'. apply list_elem_of_singleton in Hx'. cbn in Hx'. congruence. }
  assert (Hrecs1 : Forall (fun r2r => NoDup (Rule2Recursion.mRecursions r2r))
                          maps1).
  { destruct Hmaps1 as [->|[_ ->]]; [exact Hrecs|].
    apply Forall_app. split; [exact Hrecs|].
    constructor; [constructor | constructor]. }
  split.
  - rewrite list_fmap_insert. cbn. rewrite <- Hrule.
    rewrite list_insert_id; [exact Hrules1|].
    rewrite list_lookup_fmap, Hi. reflexivity.
  - apply Forall_insert; [exact Hrecs1|]. cbn.
    apply add_recursion_once_NoDup.
    eapply Forall_lookup_1 in Hrecs1; [exact Hrecs1 | exact Hi].
Qed.

Lemma AddRule2Recursion_all (rec : nat) (rules : list N) :
  forall s,
    let s' := foldl (fun st rule => AddRule2Recursion rule rec st) s rules in
    mRecursions s' = mRecursions s /\
    (forall rule' rec', mapped rule' rec' s' <->
                        mapped rule' rec' s \/ (rule' ∈ rules /\ rec' = rec)) /\
    (NoDup (Rule2Recursion.mRule <$> mRule2Recursions s) ->
     Forall (fun r2r => NoDup (Rule2Recursion.mRecursions r2r))
            (mRule2Recursions s) ->
     NoDup (Rule2Recursion.mRule <$> mRule2Recursions s') /\
     Forall (fun r2r => NoDup (Rule2Recursion.mRecursions r2r))
            (mRule2Recursions s')).
Proof.
  induction rules as [|rule rules IH]; intros s; cbn.
  - split; [reflexivity|]. split; [|auto].
    intros rule' rec'. split; [auto|]. intros [Hm|[Hin _]]; [exact Hm|inversion Hin].
  - destruct (IH (AddRule2Recursion rule rec s)) as (Hrecs & Hmapped & Hshape).
    split; [rewrite Hrecs; apply AddRule2Recursion_maps|]. split.
    + intros rule' rec'. rewrite Hmapped, AddRule2Recursion_mapped, elem_of_cons.
      tauto.
    + intros Hnd Hall. destruct (AddRule2Recursion_shape rule rec s Hnd Hall).
      apply Hshape; assumption.
Qed.

Lemma elem_of_rev {A : Type} (l : list A) (x : A) : x ∈ rev l <-> x ∈ l.
Proof. rewrite !list_elem_of_In. symmetry. apply in_rev. Qed.

(** What AddRecursion records: one more path in the recursion of [rt],
    and that recursion under [rt] and under the rules climbed over. *)
Lemma AddRecursion_records (rt : N) (p : option nat) (s s' : t) :
  AddRecursion rt p s = Ok s' ->
  exists more path recs1 rec r,
    path_positions rt (rev more ++ [rt]) = Ok path /\
    (recs1 = mRecursions s \/
     ((rt ∉ (Recursion.mRuleTable <$> mRecursions s)) /\
      recs1 = mRecursions s ++ [Recursion.mk rt []])) /\
    recs1 !! rec = Some r /\ Recursion.mRuleTable r = rt /\
    mRecursions s'
      = <[rec := Recursion.mk rt (Recursion.mPaths r ++ [path])]> recs1 /\
    (forall rule' rec', mapped rule' rec' s' <->
                        mapped rule' rec' s \/ (rule' ∈ rt :: more /\ rec' = rec)) /\
    (NoDup (Rule2Recursion.mRule <$> mRule2Recursions s) ->
     Forall (fun r2r => NoDup (Rule2Recursion.mRecursions r2r))
            (mRule2Recursions s) ->
     NoDup (Rule2Recursion.mRule <$> mRule2Recursions s') /\
     Forall (fun r2r => NoDup (Rule2Recursion.mRecursions r2r))
            (mRule2Recursions s')).
Proof.
  unfold AddRecursion. intros Hadd. rsplit Hadd. destruct a as [target node_list].
  rsplit Hadd. rename a1 into path. clear Hstep0 Hstep1 a a0.
  apply climb_extends in Hstep as [more ->]. cbn [app rev] in *.
  assert (Hfind : exists recs1 rec r,
            FindOrCreateRecursion rt s = (with_Recursions recs1 s, rec) /\
            (recs1 = mRecursions s \/
             ((rt ∉ (Recursion.mRuleTable <$> mRecursions s)) /\
              recs1 = mRecursions s ++ [Recursion.mk rt []])) /\
            recs1 !! rec = Some r /\ Recursion.mRuleTable r = rt).
  { unfold FindOrCreateRecursion.
    destruct (find_recursion rt (mRecursions s)) as [i|] eqn:Hfind.
    - destruct (find_recursion_Some _ _ _ Hfind) as (r & Hi & Hrt).
      exists (mRecursions s), i, r. split; [destruct s; reflexivity|].
      split; [left; reflexivity|]. split; assumption.
    - exists (mRecursions s ++ [Recursion.mk rt []]), (length (mRecursions s)),
             (Recursion.mk rt []).
      split; [reflexivity|].
      split; [right; split; [apply find_recursion_None, Hfind | reflexivity]|].
      split; [apply list_lookup_middle; reflexivity | reflexivity]. }
  destruct Hfind as (recs1 & rec & r & Hfind & Hrecs1 & Hrec & Hrt).
  rewrite Hfind in Hadd. injection Hadd as <-.
  match goal with
  | |- context [foldl _ ?s2 ?rules] =>
      destruct (AddRule2Recursion_all rec rules s2) as (Hrecs & Hmapped & Hshape)
  end.
  exists more, path, recs1, rec, r.
  split; [exact Hstep2|]. split; [exact Hrecs1|]. split; [exact Hrec|].
  split; [exact Hrt|]. split; [|split].
  - rewrite Hrecs. cbn. apply list_eq. intros j.
    destruct (decide (rec = j)) as [<-|Hne].
    + rewrite list_lookup_alter_eq, list_lookup_insert_eq
        by (eapply lookup_lt_Some; exact Hrec).
      rewrite Hrec, <- Hrt. reflexivity.
    + rewrite list_lookup_alter_ne, list_lookup_insert_ne by exact Hne.
      reflexivity.
  - intros rule' rec'. rewrite Hmapped.
    rewrite elem_of_app, elem_of_rev, list_elem_of_singleton, elem_of_cons.
    unfold mapped. cbn. tauto.
  - exact Hshape.
Qed.

Lemma last_take_lookup {A : Type} (l : list A) (k : nat) (x : A) :
  l !! k = Some x -> last (take (S k) l) = Some x.
Proof.
  intros Hk. rewrite last_lookup, length_take.
  pose proof (lookup_lt_Some _ _ _ Hk) as Hlt.
  replace (Init.Nat.pred (S k `min` length l)) with k by lia.
  rewrite lookup_take_lt by lia. exact Hk.
Qed.

(** The rules that the prefixes of the new path lead to are the rules
    that AddRecursion maps. *)
Lemma path_rules (rt : N) (more : list N) (path : list N) :
  RuleFindChild_sound ->
  path_positions rt (rev more ++ [rt]) = Ok path ->
  follow tables rt path = Some rt /\
  forall rule, (exists n, follow tables rt (take n path) = Some rule) <->
               rule ∈ rt :: more.
Proof.
  intros Hsound Hpath.
  destruct (path_positions_follow _ Hsound _ _ Hpath) as [Hlen Hfollow].
  split.
  - specialize (Hfollow (length path)). rewrite firstn_all in Hfollow.
    rewrite Hfollow, Hlen, firstn_all, last_snoc. reflexivity.
  - intros rule. split.
    + intros [n Hn]. rewrite Hfollow in Hn. injection Hn as <-.
      destruct (last (take n (rev more ++ [rt]))) as [x|] eqn:Hlast; cbn;
        [|left].
      apply last_Some_elem_of, elem_of_take in Hlast as (k & Hk & _).
      apply list_elem_of_lookup_2 in Hk.
      apply elem_of_app in Hk as [Hk|Hk].
      * right. apply elem_of_rev. exact Hk.
      * apply list_elem_of_singleton in Hk as ->. left.
    + intros Hin. apply elem_of_cons in Hin as [->|Hin].
      * exists 0%nat. reflexivity.
      * assert (Hin' : rule ∈ rev more ++ [rt])
          by (apply elem_of_app; left; apply elem_of_rev; exact Hin).
        apply list_elem_of_lookup in Hin' as [k Hk].
        exists (S k). rewrite Hfollow, (last_take_lookup _ _ _ Hk). reflexivity.
Qed.

Lemma recs1_lookup (rt : N) (recs recs1 : list Recursion.t) (i : nat)
    (r : Recursion.t) :
  recs1 = recs \/
  ((rt ∉ (Recursion.mRuleTable <$> recs)) /\
   recs1 = recs ++ [Recursion.mk rt []]) ->
  recs1 !! i = Some r ->
  recs !! i = Some r \/ (r = Recursion.mk rt [] /\ recs1 <> recs).
Proof.
  intros [->|[_ ->]] Hi; [left; exact Hi|].
  apply lookup_app_Some in Hi as [Hi|[_ Hi]]; [left; exact Hi|].
  right. apply list_lookup_singleton_Some in Hi as [_ <-].
  split; [reflexivity|]. intros Heq. apply (f_equal length) in Heq.
  rewrite length_app in Heq. simpl in Heq. lia.
Qed.

Lemma recs1_keeps (rt : N) (recs recs1 : list Recursion.t) (i : nat)
    (r : Recursion.t) :
  recs1 = recs \/
  ((rt ∉ (Recursion.mRuleTable <$> recs)) /\
   recs1 = recs ++ [Recursion.mk rt []]) ->
  recs !! i = Some r -> recs1 !! i = Some r.
Proof.
  intros [->|[_ ->]] Hi; [exact Hi|]. apply lookup_app_l_Some, Hi.
Qed.

Lemma AddRecursion_cycles (rt : N) (p : option nat) (s s' : t) :
  RuleFindChild_sound ->
  AddRecursion rt p s = Ok s' -> paths_are_cycles s -> paths_are_cycles s'.
Proof.
  intros Hsound Hadd Hcyc.
  destruct (AddRecursion_records _ _ _ _ Hadd)
    as (more & path & recs1 & rec & r & Hpath & Hrecs1 & Hrec & Hrt & Hrecs' & _).
  destruct (path_rules _ _ _ Hsound Hpath) as [Hnew _].
  intros r' path' Hr' Hpath'. rewrite Hrecs' in Hr'.
  apply list_elem_of_lookup in Hr' as [j Hj].
  destruct (decide (rec = j)) as [<-|Hne].
  - rewrite list_lookup_insert_eq in Hj by (eapply lookup_lt_Some; exact Hrec).
    injection Hj as <-. cbn in *.
    apply elem_of_app in Hpath' as [Hold|Hnew'].
    + destruct (recs1_lookup _ _ _ _ _ Hrecs1 Hrec) as [Hin|[-> _]];
        [|inversion Hold].
      rewrite <- Hrt. eapply Hcyc; [|exact Hold].
      eapply list_elem_of_lookup_2. exact Hin.
    + apply list_elem_of_singleton in Hnew' as ->. exact Hnew.
  - rewrite list_lookup_insert_ne in Hj by exact Hne.
    destruct (recs1_lookup _ _ _ _ _ Hrecs1 Hj) as [Hin|[-> _]];
      [|inversion Hpath'].
    eapply Hcyc; [|exact Hpath']. eapply list_elem_of_lookup_2. exact Hin.
Qed.

Lemma AddRecursion_distinct (rt : N) (p : option nat) (s s' : t) :
  AddRecursion rt p s = Ok s' -> recursions_distinct s -> recursions_distinct s'.
Proof.
  intros Hadd [Hnd Hpaths].
  destruct (AddRecursion_records _ _ _ _ Hadd)
    as (more & path & recs1 & rec & r & _ & Hrecs1 & Hrec & Hrt & Hrecs' & _).
  unfold recursions_distinct. rewrite Hrecs'. split.
  - rewrite list_fmap_insert. cbn. rewrite <- Hrt.
    rewrite list_insert_id by (rewrite list_lookup_fmap, Hrec; reflexivity).
    destruct Hrecs1 as [->|[Hnew ->]]; [exact Hnd|].
    rewrite fmap_app. apply NoDup_app. split; [exact Hnd|].
    split; [|apply NoDup_singleton].
    intros x Hx Hx'. apply list_elem_of_singleton in Hx'. cbn in Hx'. congruence.
  - apply Forall_lookup_2. intros j r' Hj.
    destruct (decide (rec = j)) as [<-|Hne].
    + rewrite list_lookup_insert_eq in Hj by (eapply lookup_lt_Some; exact Hrec).
      injection Hj as <-. cbn. intros Hnil. apply app_eq_nil in Hnil as [_ Hnil].
      discriminate.
    + rewrite list_lookup_insert_ne in Hj by exact Hne.
      destruct (recs1_lookup _ _ _ _ _ Hrecs1 Hj) as [Hin|[-> Hneq]].
      * eapply Forall_lookup_1 in Hpaths; [exact Hpaths | exact Hin].
      * exfalso. destruct Hrecs1 as [->|[Hnew ->]]; [congruence|].
        assert (Hlast : forall k x, (mRecursions s ++ [Recursion.mk rt []]) !! k
                                    = Some x ->
                                  Recursion.mRuleTable x = rt ->
                                  k = length (mRecursions s)).
        { intros k x Hk Hx. apply lookup_app_Some in Hk as [Hk|[Hge Hk]].
          - exfalso. apply Hnew. apply list_elem_of_fmap. exists x.
            split; [congruence|]. eapply list_elem_of_lookup_2. exact Hk.
          - apply list_lookup_singleton_Some in Hk as [Hk0 _]. lia. }
        apply Hne. rewrite (Hlast _ _ Hrec Hrt), (Hlast _ _ Hj eq_refl).
        reflexivity.
Qed.

Lemma AddRecursion_on_path (rt : N) (p : option nat) (s s' : t) :
  AddRecursion rt p s = Ok s' ->
  exists more path rec,
    path_positions rt (rev more ++ [rt]) = Ok path /\
    (forall rule' rec', mapped rule' rec' s' <->
                        mapped rule' rec' s \/ (rule' ∈ rt :: more /\ rec' = rec)) /\
    (forall rule' rec', on_path rule' rec' s' <->
                        on_path rule' rec' s \/
                        (rec' = rec /\
                         exists n, follow tables rt (take n path) = Some rule')).
Proof.
  intros Hadd.
  destruct (AddRecursion_records _ _ _ _ Hadd)
    as (more & path & recs1 & rec & r & Hpath & Hrecs1 & Hrec & Hrt & Hrecs'
        & Hmapped & _).
  exists more, path, rec. split; [exact Hpath|]. split; [exact Hmapped|].
  assert (Hlt : (rec < length recs1)%nat) by (eapply lookup_lt_Some; exact Hrec).
  intros rule' rec'. unfold on_path. rewrite Hrecs'. split.
  - intros (r' & path' & n & Hr' & Hpath' & Hfollow).
    destruct (decide (rec = rec')) as [<-|Hne].
    + rewrite list_lookup_insert_eq in Hr' by exact Hlt.
      injection Hr' as <-. cbn in *.
      apply elem_of_app in Hpath' as [Hold|Hnew].
      * left. destruct (recs1_lookup _ _ _ _ _ Hrecs1 Hrec) as [Hin|[-> _]];
          [|inversion Hold].
        exists r, path', n. rewrite Hrt. auto.
      * apply list_elem_of_singleton in Hnew as ->. right. eauto.
    + rewrite list_lookup_insert_ne in Hr' by exact Hne.
      destruct (recs1_lookup _ _ _ _ _ Hrecs1 Hr') as [Hin|[-> _]];
        [|inversion Hpath'].
      left. exists r', path', n. auto.
  - intros [(r0 & path' & n & Hr0 & Hpath' & Hfollow)|[-> [n Hfollow]]].
    + pose proof (recs1_keeps _ _ _ _ _ Hrecs1 Hr0) as Hr1.
      destruct (decide (rec = rec')) as [<-|Hne].
      * exists (Recursion.mk rt (Recursion.mPaths r ++ [path])), path', n.
        rewrite list_lookup_insert_eq by exact Hlt.
        assert (r0 = r) as -> by congruence.
        split; [reflexivity|]. cbn. rewrite <- Hrt.
        split; [apply elem_of_app; left; exact Hpath' | exact Hfollow].
      * exists r0, path', n. rewrite list_lookup_insert_ne by exact Hne. auto.
    + exists (Recursion.mk rt (Recursion.mPaths r ++ [path])), path, n.
      rewrite list_lookup_insert_eq by exact Hlt.
      split; [reflexivity|]. cbn.
      split; [apply elem_of_app; right; apply list_elem_of_singleton; reflexivity|].
      exact Hfollow.
Qed.

Lemma AddRecursion_mapping (rt : N) (p : option nat) (s s' : t) :
  RuleFindChild_sound ->
  AddRecursion rt p s = Ok s' -> mapping_exact s -> mapping_exact s'.
Proof.
  intros Hsound Hadd (Hrules & Hrecs & Hexact).
  destruct (AddRecursion_records _ _ _ _ Hadd)
    as (_ & _ & _ & _ & _ & _ & _ & _ & _ & _ & _ & Hshape).
  destruct (Hshape Hrules Hrecs) as [Hrules' Hrecs'].
  destruct (AddRecursion_on_path _ _ _ _ Hadd)
    as (more & path & rec & Hpath & Hmapped & Hon).
  destruct (path_rules _ _ _ Hsound Hpath) as [_ Hprefix].
  split; [exact Hrules'|]. split; [exact Hrecs'|].
  intros rule' rec'. rewrite Hmapped, Hon, Hexact, Hprefix. tauto.
Qed.

(** *** Lifting what AddRecursion keeps to a whole detection *)

Section Recorded.

Variable R : t -> t -> Prop.
Hypothesis R_trans : forall s1 s2 s3, R s1 s2 -> R s2 s3 -> R s1 s3.
Hypothesis R_frame :
  forall s s', mRecursions s' = mRecursions s ->
               mRule2Recursions s' = mRule2Recursions s -> R s s'.
Hypothesis R_add :
  forall rt p s s', AddRecursion rt p s = Ok s' -> R s s'.

Lemma R_refl (s : t) : R s s.
Proof. apply R_frame; reflexivity. Qed.

Section RecordedLoops.

Variable detect : N -> option nat -> t -> Result t.
Hypothesis detect_R : forall rt p s s', detect rt p s = Ok s' -> R s s'.

Lemma DetectOneof_slots_R (slots : list TableData.t) (p : option nat) :
  forall s s', DetectOneof_slots detect slots p s = Ok s' -> R s s'.
Proof.
  induction slots as [|data rest IH]; intros s s' Hloop.
  - injection Hloop as <-. apply R_refl.
  - cbn [DetectOneof_slots] in Hloop. rsplit Hloop.
    apply (R_trans _ a); [|apply IH; exact Hloop].
    destruct (decide (TableData.mType data = DT_Subtable)).
    + eapply detect_R. exact Hstep.
    + injection Hstep as <-. apply R_refl.
Qed.

Lemma DetectZeroormore_R (rule_table : RuleTable.t) (p : option nat) (s s' : t) :
  DetectZeroormore detect rule_table p s = Ok s' -> R s s'.
Proof.
  unfold DetectZeroormore. intros Hcall. rsplit Hcall.
  destruct (decide (TableData.mType a0 = DT_Subtable)).
  - eapply detect_R. exact Hcall.
  - injection Hcall as <-. apply R_refl.
Qed.

Lemma DetectConcatenate_slots_R (slots : list TableData.t) (p : option nat) :
  forall s s', DetectConcatenate_slots detect slots p s = Ok s' -> R s s'.
Proof.
  induction slots as [|data rest IH]; intros s s' Hloop.
  - injection Hloop as <-. apply R_refl.
  - cbn [DetectConcatenate_slots] in Hloop. rsplit Hloop.
    apply (R_trans _ a); [|apply IH; exact Hloop].
    destruct (decide (TableData.mType data = DT_Subtable)).
    + destruct (IsInProcess (TableData.mEntry data) s).
      * injection Hstep as <-. apply R_refl.
      * eapply detect_R. exact Hstep.
    + injection Hstep as <-. apply R_refl.
Qed.

Lemma DetectConcatenate_R (rule_table : RuleTable.t) (p : option nat) (s s' : t) :
  DetectConcatenate detect rule_table p s = Ok s' -> R s s'.
Proof.
  unfold DetectConcatenate. intros Hcall. rsplit Hcall.
  apply (R_trans _ a0); [|eapply DetectConcatenate_slots_R; exact Hcall].
  destruct (decide (TableData.mType a = DT_Subtable)).
  - eapply detect_R. exact Hstep0.
  - injection Hstep0 as <-. apply R_refl.
Qed.

End RecordedLoops.

Lemma DetectRuleTable_R (fuel : nat) :
  forall rt p s s', DetectRuleTable fuel rt p s = Ok s' -> R s s'.
Proof.
  induction fuel as [|fuel IH]; intros rt p s s' Hcall; [discriminate|].
  cbn [DetectRuleTable] in Hcall.
  destruct (IsDone rt s); [injection Hcall as <-; apply R_refl|].
  destruct (IsInProcess rt s); [eapply R_add; exact Hcall|].
  cbn [NewNode] in Hcall. rsplit Hcall. injection Hcall as <-.
  rename a into rule_table, a0 into s3.
  apply (R_trans _ (with_Tree (mTree s ++ [ContTreeNode.mk rt p])
                      (with_InProcess (mInProcess s ++ [rt]) s)));
    [apply R_frame; reflexivity|].
  apply (R_trans _ s3); [|apply R_frame; reflexivity].
  destruct (RuleTable.mType rule_table).
  - eapply DetectOneof_slots_R; [exact IH | exact Hstep0].
  - eapply DetectZeroormore_R; [exact IH | exact Hstep0].
  - eapply DetectZeroormore_R; [exact IH | exact Hstep0].
  - eapply DetectConcatenate_R; [exact IH | exact Hstep0].
  - eapply DetectZeroormore_R; [exact IH | exact Hstep0].
  - injection Hstep0 as <-. apply R_refl.
Qed.

Lemma Detect_R (fuel : nat) (tops : list N) (s s' : t) :
  Detect fuel tops s = Ok s' -> R s s'.
Proof.
  unfold Detect. intros Hrun.
  apply (R_trans _ (with_Done [] s)); [apply R_frame; reflexivity|].
  revert Hrun. generalize (with_Done [] s). clear s.
  induction tops as [|top rest IH]; intros s Hrun.
  - injection Hrun as <-. apply R_refl.
  - cbn [RecDetector.Detect_tops] in Hrun. rsplit Hrun.
    apply (R_trans _ (with_Tree [] (with_InProcess [] s)));
      [apply R_frame; reflexivity|].
    apply (R_trans _ a); [eapply DetectRuleTable_R; exact Hstep|].
    apply IH. exact Hrun.
Qed.

End Recorded.

(** X10. The paths that a detection records are cycles of the grammar:
    when [RuleFindChild] gives slots that refer to the child, every path
    recorded for a recursion leads, slot by slot through sub-table slots,
    from the rule of the recursion back to that rule. *)
Theorem Detect_paths_are_cycles (fuel : nat) (tops : list N) (s s' : t) :
  RuleFindChild_sound -> paths_are_cycles s ->
  Detect fuel tops s = Ok s' -> paths_are_cycles s'.
Proof.
  intros Hsound Hcyc Hrun. revert Hcyc.
  apply (Detect_R (fun s s' => paths_are_cycles s -> paths_are_cycles s'))
    with (fuel := fuel) (tops := tops); [| | |exact Hrun].
  - auto.
  - intros s1 s2 Hrecs _ Hcyc. unfold RecDetector.paths_are_cycles.
    rewrite Hrecs. exact Hcyc.
  - intros rt p s1 s2 Hadd. eapply AddRecursion_cycles; eassumption.
Qed.

(** X11. A rule has at most one recursion, whatever the number of back
    edges that lead to it, and a recursion is never left without a
    path. *)
Theorem Detect_recursions_distinct (fuel : nat) (tops : list N) (s s' : t) :
  recursions_distinct s ->
  Detect fuel tops s = Ok s' -> recursions_distinct s'.
Proof.
  intros Hdis Hrun. revert Hdis.
  apply (Detect_R (fun s s' => recursions_distinct s -> recursions_distinct s'))
    with (fuel := fuel) (tops := tops); [| | |exact Hrun].
  - auto.
  - intros s1 s2 Hrecs _ Hdis. unfold recursions_distinct.
    rewrite Hrecs. exact Hdis.
  - intros rt p s1 s2 Hadd. eapply AddRecursion_distinct; eassumption.
Qed.

(** X12. The Rule2Recursion mapping is exact: it has one entry for a
    rule and lists a recursion once in it, and it lists recursion [rec]
    under [rule] exactly when [rule] is met on a recorded path of
    [rec], the rule of the recursion itself included. *)
Theorem Detect_mapping_exact (fuel : nat) (tops : list N) (s s' : t) :
  RuleFindChild_sound -> mapping_exact s ->
  Detect fuel tops s = Ok s' -> mapping_exact s'.
Proof.
  intros Hsound Hmap Hrun. revert Hmap.
  apply (Detect_R (fun s s' => mapping_exact s -> mapping_exact s'))
    with (fuel := fuel) (tops := tops); [| | |exact Hrun].
  - auto.
  - intros s1 s2 Hrecs Hmaps Hmap.
    unfold RecDetector.mapping_exact, mapped, RecDetector.on_path in *.
    rewrite Hrecs, Hmaps. exact Hmap.
  - intros rt p s1 s2 Hadd. eapply AddRecursion_mapping; eassumption.
Qed.

(** *** The done tables are closed under sub-table children *)

Lemma reached_preserved (x : N) (s s' : t) :
  preserved s s' -> reached x s -> reached x s'.
Proof.
  intros (Hstack & (newly & Hdone) & _) [Hin|Hin]; unfold reached.
  - left. rewrite Hdone. apply elem_of_app. left. exact Hin.
  - right. rewrite Hstack. exact Hin.
Qed.

Section ClosedLoops.

Variable detect : N -> option nat -> t -> Result t.
Hypothesis detect_preserved :
  forall rt p s s', detect rt p s = Ok s' -> preserved s s'.
Hypothesis detect_closed :
  forall rt p s s', detect rt p s = Ok s' ->
                    (done_closed s -> done_closed s') /\ reached rt s'.

Lemma DetectOneof_slots_closed (slots : list TableData.t) (p : option nat) :
  forall s s', DetectOneof_slots detect slots p s = Ok s' ->
    (done_closed s -> done_closed s') /\
    Forall (fun d => TableData.mType d = DT_Subtable ->
                     reached (TableData.mEntry d) s') slots.
Proof.
  induction slots as [|data rest IH]; intros s s' Hloop.
  - injection Hloop as <-. split; [auto | constructor].
  - cbn [DetectOneof_slots] in Hloop. rsplit Hloop.
    destruct (IH _ _ Hloop) as [Hclosed Hrest].
    pose proof (DetectOneof_slots_preserved detect detect_preserved _ _ _ _ Hloop)
      as Hpres.
    destruct (decide (TableData.mType data = DT_Subtable)) as [Hsub|Hother].
    + destruct (detect_closed _ _ _ _ Hstep) as [Hhead Hreached].
      split; [auto|]. constructor; [|exact Hrest].
      intros _. eapply reached_preserved; eassumption.
    + injection Hstep as <-. split; [exact Hclosed|].
      constructor; [intros Hsub; contradiction | exact Hrest].
Qed.

Lemma DetectZeroormore_closed (rule_table : RuleTable.t) (p : option nat)
    (s s' : t) :
  DetectZeroormore detect rule_table p s = Ok s' ->
  (done_closed s -> done_closed s') /\
  Forall (fun d => TableData.mType d = DT_Subtable ->
                   reached (TableData.mEntry d) s') (RuleTable.mData rule_table).
Proof.
  unfold DetectZeroormore. intros Hcall. rsplit Hcall.
  apply MASSERT_Ok, N.eqb_eq in Hstep. apply of_access_Ok in Hstep0.
  unfold RuleTable.mNum in Hstep.
  destruct (RuleTable.mData rule_table) as [|d [|d' rest]] eqn:Hdata;
    cbn in Hstep, Hstep0; try discriminate; [|lia].
  injection Hstep0 as ->.
  destruct (decide (TableData.mType a0 = DT_Subtable)) as [Hsub|Hother].
  - destruct (detect_closed _ _ _ _ Hcall) as [Hclosed Hreached].
    split; [exact Hclosed|]. constructor; [auto | constructor].
  - injection Hcall as <-. split; [auto|].
    constructor; [intros Hsub; contradiction | constructor].
Qed.

Lemma DetectConcatenate_slots_closed (slots : list TableData.t) (p : option nat) :
  forall s s', DetectConcatenate_slots detect slots p s = Ok s' ->
    (done_closed s -> done_closed s') /\
    Forall (fun d => TableData.mType d = DT_Subtable ->
                     reached (TableData.mEntry d) s') slots.
Proof.
  induction slots as [|data rest IH]; intros s s' Hloop.
  - injection Hloop as <-. split; [auto | constructor].
  - cbn [DetectConcatenate_slots] in Hloop. rsplit Hloop.
    destruct (IH _ _ Hloop) as [Hclosed Hrest].
    pose proof (DetectConcatenate_slots_preserved detect detect_preserved
                  _ _ _ _ Hloop) as Hpres.
    destruct (decide (TableData.mType data = DT_Subtable)) as [Hsub|Hother].
    + destruct (IsInProcess (TableData.mEntry data) s) eqn:Hproc.
      * injection Hstep as <-. split; [exact Hclosed|].
        constructor; [|exact Hrest]. intros _.
        eapply reached_preserved; [exact Hpres|]. right.
        apply contains_spec. exact Hproc.
      * destruct (detect_closed _ _ _ _ Hstep) as [Hhead Hreached].
        split; [auto|]. constructor; [|exact Hrest].
        intros _. eapply reached_preserved; eassumption.
    + injection Hstep as <-. split; [exact Hclosed|].
      constructor; [intros Hsub; contradiction | exact Hrest].
Qed.

Lemma DetectConcatenate_closed (rule_table : RuleTable.t) (p : option nat)
    (s s' : t) :
  DetectConcatenate detect rule_table p s = Ok s' ->
  (done_closed s -> done_closed s') /\
  Forall (fun d => TableData.mType d = DT_Subtable ->
                   reached (TableData.mEntry d) s') (RuleTable.mData rule_table).
Proof.
  unfold DetectConcatenate. intros Hcall. rsplit Hcall.
  apply of_access_Ok in Hstep.
  destruct (RuleTable.mData rule_table) as [|d rest] eqn:Hdata;
    [discriminate|]. injection Hstep as ->. cbn [drop] in Hcall.
  destruct (DetectConcatenate_slots_closed _ _ _ _ Hcall) as [Hclosed Hrest].
  pose proof (DetectConcatenate_slots_preserved detect detect_preserved
                _ _ _ _ Hcall) as Hpres.
  destruct (decide (TableData.mType a = DT_Subtable)) as [Hsub|Hother].
  - destruct (detect_closed _ _ _ _ Hstep0) as [Hhead Hreached].
    split; [auto|]. constructor; [|exact Hrest].
    intros _. eapply reached_preserved; eassumption.
  - injection Hstep0 as <-. split; [exact Hclosed|].
    constructor; [intros Hsub; contradiction | exact Hrest].
Qed.

End ClosedLoops.

Lemma subtable_children_slot (rt child : N) :
  child ∈ subtable_children rt ->
  exists rule_table d,
    table_at tables rt = Some rule_table /\
    RuleTable.mType rule_table <> ET_Null /\
    d ∈ RuleTable.mData rule_table /\
    TableData.mType d = DT_Subtable /\ TableData.mEntry d = child.
Proof.
  unfold RecDetector.subtable_children.
  destruct (table_at tables rt) as [rule_table|]; [|intros Hin; inversion Hin].
  intros Hin. exists rule_table.
  assert (Hslots : child ∈ omap (fun d => if decide (TableData.mType d = DT_Subtable)
                                          then Some (TableData.mEntry d) else None)
                                (RuleTable.mData rule_table) /\
                   RuleTable.mType rule_table <> ET_Null).
  { destruct (RuleTable.mType rule_table); try (split; [exact Hin | discriminate]).
    inversion Hin. }
  destruct Hslots as [Hslots Hkind].
  apply list_elem_of_omap in Hslots as (d & Hd & Hsome).
  exists d. destruct (decide (TableData.mType d = DT_Subtable)); [|discriminate].
  injection Hsome as <-. auto.
Qed.

Lemma DetectRuleTable_closed (fuel : nat) :
  forall rt p s s', DetectRuleTable fuel rt p s = Ok s' ->
                    (done_closed s -> done_closed s') /\ reached rt s'.
Proof.
  induction fuel as [|fuel IH]; intros rt p s s' Hcall; [discriminate|].
  pose proof (DetectRuleTable_preserved fuel) as Hpres.
  cbn [DetectRuleTable] in Hcall.
  destruct (IsDone rt s) eqn:Hdone.
  { injection Hcall as <-. split; [auto|]. left. apply contains_spec, Hdone. }
  destruct (IsInProcess rt s) eqn:Hproc.
  { apply AddRecursion_preserved in Hcall as (Hstack & Hsame & _).
    unfold RecDetector.done_closed, reached. rewrite Hstack, Hsame.
    split; [auto|]. right. apply contains_spec, Hproc. }
  cbn [NewNode] in Hcall. rsplit Hcall. injection Hcall as <-.
  rename a into rule_table, a0 into s3, a2 into back.
  apply of_access_Ok in Hstep.
  set (s2 := with_Tree (mTree s ++ [ContTreeNode.mk rt p])
               (with_InProcess (mInProcess s ++ [rt]) s)) in *.
  assert (Hloops : preserved s2 s3 /\ (done_closed s2 -> done_closed s3) /\
            (RuleTable.mType rule_table <> ET_Null ->
             Forall (fun d => TableData.mType d = DT_Subtable ->
                              reached (TableData.mEntry d) s3)
                    (RuleTable.mData rule_table))).
  { destruct (RuleTable.mType rule_table).
    - split; [eapply DetectOneof_slots_preserved; [exact Hpres | exact Hstep0]|].
      destruct (DetectOneof_slots_closed _ Hpres IH _ _ _ _ Hstep0); auto.
    - split; [eapply DetectZeroormore_preserved; [exact Hpres | exact Hstep0]|].
      destruct (DetectZeroormore_closed _ IH _ _ _ _ Hstep0); auto.
    - split; [eapply DetectZeroormore_preserved; [exact Hpres | exact Hstep0]|].
      destruct (DetectZeroormore_closed _ IH _ _ _ _ Hstep0); auto.
    - split; [eapply DetectConcatenate_preserved; [exact Hpres | exact Hstep0]|].
      destruct (DetectConcatenate_closed _ Hpres IH _ _ _ _ Hstep0); auto.
    - split; [eapply DetectZeroormore_preserved; [exact Hpres | exact Hstep0]|].
      destruct (DetectZeroormore_closed _ IH _ _ _ _ Hstep0); auto.
    - injection Hstep0 as <-. split; [apply preserved_refl|].
      split; [auto | congruence]. }
  destruct Hloops as ((Hstack & _ & _) & Hclosed & Hchildren).
  subst s2. cbn [mInProcess mDone with_Tree with_InProcess with_Done] in *.
  assert (Hmove : forall x, reached x s3 ->
            reached x (with_Done (mDone s3 ++ [rt])
                         (with_InProcess (removelast (mInProcess s3)) s3))).
  { intros x [Hx|Hx]; unfold reached; cbn.
    - left. apply elem_of_app. left. exact Hx.
    - rewrite Hstack in Hx |- *. rewrite removelast_last.
      apply elem_of_app in Hx as [Hx|Hx]; [right; exact Hx|].
      left. apply elem_of_app. right. exact Hx. }
  split.
  - intros Hs x child Hx Hchild. apply Hmove.
    cbn in Hx. apply elem_of_app in Hx as [Hx|Hx].
    + apply (Hclosed) with (rt := x); [|exact Hx | exact Hchild].
      intros y c Hy Hc. destruct (Hs y c Hy Hc) as [Hin|Hin]; unfold reached; cbn.
      * left. exact Hin.
      * right. apply elem_of_app. left. exact Hin.
    + apply list_elem_of_singleton in Hx as ->.
      apply subtable_children_slot in Hchild
        as (rule_table' & d & Htable & Hkind & Hd & Hsub & <-).
      assert (rule_table' = rule_table) as -> by congruence.
      eapply Forall_forall in Hchildren; [apply Hchildren; exact Hsub | exact Hkind
                                          | exact Hd].
  - left. cbn. apply elem_of_app. right. apply list_elem_of_singleton. reflexivity.
Qed.

Lemma Detect_tops_closed (fuel : nat) (tops : list N) :
  forall s s',
    Detect_tops fuel tops s = Ok s' ->
    NoDup (mDone s) ->
    (forall rt child, rt ∈ mDone s -> child ∈ subtable_children rt ->
                      child ∈ mDone s) ->
    NoDup (mDone s') /\
    (tops <> [] -> mInProcess s' = []) /\
    (exists newly, mDone s' = mDone s ++ newly) /\
    (forall top, top ∈ tops -> top ∈ mDone s') /\
    (forall rt child, rt ∈ mDone s' -> child ∈ subtable_children rt ->
                      child ∈ mDone s').
Proof.
  induction tops as [|top rest IH]; intros s s' Hrun Hnd Hclosed.
  - injection Hrun as <-. split; [exact Hnd|]. split; [congruence|].
    split; [exists []; rewrite app_nil_r; reflexivity|].
    split; [intros top Hin; inversion Hin | exact Hclosed].
  - cbn [RecDetector.Detect_tops] in Hrun. rsplit Hrun. rename a into s1.
    destruct (DetectRuleTable_preserved _ _ _ _ _ Hstep)
      as (Hstack & (newly & Hnewly) & Hnd1).
    destruct (DetectRuleTable_closed _ _ _ _ _ Hstep) as [Hclosed1 Hreached].
    cbn [mInProcess mDone with_Tree with_InProcess] in *.
    assert (Hin1 : forall x, reached x s1 -> x ∈ mDone s1).
    { intros x [Hx|Hx]; [exact Hx|]. rewrite Hstack in Hx. inversion Hx. }
    assert (Hfull1 : forall rt child, rt ∈ mDone s1 ->
              child ∈ subtable_children rt -> child ∈ mDone s1).
    { intros rt child Hrt Hchild. apply Hin1.
      apply Hclosed1 with (rt := rt); [|exact Hrt | exact Hchild].
      intros y c Hy Hc. left. apply (Hclosed y c Hy Hc). }
    destruct (IH _ _ Hrun (Hnd1 Hnd) Hfull1)
      as (Hnd' & Hstack' & (newly' & Hnewly') & Htops & Hfull').
    split; [exact Hnd'|]. split; [|split; [|split]].
    + intros _. destruct rest as [|top' rest]; [|apply Hstack'; discriminate].
      injection Hrun as <-. exact Hstack.
    + exists (newly ++ newly'). rewrite Hnewly', Hnewly, app_assoc. reflexivity.
    + intros x Hx. apply elem_of_cons in Hx as [->|Hx]; [|apply Htops, Hx].
      rewrite Hnewly'. apply elem_of_app. left. apply Hin1, Hreached.
    + exact Hfull'.
Qed.

Lemma follow_done (done : list N) :
  no_Null_table tables ->
  (forall rt child, rt ∈ done -> child ∈ subtable_children rt -> child ∈ done) ->
  forall path rt0 rt,
    rt0 ∈ done -> follow tables rt0 path = Some rt -> rt ∈ done.
Proof.
  intros Hkinds Hclosed. induction path as [|i path IH]; intros rt0 rt Hrt0 Hfollow.
  - injection Hfollow as <-. exact Hrt0.
  - cbn [follow] in Hfollow.
    destruct (table_at tables rt0) as [rule_table|] eqn:Htable; [|discriminate].
    destruct (RuleTable.mData rule_table !! N.to_nat i) as [d|] eqn:Hd;
      [|discriminate].
    destruct (decide (TableData.mType d = DT_Subtable)) as [Hsub|]; [|discriminate].
    apply (IH (TableData.mEntry d)); [|exact Hfollow].
    apply (Hclosed rt0); [exact Hrt0|].
    unfold RecDetector.subtable_children. rewrite Htable.
    assert (Hin : TableData.mEntry d
                  ∈ omap (fun d => if decide (TableData.mType d = DT_Subtable)
                                   then Some (TableData.mEntry d) else None)
                         (RuleTable.mData rule_table)).
    { apply list_elem_of_omap. exists d.
      split; [eapply list_elem_of_lookup_2; exact Hd|].
      rewrite decide_True by exact Hsub. reflexivity. }
    pose proof (Hkinds _ _ Htable) as Hkind.
    destruct (RuleTable.mType rule_table); try exact Hin. congruence.
Qed.

(** X13. A detection visits everything below its top tables, once: when
    [Detect] returns, the stack is empty, the done vector holds no table
    twice and holds every top table, every rule that a slot of a done
    table refers to is done (the slots of a table of kind [ET_Null] are
    not looked at), and so, in a grammar without [ET_Null] tables, every
    table that a top table leads to through sub-table slots is done. *)
Theorem Detect_visits_all (fuel : nat) (tops : list N) (s s' : t) :
  Detect fuel tops s = Ok s' -> tops <> [] ->
  mInProcess s' = [] /\
  NoDup (mDone s') /\
  (forall top, top ∈ tops -> top ∈ mDone s') /\
  (forall rt child, rt ∈ mDone s' -> child ∈ subtable_children rt ->
                    child ∈ mDone s') /\
  (no_Null_table tables ->
   forall top path rt, top ∈ tops -> follow tables top path = Some rt ->
                       rt ∈ mDone s').
Proof.
  unfold Detect. intros Hrun Htops.
  destruct (Detect_tops_closed _ _ _ _ Hrun) as (Hnd & Hstack & _ & Hin & Hfull).
  { constructor. }
  { intros rt child Hrt. inversion Hrt. }
  split; [apply Hstack, Htops|]. split; [exact Hnd|]. split; [exact Hin|].
  split; [exact Hfull|].
  intros Hkinds top path rt Htop Hfollow.
  eapply follow_done; [exact Hkinds | exact Hfull | apply Hin, Htop | exact Hfollow].
Qed.

End Detect.

(** The detection from Add finds the recursion of Add with the path 1, 0. *)
Example Detect_sample :
  Detect sample_tables (find_child sample_tables) 4 [0%N] fresh
  = Ok (mk [] [1; 2; 0]%N
           [ContTreeNode.mk 0 None; ContTreeNode.mk 1 (Some 0%nat);
            ContTreeNode.mk 2 (Some 0%nat)]
           [Recursion.mk 0 [[1; 0]%N]]
           [Rule2Recursion.mk 2 [0%nat]; Rule2Recursion.mk 0 [0%nat]]).
Proof. vm_compute. reflexivity. Qed.

Lemma DetectRuleTable_once_witness :
  match DetectRuleTable sample_tables (find_child sample_tables) 4 0 None fresh with
  | Ok s' =>
      mInProcess s' = [] /\ IsDone 0 s' = true /\
      DetectRuleTable sample_tables (find_child sample_tables) 1 0 None s'
        = Ok s'
  | Fail _ => False
  end.
Proof.
  destruct (DetectRuleTable sample_tables (find_child sample_tables) 4 0 None
              fresh) as [s'|f] eqn:Hcall.
  - destruct (DetectRuleTable_once _ _ _ _ _ _ _ Hcall)
      as (Hstack & _ & _ & Hfull & Hlater).
    destruct (Hfull eq_refl eq_refl) as [Hdone _].
    split; [exact Hstack|]. split; [exact Hdone|].
    apply (Hlater s' []); [exact Hdone | rewrite app_nil_r; reflexivity].
  - vm_compute in Hcall. discriminate.
Defined.

Lemma find_child_sound (tables : Tables) :
  RuleFindChild_sound tables (find_child tables).
Proof.
  intros parent child index. unfold find_child. cbn [follow].
  destruct (table_at tables parent) as [rule_table|]; [|discriminate]. cbn.
  destruct (list_find _ (RuleTable.mData rule_table)) as [[i d]|] eqn:Hfind;
    [|discriminate].
  cbn. intros [= <-]. apply list_find_Some in Hfind as (Hd & [Hsub Hentry] & _).
  rewrite Nat2N.id, Hd, decide_True by exact Hsub. congruence.
Qed.

Lemma Detect_paths_are_cycles_witness :
  match Detect sample_tables (find_child sample_tables) 4 [0%N] fresh with
  | Ok s' => paths_are_cycles sample_tables s'
  | Fail _ => False
  end.
Proof.
  destruct (Detect sample_tables (find_child sample_tables) 4 [0%N] fresh)
    as [s'|f] eqn:Hrun.
  - apply (Detect_paths_are_cycles _ _ _ _ _ _ (find_child_sound _)) in Hrun;
      [exact Hrun|].
    intros rec path Hrec. inversion Hrec.
  - vm_compute in Hrun. discriminate.
Defined.

Lemma Detect_recursions_distinct_witness :
  match Detect sample_tables (find_child sample_tables) 4 [0%N] fresh with
  | Ok s' => recursions_distinct s'
  | Fail _ => False
  end.
Proof.
  destruct (Detect sample_tables (find_child sample_tables) 4 [0%N] fresh)
    as [s'|f] eqn:Hrun.
  - apply (Detect_recursions_distinct _ _ _ _ _ _) in Hrun; [exact Hrun|].
    split; constructor.
  - vm_compute in Hrun. discriminate.
Defined.

Lemma Detect_mapping_exact_witness :
  match Detect sample_tables (find_child sample_tables) 4 [0%N] fresh with
  | Ok s' => mapping_exact sample_tables s'
  | Fail _ => False
  end.
Proof.
  destruct (Detect sample_tables (find_child sample_tables) 4 [0%N] fresh)
    as [s'|f] eqn:Hrun.
  - apply (Detect_mapping_exact _ _ _ _ _ _ (find_child_sound _)) in Hrun;
      [exact Hrun|].
    split; [constructor|]. split; [constructor|].
    intros rule rec. split.
    + intros (r2r & Hin & _). inversion Hin.
    + intros (r & path & n & Hr & _). destruct rec; discriminate.
  - vm_compute in Hrun. discriminate.
Defined.

Lemma Detect_visits_all_witness :
  match Detect sample_tables (find_child sample_tables) 4 [0%N] fresh with
  | Ok s' => mInProcess s' = [] /\ NoDup (mDone s') /\ 2%N ∈ mDone s'
  | Fail _ => False
  end.
Proof.
  destruct (Detect sample_tables (find_child sample_tables) 4 [0%N] fresh)
    as [s'|f] eqn:Hrun.
  - destruct (Detect_visits_all _ _ _ _ _ _ Hrun)
      as (Hstack & Hnd & _ & _ & Hreach); [discriminate|].
    split; [exact Hstack|]. split; [exact Hnd|].
    apply (Hreach) with (top := 0%N) (path := [1%N]); [|left|reflexivity].
    intros rt rule_table Hat. unfold table_at in Hat.
    apply list_elem_of_lookup_2 in Hat.
    repeat (apply elem_of_cons in Hat as [->|Hat]; [discriminate|]).
    inversion Hat.
  - vm_compute in Hrun. discriminate.
Defined.

End RecDetectorFacts.

(** ** Recursion *)

Module RecursionFacts.
Import Recursion.

(** *** Walking a circle *)

Lemma child_node_rule (data : TableData.t) (node : FronNodeType * N) :
  child_node data = Ok node -> node.1 = FNT_Rule ->
  TableData.mType data = DT_Subtable /\ TableData.mEntry data = node.2.
Proof.
  unfold child_node. destruct (TableData.mType data); try discriminate.
  - intros [= <-]. discriminate.
  - intros [= <-]. split; reflexivity.
Qed.

Lemma RuleFindChildAtIndex_rule (parent : RuleTable.t) (index : N)
    (node : FronNodeType * N) :
  RuleFindChildAtIndex parent index = Ok node -> node.1 = FNT_Rule ->
  exists data, RuleTable.mData parent !! N.to_nat index = Some data /\
               TableData.mType data = DT_Subtable /\
               TableData.mEntry data = node.2.
Proof.
  unfold RuleFindChildAtIndex. intros Hfind Hrule.
  destruct (RuleTable.mType parent); try discriminate; rsplit Hfind.
  all: try (apply MASSERT_Ok, N.eqb_eq in Hstep; subst index).
  all: match goal with
       | Ha : of_access _ = Ok ?d |- _ =>
           apply of_access_Ok in Ha; exists d; split; [exact Ha|];
           apply child_node_rule; assumption
       end.
Qed.

Lemma follow_step (m : Tables) (prev : N) (parent : RuleTable.t) (index : N)
    (node : FronNodeType * N) (rest : list N) :
  table_at m prev = Some parent ->
  RuleFindChildAtIndex parent index = Ok node -> node.1 = FNT_Rule ->
  follow m prev (index :: rest) = follow m node.2 rest.
Proof.
  intros Hprev Hfind Hrule.
  destruct (RuleFindChildAtIndex_rule _ _ _ Hfind Hrule) as (data & Hd & Hty & He).
  simpl. rewrite Hprev, Hd, decide_True by exact Hty. rewrite He. reflexivity.
Qed.

Lemma drop_lookup_cons {A : Type} (l : list A) (i : nat) (x : A) :
  l !! i = Some x -> drop i l = x :: drop (S i) l.
Proof. intros Hi. apply drop_S. exact Hi. Qed.

Lemma IsRecursionNode_spec (nodes : list N) (rt : N) :
  IsRecursionNode nodes rt = true <-> rt ∈ nodes.
Proof.
  induction nodes as [|node rest IH]; simpl.
  - split; [discriminate | intros Hin; inversion Hin].
  - destruct (N.eqb_spec rt node) as [->|Hne].
    + split; [intros _; left | reflexivity].
    + rewrite IH. rewrite elem_of_cons. split; [tauto|].
      intros [Heq|Hin]; [congruence | exact Hin].
Qed.

Lemma add_node_elem (nodes : list N) (rt x : N) :
  x ∈ add_node nodes rt <-> x ∈ nodes \/ x = rt.
Proof.
  unfold add_node. destruct (IsRecursionNode nodes rt) eqn:Hin.
  - apply IsRecursionNode_spec in Hin. split; [tauto|].
    intros [Hx| ->]; assumption.
  - rewrite elem_of_app, list_elem_of_singleton. reflexivity.
Qed.

Lemma add_node_NoDup (nodes : list N) (rt : N) :
  NoDup nodes -> NoDup (add_node nodes rt).
Proof.
  unfold add_node. intros Hnd. destruct (IsRecursionNode nodes rt) eqn:Hin.
  - exact Hnd.
  - apply NoDup_app. split; [exact Hnd|]. split; [|apply NoDup_singleton].
    intros x Hx Hx'. apply list_elem_of_singleton in Hx'. subst x.
    apply IsRecursionNode_spec in Hx. congruence.
Qed.

(** The walk of FindRecursionNodes over the rest of a circle: the rules it
    adds are those met before position [len], and it ends on the rule that
    the remaining indices lead to; when position [len] is among the
    positions walked, that rule is the LeadNode. *)
Lemma circle_nodes_spec (m : Tables) (lead : N) (circle : list N) (len : N)
    (n : nat) :
  forall (j prev : N) (nodes nodes' : list N),
  circle_nodes m lead circle len n j prev nodes = Ok nodes' ->
  (NoDup nodes -> NoDup nodes') /\
  (forall rt, rt ∈ nodes' <->
     rt ∈ nodes \/
     exists k, (k < n)%nat /\ (j + N.of_nat k)%N <> len /\
       follow m prev (take (S k) (drop (N.to_nat j) circle)) = Some rt) /\
  (exists last, follow m prev (take n (drop (N.to_nat j) circle)) = Some last /\
     ((j <= len < j + N.of_nat n)%N -> (j + N.of_nat n = len + 1)%N ->
      last = lead)).
Proof.
  induction n as [|n IH]; intros j prev nodes nodes' Hwalk.
  - injection Hwalk as <-. split; [tauto|]. split.
    + intros rt. split; [tauto|]. intros [Hin|(k & Hk & _)]; [exact Hin|lia].
    + exists prev. split; [reflexivity|]. lia.
  - cbn [circle_nodes] in Hwalk. rsplit Hwalk.
    rename a into child_index, a0 into parent, a1 into node, a3 into nodes1.
    apply of_access_Ok in Hstep, Hstep0.
    apply MASSERT_Ok, bool_decide_eq_true in Hstep2.
    pose proof (follow_step m prev parent child_index node) as Hfollow.
    specialize (fun rest => Hfollow rest Hstep0 Hstep1 Hstep2).
    rewrite (drop_lookup_cons _ _ _ Hstep).
    replace (S (N.to_nat j)) with (N.to_nat (j + 1)) by lia.
    destruct (IH _ _ _ _ Hwalk) as (IHnd & IHin & last & IHlast & IHlead).
    assert (Hnodes1 : (j = len /\ nodes1 = nodes /\ node.2 = lead) \/
                      (j <> len /\ nodes1 = add_node nodes node.2)).
    { destruct (N.eqb_spec j len) as [Heq|Hne].
      - left. rsplit Hstep3. apply MASSERT_Ok, N.eqb_eq in Hstep4.
        injection Hstep3 as <-. auto.
      - right. injection Hstep3 as <-. auto. }
    split; [|split].
    + intros Hnd. apply IHnd.
      destruct Hnodes1 as [(_ & -> & _)|(_ & ->)];
        [exact Hnd | apply add_node_NoDup, Hnd].
    + intros rt. rewrite IHin. split.
      * intros [Hin|(k & Hk & Hpos & Hf)].
        -- destruct Hnodes1 as [(_ & -> & _)|(Hne & ->)]; [left; exact Hin|].
           apply add_node_elem in Hin as [Hin| ->]; [left; exact Hin|].
           right. exists 0%nat. split; [lia|]. split; [lia|].
           cbn [take]. rewrite Hfollow. reflexivity.
        -- right. exists (S k). split; [lia|]. split; [lia|].
           cbn [take]. rewrite Hfollow. exact Hf.
      * intros [Hin|(k & Hk & Hpos & Hf)].
        -- left. destruct Hnodes1 as [(_ & -> & _)|(_ & ->)]; [exact Hin|].
           apply add_node_elem. left. exact Hin.
        -- cbn [take] in Hf. rewrite Hfollow in Hf. destruct k as [|k].
           ++ injection Hf as <-. left.
              destruct Hnodes1 as [(Heq & _)|(_ & ->)]; [lia|].
              apply add_node_elem. right. reflexivity.
           ++ right. exists k. split; [lia|]. split; [lia|]. exact Hf.
    + exists last. cbn [take]. rewrite Hfollow. split; [exact IHlast|].
      intros Hrange Hend. destruct n as [|n].
      * injection IHlast as <-.
        destruct Hnodes1 as [(_ & _ & Hlead)|(Hne & _)]; [exact Hlead | lia].
      * apply IHlead; lia.
Qed.

Lemma FindRecursionNodes_circles_spec (m : Tables) (lead : N)
    (circles : list (list N)) :
  forall nodes nodes',
  FindRecursionNodes_circles m lead circles nodes = Ok nodes' ->
  (NoDup nodes -> NoDup nodes') /\
  (forall rt, rt ∈ nodes' <->
     rt ∈ nodes \/
     exists circle len pos, circle ∈ circles /\ circle !! 0%nat = Some len /\
       (0 < pos < N.to_nat len)%nat /\
       follow m lead (take pos (drop 1 circle)) = Some rt) /\
  (forall circle len, circle ∈ circles -> circle !! 0%nat = Some len ->
     follow m lead (take (N.to_nat len) (drop 1 circle)) = Some lead).
Proof.
  induction circles as [|circle rest IH]; intros nodes nodes' Hloop.
  - injection Hloop as <-. split; [tauto|]. split.
    + intros rt. split; [tauto|].
      intros [Hin|(c & ? & ? & Hc & _)]; [exact Hin | inversion Hc].
    + intros c ? Hc. inversion Hc.
  - cbn [FindRecursionNodes_circles] in Hloop. rsplit Hloop.
    rename a into len, a0 into nodes1. apply of_access_Ok in Hstep.
    destruct (circle_nodes_spec _ _ _ _ _ _ _ _ _ Hstep0)
      as (Hnd1 & Hin1 & last & Hlast & Hlead).
    destruct (IH _ _ Hloop) as (IHnd & IHin & IHback).
    change (N.to_nat 1) with 1%nat in *.
    split; [|split].
    + intros Hnd. apply IHnd, Hnd1, Hnd.
    + intros rt. rewrite IHin, Hin1. split.
      * intros [[Hin|(k & Hk & Hpos & Hf)]|(c & l & pos & Hc & Hrest)].
        -- left. exact Hin.
        -- right. exists circle, len, (S k).
           split; [left|]. split; [exact Hstep|]. split; [lia | exact Hf].
        -- right. exists c, l, pos. split; [right; exact Hc | exact Hrest].
      * intros [Hin|(c & l & pos & Hc & Hl & Hpos & Hf)]; [left; left; exact Hin|].
        apply elem_of_cons in Hc as [->|Hc].
        -- left. right. assert (l = len) as -> by congruence.
           exists (pos - 1)%nat. split; [lia|]. split; [lia|].
           replace (S (pos - 1)) with pos by lia. exact Hf.
        -- right. exists c, l, pos. auto.
    + intros c l Hc Hl. apply elem_of_cons in Hc as [->|Hc].
      * assert (l = len) as -> by congruence.
        destruct (decide (len = 0%N)) as [->|Hpos]; [reflexivity|].
        rewrite Hlast. f_equal. apply Hlead; lia.
      * eapply IHback; eassumption.
Qed.

(** *** Rule tables whose slot tags were rewritten

    The analysis writes [DT_Subtable] into slots whose tag is not
    [DT_Token].  [relabelled m m'] says that [m'] is [m] up to such
    writes: same tables, same kinds, same payloads. *)

Lemma data_le_refl (d : TableData.t) : data_le d d.
Proof. split; [reflexivity | left; reflexivity]. Qed.

Lemma data_le_trans (d1 d2 d3 : TableData.t) :
  data_le d1 d2 -> data_le d2 d3 -> data_le d1 d3.
Proof.
  intros [Hd12 Ht12] [Hd23 Ht23]. split; [congruence|].
  destruct Ht23 as [Ht23|[Hne Ht23]].
  - rewrite Ht23. exact Ht12.
  - right. split; [|exact Ht23].
    destruct Ht12 as [Ht12|[Hne' _]]; [congruence | exact Hne'].
Qed.

Lemma table_le_refl (rt : RuleTable.t) : table_le rt rt.
Proof.
  split; [reflexivity|]. split; [reflexivity|].
  apply Forall2_same_length_lookup_2; [reflexivity|].
  intros i x y Hx Hy. assert (x = y) as -> by congruence. apply data_le_refl.
Qed.

Lemma table_le_trans (t1 t2 t3 : RuleTable.t) :
  table_le t1 t2 -> table_le t2 t3 -> table_le t1 t3.
Proof.
  intros (Ht12 & Ha12 & Hd12) (Ht23 & Ha23 & Hd23).
  split; [congruence|]. split; [congruence|].
  eapply Forall2_trans; [|exact Hd12|exact Hd23].
  intros ? ? ?. apply data_le_trans.
Qed.

Lemma relabelled_refl (m : Tables) : relabelled m m.
Proof.
  apply Forall2_same_length_lookup_2; [reflexivity|].
  intros i x y Hx Hy. assert (x = y) as -> by congruence. apply table_le_refl.
Qed.

Lemma relabelled_trans (m1 m2 m3 : Tables) :
  relabelled m1 m2 -> relabelled m2 m3 -> relabelled m1 m3.
Proof.
  intros H12 H23. eapply Forall2_trans; [|exact H12|exact H23].
  intros ? ? ?. apply table_le_trans.
Qed.

Lemma relabelled_table (m m' : Tables) (p : N) (rt : RuleTable.t) :
  relabelled m m' -> table_at m p = Some rt ->
  exists rt', table_at m' p = Some rt' /\ table_le rt rt'.
Proof. intros Hle Hp. eapply Forall2_lookup_l; eassumption. Qed.

Lemma table_le_mNum (rt rt' : RuleTable.t) :
  table_le rt rt' -> RuleTable.mNum rt' = RuleTable.mNum rt.
Proof.
  intros (_ & _ & Hd). unfold RuleTable.mNum.
  rewrite (Forall2_length _ _ _ Hd). reflexivity.
Qed.

(** The write of [DT_Subtable] into a slot that is not a token slot. *)
Lemma set_child_type_relabelled (m : Tables) (p : N) (i : nat) :
  (forall rt d, table_at m p = Some rt -> RuleTable.mData rt !! i = Some d ->
                TableData.mType d <> DT_Token) ->
  relabelled m (set_child_type m p i DT_Subtable).
Proof.
  intros Hslot. unfold set_child_type.
  apply Forall2_alter_r; [apply relabelled_refl|].
  intros rt rt' Hrt Hrt' _. assert (rt' = rt) as -> by congruence.
  split; [reflexivity|]. split; [reflexivity|]. cbn [RuleTable.mData].
  apply Forall2_alter_r.
  - apply Forall2_same_length_lookup_2; [reflexivity|].
    intros k x y Hx Hy. assert (x = y) as -> by congruence. apply data_le_refl.
  - intros d d' Hd Hd' _. assert (d' = d) as -> by congruence.
    split; [reflexivity|]. right. split; [|reflexivity].
    eapply Hslot; eassumption.
Qed.

Lemma set_child_type_table (m : Tables) (p : N) (i : nat) (rt : RuleTable.t) :
  table_at m p = Some rt ->
  exists rt', table_at (set_child_type m p i DT_Subtable) p = Some rt' /\
              drop (S i) (RuleTable.mData rt') = drop (S i) (RuleTable.mData rt).
Proof.
  intros Hp. unfold table_at, set_child_type in *.
  rewrite list_lookup_alter_eq, Hp. cbn. eexists. split; [reflexivity|].
  cbn [RuleTable.mData]. apply list_eq. intros k.
  rewrite !lookup_drop. apply list_lookup_alter_ne. lia.
Qed.

(** A step of a walk made in rewritten tables agrees with the path in the
    original tables. *)
Lemma follow_relabelled_step (m0 m : Tables) (prev : N) (parent : RuleTable.t)
    (index : N) (node : FronNodeType * N) (rest : list N) (p : N) :
  relabelled m0 m -> table_at m prev = Some parent ->
  RuleFindChildAtIndex parent index = Ok node -> node.1 = FNT_Rule ->
  follow m0 prev (index :: rest) = Some p ->
  follow m0 node.2 rest = Some p.
Proof.
  intros Hle Hprev Hfind Hrule Hfollow.
  destruct (RuleFindChildAtIndex_rule _ _ _ Hfind Hrule) as (data & Hd & _ & He).
  cbn [follow] in Hfollow.
  destruct (table_at m0 prev) as [rt0|] eqn:Hp0; [|discriminate].
  destruct (RuleTable.mData rt0 !! N.to_nat index) as [d0|] eqn:Hd0; [|discriminate].
  destruct (decide (TableData.mType d0 = DT_Subtable)); [|discriminate].
  destruct (relabelled_table _ _ _ _ Hle Hp0) as (rt' & Hp' & _ & _ & Hdata).
  assert (rt' = parent) as -> by congruence.
  pose proof (Forall2_lookup_lr _ _ _ _ _ _ Hdata Hd0 Hd) as [Hsame _].
  unfold TableData.mEntry in *. rewrite <- He, Hsame. exact Hfollow.
Qed.

(** *** The FronNodes that one rule on a circle contributes *)

Lemma oneof_fron_le (nodes : list N) (j next : N) (d d' : TableData.t) :
  data_le d d' -> oneof_fron nodes j next d' = oneof_fron nodes j next d.
Proof.
  intros [Hdata Hty]. unfold oneof_fron, TableData.mToken, TableData.mEntry.
  rewrite Hdata. destruct Hty as [-> | [Hne Hsub]]; [reflexivity|].
  rewrite (decide_False (P := TableData.mType d = DT_Token)) by exact Hne.
  rewrite decide_False by (rewrite Hsub; discriminate). reflexivity.
Qed.

Lemma oneof_fron_pos (nodes : list N) (j next : N) (d : TableData.t) :
  Forall (fun f => FronNode.mPos f = j) (oneof_fron nodes j next d).
Proof.
  unfold oneof_fron. repeat case_match; repeat constructor.
Qed.

Lemma rule_fron_le (nodes : list N) (j next child_index : N)
    (rt rt' : RuleTable.t) :
  table_le rt rt' ->
  rule_fron nodes j next child_index rt' = rule_fron nodes j next child_index rt.
Proof.
  intros Hle. pose proof (table_le_mNum _ _ Hle) as Hnum.
  destruct Hle as (Hty & _ & Hdata). unfold rule_fron. rewrite Hty, Hnum.
  destruct (RuleTable.mType rt); try reflexivity.
  induction Hdata as [|d d' l l' Hd _ IH]; [reflexivity|].
  cbn [flat_map]. rewrite IH, (oneof_fron_le _ _ _ _ _ Hd). reflexivity.
Qed.

Lemma rule_fron_pos (nodes : list N) (j next child_index : N) (rt : RuleTable.t) :
  Forall (fun f => FronNode.mPos f = j) (rule_fron nodes j next child_index rt).
Proof.
  unfold rule_fron. destruct (RuleTable.mType rt); try constructor.
  - induction (RuleTable.mData rt) as [|d l IH]; [constructor|].
    cbn [flat_map]. apply Forall_app. split; [apply oneof_fron_pos | exact IH].
  - case_match; repeat constructor.
Qed.

Lemma filter_all {A : Type} (P : A -> Prop) `{forall x, Decision (P x)}
    (l : list A) :
  Forall P l -> filter P l = l.
Proof.
  induction 1 as [|x l Hx _ IH]; [reflexivity|].
  rewrite filter_cons_True by exact Hx. rewrite IH. reflexivity.
Qed.

Lemma filter_none {A : Type} (P : A -> Prop) `{forall x, Decision (P x)}
    (l : list A) :
  Forall (fun x => ~ P x) l -> filter P l = [].
Proof.
  induction 1 as [|x l Hx _ IH]; [reflexivity|].
  rewrite filter_cons_False by exact Hx. exact IH.
Qed.

Lemma drop_cons_inv {A : Type} (l : list A) (i : nat) (x : A) (rest : list A) :
  drop i l = x :: rest -> l !! i = Some x /\ rest = drop (S i) l.
Proof.
  intros Hdrop. assert (Hx : l !! i = Some x).
  { replace i with (i + 0)%nat by lia. rewrite <- lookup_drop, Hdrop. reflexivity. }
  split; [exact Hx|]. rewrite (drop_S _ _ _ Hx) in Hdrop. congruence.
Qed.

Section Analysis.

Variable DataType_enum : DataType -> N.

(** The children loop of FindFronNodes, started on the slots of [prev]
    from slot [i] on: which tags it rewrites and which nodes it adds. *)
Lemma oneof_children_spec (nodes : list N) (j prev next : N)
    (children : list TableData.t) :
  forall (i : nat) (m : Tables) (fron : list FronNode.t) (rt : RuleTable.t)
         (m' : Tables) (fron' : list FronNode.t),
  table_at m prev = Some rt -> children = drop i (RuleTable.mData rt) ->
  oneof_children DataType_enum nodes j prev next i children (m, fron)
    = Ok (m', fron') ->
  relabelled m m' /\
  fron' = fron ++ flat_map (oneof_fron nodes j next) children.
Proof.
  induction children as [|d rest IH]; intros i m fron rt m' fron' Hrt Hdrop Hloop.
  - injection Hloop as <- <-. split; [apply relabelled_refl|].
    rewrite app_nil_r. reflexivity.
  - symmetry in Hdrop. apply drop_cons_inv in Hdrop as [Hd Hrest].
    cbn [oneof_children flat_map] in Hloop |- *. rsplit Hloop.
    destruct a as [m1 fron1]. unfold oneof_fron at 1.
    destruct (decide (TableData.mType d = DT_Token)) as [Htok|Htok].
    + injection Hstep as <- <-.
      destruct (IH _ _ _ _ _ _ Hrt Hrest Hloop) as [Hle ->].
      split; [exact Hle|]. rewrite <- app_assoc. reflexivity.
    + destruct (assigned_Subtable_holds DataType_enum); [|discriminate].
      destruct (set_child_type_table m prev i rt Hrt) as (rt1 & Hrt1 & Hdrop1).
      assert (Hle1 : relabelled m (set_child_type m prev i DT_Subtable)).
      { apply set_child_type_relabelled. intros rt2 d2 Hrt2 Hd2.
        assert (rt2 = rt) as -> by congruence.
        assert (d2 = d) as -> by congruence. exact Htok. }
      assert (Hrest1 : rest = drop (S i) (RuleTable.mData rt1))
        by (rewrite Hdrop1; exact Hrest).
      destruct (negb (IsRecursionNode nodes (TableData.mEntry d))
                && negb (TableData.mEntry d =? next)%N);
        injection Hstep as <- <-;
        destruct (IH _ _ _ _ _ _ Hrt1 Hrest1 Hloop) as [Hle ->];
        (split; [exact (relabelled_trans _ _ _ Hle1 Hle)|]);
        rewrite <- ?app_assoc; reflexivity.
Qed.

Lemma lead_oneof_children_spec (lead : N) (circle_indices : list N)
    (children : list TableData.t) :
  forall (i : nat) (m : Tables) (fron : list FronNode.t) (rt : RuleTable.t)
         (m' : Tables) (fron' : list FronNode.t),
  table_at m lead = Some rt -> children = drop i (RuleTable.mData rt) ->
  lead_oneof_children DataType_enum lead circle_indices i children (m, fron)
    = Ok (m', fron') ->
  relabelled m m' /\
  fron' = fron ++ flat_map (lead_oneof_fron (lead_found 0 circle_indices))
                           children.
Proof.
  induction children as [|d rest IH]; intros i m fron rt m' fron' Hrt Hdrop Hloop.
  - injection Hloop as <- <-. split; [apply relabelled_refl|].
    rewrite app_nil_r. reflexivity.
  - symmetry in Hdrop. apply drop_cons_inv in Hdrop as [Hd Hrest].
    cbn [lead_oneof_children flat_map] in Hloop |- *. rsplit Hloop.
    destruct a as [m1 fron1]. unfold lead_oneof_fron at 1.
    destruct (decide (TableData.mType d = DT_Token)) as [Htok|Htok].
    + injection Hstep as <- <-.
      destruct (IH _ _ _ _ _ _ Hrt Hrest Hloop) as [Hle ->].
      split; [exact Hle|]. rewrite <- app_assoc. reflexivity.
    + destruct (assigned_Subtable_holds DataType_enum); [|discriminate].
      destruct (set_child_type_table m lead i rt Hrt) as (rt1 & Hrt1 & Hdrop1).
      assert (Hle1 : relabelled m (set_child_type m lead i DT_Subtable)).
      { apply set_child_type_relabelled. intros rt2 d2 Hrt2 Hd2.
        assert (rt2 = rt) as -> by congruence.
        assert (d2 = d) as -> by congruence. exact Htok. }
      assert (Hrest1 : rest = drop (S i) (RuleTable.mData rt1))
        by (rewrite Hdrop1; exact Hrest).
      destruct (lead_found 0 circle_indices); injection Hstep as <- <-;
        destruct (IH _ _ _ _ _ _ Hrt1 Hrest1 Hloop) as [Hle ->];
        (split; [exact (relabelled_trans _ _ _ Hle1 Hle)|]);
        rewrite <- ?app_assoc; reflexivity.
Qed.

Lemma fron_of_rule_spec (nodes : list N) (j prev next child_index : N)
    (prev_table : RuleTable.t) (m : Tables) (fron : list FronNode.t)
    (m' : Tables) (fron' : list FronNode.t) :
  table_at m prev = Some prev_table ->
  fron_of_rule DataType_enum nodes j prev next child_index prev_table (m, fron)
    = Ok (m', fron') ->
  relabelled m m' /\
  fron' = fron ++ rule_fron nodes j next child_index prev_table.
Proof.
  intros Hprev Hrule. unfold fron_of_rule, rule_fron in *.
  destruct (RuleTable.mType prev_table).
  - exact (oneof_children_spec nodes j prev next _ 0%nat m fron prev_table
             m' fron' Hprev eq_refl Hrule).
  - rsplit Hrule. injection Hrule as <- <-.
    split; [apply relabelled_refl | rewrite app_nil_r; reflexivity].
  - rsplit Hrule. injection Hrule as <- <-.
    split; [apply relabelled_refl | rewrite app_nil_r; reflexivity].
  - destruct (child_index <? usub (RuleTable.mNum prev_table) 1)%N;
      injection Hrule as <- <-;
      (split; [apply relabelled_refl | rewrite ?app_nil_r; reflexivity]).
  - rsplit Hrule. injection Hrule as <- <-.
    split; [apply relabelled_refl | rewrite app_nil_r; reflexivity].
  - discriminate.
Qed.

End Analysis.

(** *** The FronNodes of a circle *)

Section Walk.

Variable DataType_enum : DataType -> N.
Variable m0 : Tables.
Variable nodes : list N.
Variable lead : N.

Lemma circle_fron_nodes_spec (circle : list N) (len : N) (n : nat) :
  forall (j prev : N) (m : Tables) (fron : list FronNode.t)
         (m' : Tables) (fron' : list FronNode.t),
  relabelled m0 m ->
  circle_fron_nodes DataType_enum nodes lead circle len n j prev (m, fron)
    = Ok (m', fron') ->
  relabelled m0 m' /\
  exists added, fron' = fron ++ added /\
                walk_added m0 nodes circle j n prev added.
Proof.
  induction n as [|n IH]; intros j prev m fron m' fron' Hle Hwalk.
  - injection Hwalk as <- <-. split; [exact Hle|]. exists [].
    split; [rewrite app_nil_r; reflexivity|]. split; [constructor|].
    intros k ? ? ? Hk. lia.
  - cbn [circle_fron_nodes fst] in Hwalk. rsplit Hwalk.
    rename a into child_index, a0 into prev_table, a1 into node.
    apply of_access_Ok in Hstep, Hstep0.
    apply MASSERT_Ok, bool_decide_eq_true in Hstep2. clear Hstep3 a2 a3.
    set (step_added := if (j =? 1)%N then []
                       else rule_fron nodes j node.2 child_index prev_table).
    assert (Hrest : exists m1, relabelled m m1 /\
              circle_fron_nodes DataType_enum nodes lead circle len n
                (j + 1)%N node.2 (m1, fron ++ step_added) = Ok (m', fron')).
    { subst step_added. destruct (j =? 1)%N.
      - exists m. split; [apply relabelled_refl|].
        rewrite app_nil_r. exact Hwalk.
      - rsplit Hwalk. destruct a as [m1 fron1].
        apply fron_of_rule_spec in Hstep3 as [Hle1 ->]; [|exact Hstep0].
        exists m1. split; [exact Hle1 | exact Hwalk]. }
    destruct Hrest as (m1 & Hle1 & Hrest).
    destruct (IH _ _ _ _ _ _ (relabelled_trans _ _ _ Hle Hle1) Hrest)
      as (Hle' & added' & -> & Hpos' & Hchar').
    assert (Hstep_pos : Forall (fun f => FronNode.mPos f = j) step_added).
    { subst step_added. destruct (j =? 1)%N; [constructor|].
      apply rule_fron_pos. }
    split; [exact Hle'|]. exists (step_added ++ added').
    split; [rewrite app_assoc; reflexivity|]. split.
    + apply Forall_app. split.
      * eapply Forall_impl; [exact Hstep_pos|]. cbn. intros f ->. lia.
      * eapply Forall_impl; [exact Hpos'|]. cbn. intros f Hf. lia.
    + intros k p rt ci Hk Hge Hfollow Hrt Hci. destruct k as [|k].
      * cbn in Hfollow. injection Hfollow as <-.
        rewrite Nat.add_0_r in Hci.
        assert (ci = child_index) as -> by congruence.
        destruct (relabelled_table _ _ _ _ Hle Hrt) as (rt' & Hrt' & Hrt_le).
        assert (rt' = prev_table) as -> by congruence.
        replace (j + N.of_nat 0)%N with j by lia.
        exists node.2. split.
        -- rewrite filter_app, (filter_all _ step_added) by exact Hstep_pos.
           rewrite filter_none, app_nil_r.
           ++ subst step_added. destruct (N.eqb_spec j 1); [lia|].
              apply rule_fron_le. exact Hrt_le.
           ++ eapply Forall_impl; [exact Hpos'|]. cbn. intros f Hf. lia.
        -- intros nxt Hnxt.
           pose proof (follow_relabelled_step _ _ _ _ _ _ [] _
                         Hle Hstep0 Hstep1 Hstep2 Hnxt) as Heq.
           cbn in Heq. congruence.
      * rewrite (drop_lookup_cons _ _ _ Hstep) in Hfollow.
        cbn [take] in Hfollow.
        apply (follow_relabelled_step _ _ _ _ _ _ _ _
                 Hle Hstep0 Hstep1 Hstep2) in Hfollow.
        replace (S (N.to_nat j)) with (N.to_nat (j + 1)) in Hfollow by lia.
        replace (j + N.of_nat (S k))%N with (j + 1 + N.of_nat k)%N by lia.
        destruct (Hchar' k p rt ci) as (next & Hfilter & Hnext);
          [lia | lia | exact Hfollow | exact Hrt | |].
        { rewrite <- Hci. f_equal. lia. }
        exists next. split; [|exact Hnext].
        rewrite filter_app, filter_none, app_nil_l; [exact Hfilter|].
        eapply Forall_impl; [exact Hstep_pos|]. cbn. intros f ->. lia.
Qed.

Variable circles : list (list N).

Local Abbreviation circle_result := (circle_result m0 nodes lead circles).

Lemma FindFronNodes_circle_spec (c : nat) (m : Tables)
    (frons : list (list FronNode.t)) (m' : Tables)
    (frons' : list (list FronNode.t)) :
  relabelled m0 m ->
  FindFronNodes_circle DataType_enum nodes lead circles c (m, frons)
    = Ok (m', frons') ->
  relabelled m0 m' /\
  exists fr0 fr, frons !! c = Some fr0 /\ frons' = <[c := fr]> frons /\
                 circle_result c fr0 fr.
Proof.
  intros Hle Hcall. unfold FindFronNodes_circle in Hcall.
  cbn [fst snd] in Hcall. rsplit Hcall.
  rename a into circle, a0 into len, a1 into fr0. destruct a2 as [m1 fr].
  apply of_access_Ok in Hstep, Hstep0, Hstep1. injection Hcall as <- <-.
  destruct (circle_fron_nodes_spec _ _ _ _ _ _ _ _ _ Hle Hstep2)
    as (Hle' & added & -> & Hadded).
  split; [exact Hle'|]. exists fr0, (fr0 ++ added).
  split; [exact Hstep1|]. split; [reflexivity|].
  exists circle, len, added. auto.
Qed.

Lemma FindFronNodes_from_spec (n : nat) :
  forall (i : nat) (m : Tables) (frons : list (list FronNode.t))
         (m' : Tables) (frons' : list (list FronNode.t)),
  relabelled m0 m ->
  FindFronNodes_from DataType_enum nodes lead circles n i (m, frons)
    = Ok (m', frons') ->
  relabelled m0 m' /\
  (forall c, (c < i \/ i + n <= c)%nat -> frons' !! c = frons !! c) /\
  (forall c, (i <= c < i + n)%nat ->
     exists fr0 fr, frons !! c = Some fr0 /\ frons' !! c = Some fr /\
                    circle_result c fr0 fr).
Proof.
  induction n as [|n IH]; intros i m frons m' frons' Hle Hloop.
  - injection Hloop as <- <-. split; [exact Hle|].
    split; [reflexivity|]. intros c Hc. lia.
  - cbn [FindFronNodes_from] in Hloop. rsplit Hloop. destruct a as [m1 frons1].
    destruct (FindFronNodes_circle_spec _ _ _ _ _ Hle Hstep)
      as (Hle1 & fr0 & fr & Hfr0 & -> & Hres).
    destruct (IH _ _ _ _ _ Hle1 Hloop) as (Hle' & Hout & Hin).
    split; [exact Hle'|]. split.
    + intros c Hc. rewrite Hout by lia. apply list_lookup_insert_ne. lia.
    + intros c Hc. destruct (decide (c = i)) as [->|Hne].
      * exists fr0, fr. split; [exact Hfr0|]. split; [|exact Hres].
        rewrite Hout by lia. apply list_lookup_insert_eq.
        eapply lookup_lt_Some. exact Hfr0.
      * destruct (Hin c) as (fr0' & fr' & Hfr0' & Hfr' & Hres'); [lia|].
        exists fr0', fr'. split; [|split; assumption].
        rewrite list_lookup_insert_ne in Hfr0' by lia. exact Hfr0'.
Qed.

End Walk.

(** *** Recursion::Init *)

Lemma follow_cons_Some (m : Tables) (p i : N) (rest : list N) (q : N) :
  follow m p (i :: rest) = Some q ->
  exists rt d, table_at m p = Some rt /\
               RuleTable.mData rt !! N.to_nat i = Some d /\
               TableData.mType d = DT_Subtable /\
               follow m (TableData.mEntry d) rest = Some q.
Proof.
  cbn [follow]. intros Hf.
  destruct (table_at m p) as [rt|]; [|discriminate].
  destruct (RuleTable.mData rt !! N.to_nat i) as [d|] eqn:Hd; [|discriminate].
  destruct (decide (TableData.mType d = DT_Subtable)) as [Hty|]; [|discriminate].
  exists rt, d. auto.
Qed.

Lemma follow_app (m : Tables) (l1 l2 : list N) :
  forall p, follow m p (l1 ++ l2) = follow m p l1 ≫= fun q => follow m q l2.
Proof.
  induction l1 as [|i l1 IH]; intros p; [reflexivity|].
  cbn [app follow]. repeat case_match; try reflexivity. apply IH.
Qed.

(** A child index met on a closed circle is a valid index of its rule. *)
Lemma circle_index_valid (m : Tables) (lead : N) (circle : list N) (len : nat)
    (j : nat) (p : N) (rt : RuleTable.t) (i q : N) :
  follow m lead (take len (drop 1 circle)) = Some q ->
  (1 <= j <= len)%nat ->
  follow m lead (take (j - 1) (drop 1 circle)) = Some p ->
  table_at m p = Some rt -> circle !! j = Some i ->
  (i < RuleTable.mNum rt)%N.
Proof.
  intros Hclosed Hj Hp Hrt Hi.
  replace len with ((j - 1) + S (len - j))%nat in Hclosed by lia.
  rewrite <- take_take_drop, follow_app, Hp in Hclosed. cbn in Hclosed.
  rewrite drop_drop in Hclosed.
  replace (1 + (j - 1))%nat with j in Hclosed by lia.
  rewrite (drop_lookup_cons _ _ _ Hi) in Hclosed.
  apply follow_cons_Some in Hclosed as (rt' & d & Hrt' & Hd & _).
  assert (rt' = rt) as -> by congruence.
  apply lookup_lt_Some in Hd. unfold RuleTable.mNum. lia.
Qed.

(** The unsigned test [i < mNum - 1] on a valid child index. *)
Lemma not_last_child (i num : N) :
  (i < num)%N -> (num < UINT_MOD)%N ->
  (i <? usub num 1)%N = (i + 1 <? num)%N /\
  ((i + 1 < num)%N -> uadd i 1 = (i + 1)%N).
Proof.
  unfold usub, uadd, UINT_MOD. intros Hi Hnum.
  change (1 mod 4294967296)%N with 1%N.
  assert (((num + 4294967296 - 1) mod 4294967296) = num - 1)%N as ->.
  { symmetry. apply (N.mod_unique _ _ 1%N); lia. }
  split.
  - destruct (N.ltb_spec i (num - 1)), (N.ltb_spec (i + 1) num);
      lia || reflexivity.
  - intros Hlt. apply N.mod_small. lia.
Qed.

Lemma lead_concat_circles_spec (lead_mNum : N) (circles : list (list N)) :
  forall fron fron',
  lead_concat_circles lead_mNum circles fron = Ok fron' ->
  Forall (fun circle => exists num, circle !! 0%nat = Some num /\ (2 <= num)%N)
         circles /\
  fron' = fron ++
    flat_map (fun circle =>
                match circle !! 1%nat with
                | Some i => if (i <? usub lead_mNum 1)%N
                            then [FronNode.mk 0 FNT_Concat (uadd i 1)]
                            else []
                | None => []
                end) circles.
Proof.
  induction circles as [|circle rest IH]; intros fron fron' Hloop.
  - injection Hloop as <-. rewrite app_nil_r. split; [constructor | reflexivity].
  - cbn [lead_concat_circles flat_map] in Hloop |- *. rsplit Hloop.
    apply of_access_Ok in Hstep, Hstep1.
    apply MASSERT_Ok, N.leb_le in Hstep0. rewrite Hstep1.
    destruct (IH _ _ Hloop) as [Hall ->]. split.
    + constructor; [eauto | exact Hall].
    + destruct (a1 <? usub lead_mNum 1)%N.
      * rewrite <- app_assoc. reflexivity.
      * reflexivity.
Qed.

Lemma flat_map_ext_Forall {A B : Type} (f g : A -> list B) (l : list A) :
  Forall (fun x => f x = g x) l -> flat_map f l = flat_map g l.
Proof.
  induction 1 as [|x l Hx _ IH]; [reflexivity|].
  cbn [flat_map]. rewrite Hx, IH. reflexivity.
Qed.

Section InitFacts.

Variable DataType_enum : DataType -> N.

Lemma Init_Ok (gLeftRecursionsNum : N) (m : Tables) (lr : LeftRecursion.t)
    (m' : Tables) (r : t) :
  Init DataType_enum gLeftRecursionsNum m lr = Ok (m', r) ->
  let lead := LeftRecursion.mRuleTable lr in
  let circles := LeftRecursion.mCircles lr in
  exists nodes m1 lead_fron fron,
    FindRecursionNodes m lead circles = Ok nodes /\
    FindLeadFronNodes DataType_enum m lead circles = Ok (m1, lead_fron) /\
    FindFronNodes DataType_enum nodes lead circles
      (m1, replicate (N.to_nat gLeftRecursionsNum) []) = Ok (m', fron) /\
    r = mk lead (N.of_nat (length circles)) circles nodes lead_fron fron.
Proof.
  unfold Init. intros Hinit. rsplit Hinit.
  destruct a0 as [m1 lead_fron]. rsplit Hinit.
  destruct a0 as [m2 fron]. injection Hinit as <- <-.
  cbn. eauto 10.
Qed.

Lemma FindLeadFronNodes_spec (m : Tables) (lead : N)
    (circles : list (list N)) (m1 : Tables) (lead_fron : list FronNode.t) :
  FindLeadFronNodes DataType_enum m lead circles = Ok (m1, lead_fron) ->
  relabelled m m1 /\
  exists lead_table, table_at m lead = Some lead_table /\
    match RuleTable.mType lead_table with
    | ET_Oneof =>
        exists circle_indices,
          circle_first_indices circles = Ok circle_indices /\
          lead_fron = flat_map
                        (lead_oneof_fron (lead_found 0 circle_indices))
                        (RuleTable.mData lead_table)
    | ET_Concatenate =>
        lead_concat_circles (RuleTable.mNum lead_table) circles []
          = Ok lead_fron
    | _ => False
    end.
Proof.
  unfold FindLeadFronNodes. intros Hcall. rsplit Hcall.
  rename a into lead_table. apply of_access_Ok in Hstep.
  destruct (RuleTable.mType lead_table) eqn:Hty; rsplit Hcall;
    try discriminate.
  - destruct (lead_oneof_children_spec DataType_enum lead a _ 0%nat m []
                lead_table m1 lead_fron Hstep eq_refl Hcall) as [Hle ->].
    split; [exact Hle|]. exists lead_table. rewrite Hty. eauto.
  - injection Hcall as <- <-. split; [apply relabelled_refl|].
    exists lead_table. rewrite Hty. auto.
Qed.

(** What Init stores for circle [c], in terms of the tables it was
    given. *)
Lemma Init_circle (gLeftRecursionsNum : N) (m : Tables)
    (lr : LeftRecursion.t) (m' : Tables) (r : t) (c : nat)
    (circle : list N) :
  Init DataType_enum gLeftRecursionsNum m lr = Ok (m', r) ->
  LeftRecursion.mCircles lr !! c = Some circle ->
  exists len fron,
    circle !! 0%nat = Some len /\ mFronNodes r !! c = Some fron /\
    walk_added m (mRecursionNodes r) circle 1 (N.to_nat len)
               (LeftRecursion.mRuleTable lr) fron.
Proof.
  intros Hinit Hc.
  destruct (Init_Ok _ _ _ _ _ Hinit)
    as (nodes & m1 & lead_fron & fron & Hnodes & Hlead & Hfron & ->).
  apply FindLeadFronNodes_spec in Hlead as [Hle _].
  unfold FindFronNodes in Hfron.
  destruct (FindFronNodes_from_spec DataType_enum m nodes
              (LeftRecursion.mRuleTable lr) (LeftRecursion.mCircles lr)
              _ _ _ _ _ _ Hle Hfron) as (_ & _ & Hin).
  destruct (Hin c) as (fr0 & fr & Hfr0 & Hfr & Hres).
  { apply lookup_lt_Some in Hc. lia. }
  apply lookup_replicate_1 in Hfr0 as [-> _].
  destruct Hres as (circle' & len & added & Hc' & Hlen & -> & Hadded).
  assert (circle' = circle) as -> by congruence.
  exists len, added. cbn. auto.
Qed.

End InitFacts.

(** The RecursionNodes that [Init] stores are those of FindRecursionNodes
    on the tables as given. *)
Lemma Init_nodes_spec (DataType_enum : DataType -> N)
    (gLeftRecursionsNum : N) (m : Tables) (lr : LeftRecursion.t)
    (m' : Tables) (r : t) :
  Init DataType_enum gLeftRecursionsNum m lr = Ok (m', r) ->
  let lead := LeftRecursion.mRuleTable lr in
  let circles := LeftRecursion.mCircles lr in
  NoDup (mRecursionNodes r) /\
  (forall rt, rt ∈ mRecursionNodes r <->
     rt = lead \/
     exists circle len pos,
       circle ∈ circles /\ circle !! 0%nat = Some len /\
       (0 < pos < N.to_nat len)%nat /\
       follow m lead (take pos (drop 1 circle)) = Some rt) /\
  (forall circle len,
     circle ∈ circles -> circle !! 0%nat = Some len ->
     follow m lead (take (N.to_nat len) (drop 1 circle)) = Some lead).
Proof.
  intros Hinit lead circles.
  destruct (Init_Ok _ _ _ _ _ _ Hinit)
    as (nodes & m1 & lead_fron & fron & Hnodes & _ & _ & ->).
  cbn [mRecursionNodes]. unfold FindRecursionNodes in Hnodes.
  destruct (FindRecursionNodes_circles_spec _ _ _ _ _ Hnodes)
    as (Hnd & Hin & Hback).
  split; [apply Hnd, NoDup_singleton|]. split; [|exact Hback].
  intros rt. rewrite Hin, list_elem_of_singleton. reflexivity.
Qed.

(** C4. After [Init] the RecursionNodes hold no table twice; they are the
    LeadNode and the tables reached by following a proper prefix of the
    child indices of some circle (every position but the last, whose
    target is the back edge); and following all the child indices of any
    circle leads back to the LeadNode. *)
Theorem Init_RecursionNodes (DataType_enum : DataType -> N)
    (gLeftRecursionsNum : N) (m : Tables) (lr : LeftRecursion.t)
    (m' : Tables) (r : t) :
  Init DataType_enum gLeftRecursionsNum m lr = Ok (m', r) ->
  let lead := LeftRecursion.mRuleTable lr in
  let circles := LeftRecursion.mCircles lr in
  NoDup (mRecursionNodes r) /\
  (forall rt, rt ∈ mRecursionNodes r <->
     rt = lead \/
     exists circle len pos,
       circle ∈ circles /\ circle !! 0%nat = Some len /\
       (0 < pos < N.to_nat len)%nat /\
       follow m lead (take pos (drop 1 circle)) = Some rt) /\
  (forall circle len,
     circle ∈ circles -> circle !! 0%nat = Some len ->
     follow m lead (take (N.to_nat len) (drop 1 circle)) = Some lead).
Proof.
  intros Hinit lead circles.
  destruct (Init_nodes_spec _ _ _ _ _ _ Hinit) as (Hnd & Hin & Hback).
  split; [exact Hnd|]. split; [exact Hin | exact Hback].
Qed.

(** C3. A Concatenate rule that a circle leaves through child [i]
    contributes one FronNode of kind FNT_Concat with start index [i+1] when
    [i] is not its last child, and none when it is.  For a Concatenate
    LeadNode these are the LeadFronNodes, one circle after the other; for a
    Concatenate rule met at position [j-1 >= 1] of circle [c] they are the
    FronNodes of that circle recorded with position [j]. *)
Theorem Concatenate_FronNode (DataType_enum : DataType -> N)
    (gLeftRecursionsNum : N) (m : Tables) (lr : LeftRecursion.t)
    (m' : Tables) (r : t) :
  Init DataType_enum gLeftRecursionsNum m lr = Ok (m', r) ->
  let lead := LeftRecursion.mRuleTable lr in
  let circles := LeftRecursion.mCircles lr in
  (forall lead_table,
     table_at m lead = Some lead_table ->
     RuleTable.mType lead_table = ET_Concatenate ->
     (RuleTable.mNum lead_table < UINT_MOD)%N ->
     mLeadFronNodes r =
       flat_map (fun circle =>
                   match circle !! 1%nat with
                   | Some i => if (i + 1 <? RuleTable.mNum lead_table)%N
                               then [FronNode.mk 0 FNT_Concat (i + 1)]
                               else []
                   | None => []
                   end) circles) /\
  (forall (c : nat) (circle : list N) (len : N) (j : nat) (p : N)
          (rt : RuleTable.t) (i : N),
     circles !! c = Some circle -> circle !! 0%nat = Some len ->
     (2 <= j <= N.to_nat len)%nat ->
     follow m lead (take (j - 1) (drop 1 circle)) = Some p ->
     table_at m p = Some rt ->
     RuleTable.mType rt = ET_Concatenate ->
     (RuleTable.mNum rt < UINT_MOD)%N ->
     circle !! j = Some i ->
     exists fron,
       mFronNodes r !! c = Some fron /\
       filter (fun f => FronNode.mPos f = N.of_nat j) fron =
         if (i + 1 <? RuleTable.mNum rt)%N
         then [FronNode.mk (N.of_nat j) FNT_Concat (i + 1)]
         else []).
Proof.
  intros Hinit lead circles.
  destruct (Init_nodes_spec _ _ _ _ _ _ Hinit) as (_ & _ & Hback).
  fold lead circles in Hback. split.
  - intros lead_table Hlead Hty Hnum.
    destruct (Init_Ok _ _ _ _ _ _ Hinit)
      as (nodes & m1 & lead_fron & fron & _ & Hlf & _ & ->).
    apply FindLeadFronNodes_spec in Hlf as (_ & lead_table' & Hlead' & Hlf).
    fold lead in Hlead'. assert (lead_table' = lead_table) as -> by congruence.
    rewrite Hty in Hlf. apply lead_concat_circles_spec in Hlf as [Hall ->].
    cbn [mLeadFronNodes app]. apply flat_map_ext_Forall.
    apply Forall_forall. intros circle Hin.
    destruct (circle !! 1%nat) as [i|] eqn:Hi; [|reflexivity].
    rewrite Forall_forall in Hall. destruct (Hall _ Hin) as (len & Hlen & Hge).
    assert (Hvalid : (i < RuleTable.mNum lead_table)%N).
    { eapply (circle_index_valid m lead circle (N.to_nat len) 1 lead);
        [exact (Hback _ _ Hin Hlen) | lia | reflexivity | exact Hlead | exact Hi]. }
    destruct (not_last_child _ _ Hvalid Hnum) as [-> Hadd].
    destruct (N.ltb_spec (i + 1) (RuleTable.mNum lead_table)); [|reflexivity].
    rewrite Hadd by assumption. reflexivity.
  - intros c circle len j p rt i Hc Hlen Hj Hp Hrt Hty Hnum Hi.
    destruct (Init_circle _ _ _ _ _ _ c circle Hinit Hc)
      as (len' & fron & Hlen' & Hfron & _ & Hadded).
    assert (len' = len) as -> by congruence.
    exists fron. split; [exact Hfron|].
    destruct (Hadded (j - 1)%nat p rt i) as (next & Hfilter & _);
      [lia | lia | exact Hp | exact Hrt | |].
    { rewrite <- Hi. f_equal. lia. }
    replace (1 + N.of_nat (j - 1))%N with (N.of_nat j) in Hfilter by lia.
    rewrite Hfilter. unfold rule_fron. rewrite Hty.
    assert (Hvalid : (i < RuleTable.mNum rt)%N).
    { eapply (circle_index_valid m lead circle (N.to_nat len) j p);
        [apply Hback; [eapply list_elem_of_lookup_2; exact Hc | exact Hlen]
        | lia | exact Hp | exact Hrt | exact Hi]. }
    destruct (not_last_child _ _ Hvalid Hnum) as [-> Hadd].
    destruct (N.ltb_spec (i + 1) (RuleTable.mNum rt)); [|reflexivity].
    rewrite Hadd by assumption. reflexivity.
Qed.



(** What [Init] records as LeadFronNodes of a OneOf LeadNode: every token
    child, and either every other child or none of them, according to a
    search in [circle_indices] that does not depend on the child. *)
Lemma Init_OneOf_LeadFronNodes (DataType_enum : DataType -> N)
    (gLeftRecursionsNum : N) (m : Tables) (lr : LeftRecursion.t)
    (m' : Tables) (r : t) (lead_table : RuleTable.t) :
  Init DataType_enum gLeftRecursionsNum m lr = Ok (m', r) ->
  table_at m (LeftRecursion.mRuleTable lr) = Some lead_table ->
  RuleTable.mType lead_table = ET_Oneof ->
  exists circle_indices,
    circle_first_indices (LeftRecursion.mCircles lr) = Ok circle_indices /\
    mLeadFronNodes r =
      flat_map (lead_oneof_fron (lead_found 0 circle_indices))
               (RuleTable.mData lead_table).
Proof.
  intros Hinit Hlead Hty.
  destruct (Init_Ok _ _ _ _ _ _ Hinit)
    as (nodes & m1 & lead_fron & fron & _ & Hlf & _ & ->).
  apply FindLeadFronNodes_spec in Hlf as (_ & lead_table' & Hlead' & Hlf).
  assert (lead_table' = lead_table) as -> by congruence.
  rewrite Hty in Hlf. exact Hlf.
Qed.

Lemma Init_RecursionNodes_witness :
  match Init declared_enum 1 Add_tables Add_recursion with
  | Ok (_, r) => NoDup (mRecursionNodes r) /\ 2%N ∈ mRecursionNodes r
  | Fail _ => False
  end.
Proof.
  destruct (Init declared_enum 1 Add_tables Add_recursion)
    as [[m' r]|f] eqn:Hinit.
  - destruct (Init_RecursionNodes _ _ _ _ _ _ Hinit) as (Hnd & Hin & _).
    split; [exact Hnd|]. apply Hin. right.
    exists [2; 1; 0]%N, 2%N, 1%nat.
    split; [left|]. split; [reflexivity|]. split; [cbn; lia | reflexivity].
  - vm_compute in Hinit. discriminate.
Defined.

Lemma Concatenate_FronNode_witness :
  match Init declared_enum 1 ABCD_tables ABCD_recursion with
  | Ok (_, r) => mLeadFronNodes r = [FronNode.mk 0 FNT_Concat 1]
  | Fail _ => False
  end /\
  match Init declared_enum 1 Add_tables Add_recursion with
  | Ok (_, r) =>
      exists fron, mFronNodes r !! 0%nat = Some fron /\
        filter (fun f => FronNode.mPos f = 2%N) fron
          = [FronNode.mk 2 FNT_Concat 1]
  | Fail _ => False
  end.
Proof.
  split.
  - destruct (Init declared_enum 1 ABCD_tables ABCD_recursion)
      as [[m' r]|f] eqn:Hinit.
    + rewrite (proj1 (Concatenate_FronNode _ _ _ _ _ _ Hinit)
                 (RuleTable.mk ET_Concatenate [sub 1; sub 2; sub 3] [])
                 eq_refl eq_refl eq_refl).
      reflexivity.
    + vm_compute in Hinit. discriminate.
  - destruct (Init declared_enum 1 Add_tables Add_recursion)
      as [[m' r]|f] eqn:Hinit.
    + apply (proj2 (Concatenate_FronNode _ _ _ _ _ _ Hinit)
               0%nat [2; 1; 0]%N 2%N 2%nat 2%N
               (RuleTable.mk ET_Concatenate [sub 0; tok 7; sub 1] []) 0%N);
        try reflexivity.
      cbn. lia.
    + vm_compute in Hinit. discriminate.
Defined.

(** C1 (the code departs from the claim).  On [Add : ONEOF(Id, Add '+' Id)]
    the slot of the concatenation is where the only circle starts, yet
    the concatenation (table 2) is recorded as a LeadFronNode; on the same
    rule with the alternatives swapped no LeadFronNode is recorded, although
    Id (table 1) is on no circle.  The search that decides it compares the
    loop counter [k] with [circle_indices[k]], not the child index. *)
Theorem LeadFronNodes_ignore_child_index :
  (exists m' r,
     Init declared_enum 1 Add_tables Add_recursion = Ok (m', r) /\
     circle_first_indices (LeftRecursion.mCircles Add_recursion) = Ok [1%N] /\
     mLeadFronNodes r = [FronNode.mk 0 FNT_Rule 1; FronNode.mk 0 FNT_Rule 2]) /\
  (exists m' r,
     Init declared_enum 1 AddSwapped_tables AddSwapped_recursion = Ok (m', r) /\
     circle_first_indices (LeftRecursion.mCircles AddSwapped_recursion)
       = Ok [0%N] /\
     mLeadFronNodes r = []).
Proof.
  split; eexists _, _; (split; [vm_compute; reflexivity|]);
    split; reflexivity.
Qed.

(** C2 (the code departs from the claim).  In
    [Access : ONEOF(Primary, 'c')] the character slot is neither a token
    nor a sub-table, yet the assignment in the test makes it a sub-table
    slot and its payload is recorded as a FronNode of kind FNT_Rule. *)
Theorem FronNodes_record_relabelled_slot :
  exists m' r,
    Init declared_enum 1 Char_tables Char_recursion = Ok (m', r) /\
    mRecursionNodes r = [0; 1]%N /\
    mFronNodes r = [[FronNode.mk 2 FNT_Rule 99]] /\
    table_at m' 1 = Some (RuleTable.mk ET_Oneof [sub 0; sub 99] []).
Proof.
  eexists _, _. split; [vm_compute; reflexivity|].
  repeat split; reflexivity.
Qed.

(** *** Queries on a Recursion after Init *)

Lemma RuleFindChildAtIndex_relabelled (parent parent' : RuleTable.t)
    (index : N) (node : FronNodeType * N) :
  table_le parent parent' ->
  RuleFindChildAtIndex parent index = Ok node -> node.1 = FNT_Rule ->
  RuleFindChildAtIndex parent' index = Ok node.
Proof.
  intros (Hty & _ & Hdata) Hfind Hrule.
  assert (Hslot : forall i d, RuleTable.mData parent !! i = Some d ->
            child_node d = Ok node ->
            exists d', RuleTable.mData parent' !! i = Some d' /\
                       child_node d' = Ok node).
  { intros i d Hd Hchild.
    destruct (Forall2_lookup_l _ _ _ _ _ Hdata Hd) as (d' & Hd' & Hsame & Htag).
    exists d'. split; [exact Hd'|].
    destruct (child_node_rule _ _ Hchild Hrule) as [Hsub Hentry].
    assert (Hsub' : TableData.mType d' = DT_Subtable)
      by (destruct Htag as [Htag|[_ Htag]]; congruence).
    unfold child_node, TableData.mEntry in *. rewrite Hsub'.
    rewrite Hsub in Hchild. congruence. }
  unfold RuleFindChildAtIndex in *. rewrite Hty.
  destruct (RuleTable.mType parent); try discriminate; rsplit Hfind.
  all: try (rewrite Hstep; cbn).
  all: match goal with
       | Ha : of_access _ = Ok ?d |- _ =>
           apply of_access_Ok in Ha;
           destruct (Hslot _ _ Ha Hfind) as (d' & -> & Hchild'); exact Hchild'
       end.
Qed.

(** A walk that FindRecursionNodes made succeeds again, to any position
    of the circle, in the tables that the analysis leaves. *)
Lemma rule_on_circle_after_nodes (m0 m : Tables) (lead : N) (circle : list N)
    (len : N) (n : nat) :
  relabelled m0 m ->
  forall (j prev : N) (nodes nodes' : list N) (n' : nat),
    circle_nodes m0 lead circle len n j prev nodes = Ok nodes' ->
    (n' <= n)%nat ->
    exists q, rule_on_circle m lead circle len n' j prev = Ok q /\
              follow m0 prev (take n' (drop (N.to_nat j) circle)) = Some q.
Proof.
  intros Hle. induction n as [|n IH]; intros j prev nodes nodes' n' Hwalk Hn'.
  - assert (n' = 0%nat) as -> by lia. exists prev. split; reflexivity.
  - destruct n' as [|n']; [exists prev; split; reflexivity|].
    cbn [circle_nodes] in Hwalk. rsplit Hwalk.
    rename a into child_index, a0 into parent, a1 into node, a3 into nodes1.
    apply of_access_Ok in Hstep, Hstep0.
    pose proof Hstep2 as Hrule. apply MASSERT_Ok, bool_decide_eq_true in Hrule.
    destruct (relabelled_table _ _ _ _ Hle Hstep0) as (parent' & Hparent' & Htle).
    pose proof (RuleFindChildAtIndex_relabelled _ _ _ _ Htle Hstep1 Hrule)
      as Hfind'.
    destruct (IH (j + 1)%N node.2 nodes1 nodes' n' Hwalk ltac:(lia))
      as (q & Hq & Hfollow).
    exists q. split.
    + cbn [rule_on_circle]. rewrite Hstep, Hparent'. cbn.
      rewrite Hfind'. cbn. rewrite Hstep2. cbn.
      destruct (j =? len)%N.
      * rsplit Hstep3. rewrite Hstep4. cbn. exact Hq.
      * cbn. exact Hq.
    + rewrite (drop_lookup_cons _ _ _ Hstep). cbn [take].
      rewrite (follow_step m0 prev parent child_index node _ Hstep0 Hstep1 Hrule).
      replace (S (N.to_nat j)) with (N.to_nat (j + 1)) by lia. exact Hfollow.
Qed.

Lemma FindRecursionNodes_circles_walk (m : Tables) (lead : N)
    (circles : list (list N)) :
  forall nodes nodes' c circle,
    FindRecursionNodes_circles m lead circles nodes = Ok nodes' ->
    circles !! c = Some circle ->
    exists len nodes1 nodes2,
      circle !! 0%nat = Some len /\
      circle_nodes m lead circle len (N.to_nat len) 1 lead nodes1 = Ok nodes2.
Proof.
  induction circles as [|circle0 rest IH]; intros nodes nodes' c circle Hall Hc;
    [discriminate|].
  cbn [FindRecursionNodes_circles] in Hall. rsplit Hall.
  apply of_access_Ok in Hstep. destruct c as [|c].
  - injection Hc as <-. eauto.
  - eapply IH; [exact Hall | exact Hc].
Qed.

(** X14. FindRuleOnCircle after Init: for a circle of the recursion and a
    position up to its length the query succeeds in the tables that Init
    leaves, and the rule it returns is the one that the first [pos]
    child indices of the circle lead to from the LeadNode, is one of the
    RecursionNodes, and is the LeadNode at position 0 and at the last
    position; a position beyond the length fails the assertion. *)
Theorem FindRuleOnCircle_after_Init (DataType_enum : DataType -> N)
    (gLeftRecursionsNum : N) (m : Tables) (lr : LeftRecursion.t)
    (m' : Tables) (r : t) (c : nat) (circle : list N) (len pos : N) :
  Init DataType_enum gLeftRecursionsNum m lr = Ok (m', r) ->
  mCircles r !! c = Some circle -> circle !! 0%nat = Some len ->
  if (pos <=? len)%N
  then exists rt,
         FindRuleOnCircle m' (mLeadNode r) (mCircles r) c pos = Ok rt /\
         follow m (mLeadNode r) (take (N.to_nat pos) (drop 1 circle)) = Some rt /\
         IsRecursionNode (mRecursionNodes r) rt = true /\
         (pos = 0%N \/ pos = len -> rt = mLeadNode r)
  else FindRuleOnCircle m' (mLeadNode r) (mCircles r) c pos = Fail AssertFail.
Proof.
  intros Hinit Hc Hlen.
  destruct (Init_nodes_spec _ _ _ _ _ _ Hinit) as (_ & Hin & Hback).
  destruct (Init_Ok _ _ _ _ _ _ Hinit)
    as (nodes & m1 & lead_fron & fron & Hnodes & Hlead & Hfron & ->).
  cbn [mCircles mLeadNode mRecursionNodes] in *.
  unfold FindRuleOnCircle. rewrite Hc. cbn. rewrite Hlen. cbn.
  destruct (N.leb_spec pos len) as [Hpos|Hpos]; [|reflexivity]. cbn.
  assert (Hle : relabelled m m').
  { apply FindLeadFronNodes_spec in Hlead as [Hle1 _].
    unfold FindFronNodes in Hfron.
    eapply (FindFronNodes_from_spec DataType_enum m); [exact Hle1 | exact Hfron]. }
  unfold FindRecursionNodes in Hnodes.
  destruct (FindRecursionNodes_circles_walk _ _ _ _ _ _ _ Hnodes Hc)
    as (len' & nodes1 & nodes2 & Hlen' & Hwalk).
  assert (len' = len) as -> by congruence.
  destruct (rule_on_circle_after_nodes m m' _ _ _ _ Hle _ _ _ _ (N.to_nat pos)
              Hwalk ltac:(lia)) as (q & Hq & Hfollow).
  change (N.to_nat 1) with 1%nat in Hfollow.
  exists q. split; [exact Hq|]. split; [exact Hfollow|].
  assert (Hcircle : circle ∈ LeftRecursion.mCircles lr)
    by (eapply list_elem_of_lookup_2; exact Hc).
  assert (Hends : pos = 0%N \/ pos = len -> q = LeftRecursion.mRuleTable lr).
  { intros [->| ->].
    - rewrite take_0 in Hfollow. cbn [follow] in Hfollow. congruence.
    - rewrite (Hback _ _ Hcircle Hlen) in Hfollow. congruence. }
  split; [|exact Hends].
  apply IsRecursionNode_spec, Hin.
  destruct (decide (pos = 0%N \/ pos = len)) as [Hend|Hmid]; [left; auto|].
  right. exists circle, len, (N.to_nat pos).
  split; [exact Hcircle|]. split; [exact Hlen|]. split; [lia | exact Hfollow].
Qed.

Lemma Init_relabelled (DataType_enum : DataType -> N)
    (gLeftRecursionsNum : N) (m : Tables) (lr : LeftRecursion.t)
    (m' : Tables) (r : t) :
  Init DataType_enum gLeftRecursionsNum m lr = Ok (m', r) -> relabelled m m'.
Proof.
  intros Hinit.
  destruct (Init_Ok _ _ _ _ _ _ Hinit)
    as (nodes & m1 & lead_fron & fron & _ & Hlead & Hfron & _).
  apply FindLeadFronNodes_spec in Hlead as [Hle1 _].
  unfold FindFronNodes in Hfron.
  eapply (FindFronNodes_from_spec DataType_enum m); [exact Hle1 | exact Hfron].
Qed.

Lemma data_le_tagged (d d' : TableData.t) :
  data_le d d' ->
  TableData.mType d = DT_Token \/ TableData.mType d = DT_Subtable -> d' = d.
Proof.
  intros [Hsame Htag] Hkind. destruct d as [ty v], d' as [ty' v']. cbn in *.
  subst v'. f_equal. destruct Htag as [Htag|[Hne Htag]]; [exact Htag|].
  destruct Hkind as [Hk|Hk]; congruence.
Qed.

Lemma relabelled_tagged (m m' : Tables) :
  relabelled m m' ->
  Forall (fun rt => Forall (fun d => TableData.mType d = DT_Token \/
                                     TableData.mType d = DT_Subtable)
                           (RuleTable.mData rt)) m ->
  m' = m.
Proof.
  intros Hle. induction Hle as [|rt rt' m m' (Hty & Hact & Hdata) _ IH];
    intros Hall; [reflexivity|].
  apply Forall_cons in Hall as [Hrt Hall]. rewrite (IH Hall). f_equal.
  destruct rt as [ty data acts], rt' as [ty' data' acts']. cbn in *. subst.
  f_equal. clear IH Hall. induction Hdata as [|d d' l l' Hd _ IHd];
    [reflexivity|].
  apply Forall_cons in Hrt as [Hkind Hrest].
  rewrite (data_le_tagged _ _ Hd Hkind), (IHd Hrest). reflexivity.
Qed.

(** X15. What Init does to the rule tables: nothing but to rewrite the
    tag of a slot that is not a token slot to [DT_Subtable].  The number
    of tables, and the kind, the actions, the number of slots and every
    payload of each table stay; and tables in which every slot is a token
    slot or a sub-table slot come back as they were. *)
Theorem Init_only_relabels (DataType_enum : DataType -> N)
    (gLeftRecursionsNum : N) (m : Tables) (lr : LeftRecursion.t)
    (m' : Tables) (r : t) :
  Init DataType_enum gLeftRecursionsNum m lr = Ok (m', r) ->
  length m' = length m /\
  (forall p rt, table_at m p = Some rt ->
     exists rt', table_at m' p = Some rt' /\
       RuleTable.mType rt' = RuleTable.mType rt /\
       RuleTable.mActions rt' = RuleTable.mActions rt /\
       RuleTable.mNum rt' = RuleTable.mNum rt /\
       forall i d, RuleTable.mData rt !! i = Some d ->
         exists d', RuleTable.mData rt' !! i = Some d' /\
           TableData.mData d' = TableData.mData d /\
           (TableData.mType d' = TableData.mType d \/
            (TableData.mType d <> DT_Token /\
             TableData.mType d' = DT_Subtable))) /\
  (Forall (fun rt => Forall (fun d => TableData.mType d = DT_Token \/
                                      TableData.mType d = DT_Subtable)
                            (RuleTable.mData rt)) m ->
   m' = m).
Proof.
  intros Hinit. pose proof (Init_relabelled _ _ _ _ _ _ Hinit) as Hle.
  split; [symmetry; eapply Forall2_length; exact Hle|].
  split; [|apply relabelled_tagged, Hle].
  intros p rt Hp.
  destruct (relabelled_table _ _ _ _ Hle Hp) as (rt' & Hp' & Htle).
  exists rt'. split; [exact Hp'|].
  pose proof (table_le_mNum _ _ Htle) as Hnum.
  destruct Htle as (Hty & Hact & Hdata).
  split; [exact Hty|]. split; [exact Hact|]. split; [exact Hnum|].
  intros i d Hd.
  destruct (Forall2_lookup_l _ _ _ _ _ Hdata Hd) as (d' & Hd' & Hsame & Htag).
  exists d'. auto.
Qed.

Lemma lookup_same_length {A : Type} (l l' : list A) :
  (forall c, is_Some (l' !! c) <-> is_Some (l !! c)) -> length l' = length l.
Proof.
  intros Hsame.
  destruct (Nat.lt_trichotomy (length l') (length l)) as [Hlt|[Heq|Hgt]];
    [|exact Heq|].
  - apply lookup_lt_is_Some_2, Hsame, lookup_lt_is_Some_1 in Hlt. lia.
  - apply lookup_lt_is_Some_2, Hsame, lookup_lt_is_Some_1 in Hgt. lia.
Qed.

(** X16. The vectors of FronNodes are allocated by the number of
    recursions of the grammar and indexed by circle: after Init there
    are [gLeftRecursionsNum] of them, so Init can only succeed for a
    recursion with no more circles than the grammar has recursions, and
    the vectors beyond the circles stay empty.  The LeadNode, the circles
    and their number are those of the descriptor. *)
Theorem Init_FronNodes_allocation (DataType_enum : DataType -> N)
    (gLeftRecursionsNum : N) (m : Tables) (lr : LeftRecursion.t)
    (m' : Tables) (r : t) :
  Init DataType_enum gLeftRecursionsNum m lr = Ok (m', r) ->
  mLeadNode r = LeftRecursion.mRuleTable lr /\
  mCircles r = LeftRecursion.mCircles lr /\
  mNum r = N.of_nat (length (LeftRecursion.mCircles lr)) /\
  length (mFronNodes r) = N.to_nat gLeftRecursionsNum /\
  (length (LeftRecursion.mCircles lr) <= N.to_nat gLeftRecursionsNum)%nat /\
  (forall c, (length (LeftRecursion.mCircles lr) <= c
              < N.to_nat gLeftRecursionsNum)%nat ->
             mFronNodes r !! c = Some []).
Proof.
  intros Hinit.
  destruct (Init_Ok _ _ _ _ _ _ Hinit)
    as (nodes & m1 & lead_fron & fron & _ & Hlead & Hfron & ->).
  cbn [mLeadNode mCircles mNum mFronNodes].
  split; [reflexivity|]. split; [reflexivity|]. split; [reflexivity|].
  apply FindLeadFronNodes_spec in Hlead as [Hle1 _].
  unfold FindFronNodes in Hfron.
  destruct (FindFronNodes_from_spec DataType_enum m nodes
              (LeftRecursion.mRuleTable lr) (LeftRecursion.mCircles lr)
              _ _ _ _ _ _ Hle1 Hfron) as (_ & Hout & Hin).
  set (circles := LeftRecursion.mCircles lr) in *.
  set (fron0 := replicate (N.to_nat gLeftRecursionsNum) []) in *.
  assert (Hlen0 : length fron0 = N.to_nat gLeftRecursionsNum)
    by apply length_replicate.
  assert (Hsame : forall c, is_Some (fron !! c) <-> is_Some (fron0 !! c)).
  { intros c. destruct (decide (c < length circles)%nat) as [Hc|Hc].
    - destruct (Hin c ltac:(lia)) as (fr0 & fr & -> & -> & _).
      split; eauto.
    - rewrite (Hout c) by lia. reflexivity. }
  split; [rewrite (lookup_same_length _ _ Hsame); exact Hlen0|]. split.
  - destruct (decide (length circles = 0%nat)) as [->|Hne]; [lia|].
    destruct (Hin (length circles - 1)%nat ltac:(lia)) as (fr0 & _ & Hfr0 & _).
    apply lookup_lt_Some in Hfr0. lia.
  - intros c Hc. rewrite (Hout c) by lia.
    apply lookup_replicate_2. lia.
Qed.

(** *** RecursionAll *)

Lemma RecursionAll_Init_from_spec (DataType_enum : DataType -> N)
    (gLeftRecursionsNum : N) (gLeftRecursions : list LeftRecursion.t) (n : nat) :
  forall i m recs m' recs',
    RecursionAll.Init_from DataType_enum gLeftRecursionsNum gLeftRecursions
      n i (m, recs) = Ok (m', recs') ->
    relabelled m m' /\
    exists added,
      recs' = recs ++ added /\ length added = n /\
      forall k rec, added !! k = Some rec ->
        exists lr, gLeftRecursions !! (i + k)%nat = Some lr /\
                   mLeadNode rec = LeftRecursion.mRuleTable lr /\
                   mCircles rec = LeftRecursion.mCircles lr.
Proof.
  induction n as [|n IH]; intros i m recs m' recs' Hrun.
  - injection Hrun as <- <-. split; [apply relabelled_refl|].
    exists []. rewrite app_nil_r. split; [reflexivity|]. split; [reflexivity|].
    intros k rec Hk. discriminate.
  - cbn [RecursionAll.Init_from fst snd] in Hrun. rsplit Hrun.
    destruct a0 as [m1 rec]. apply of_access_Ok in Hstep.
    destruct (IH _ _ _ _ _ Hrun) as (Hle & added & -> & Hlen & Hall).
    pose proof (Init_relabelled _ _ _ _ _ _ Hstep0) as Hle1.
    destruct (Init_Ok _ _ _ _ _ _ Hstep0) as (? & ? & ? & ? & _ & _ & _ & Hrec).
    split; [eapply relabelled_trans; eassumption|].
    exists (rec :: added). split; [rewrite <- app_assoc; reflexivity|].
    split; [cbn; lia|].
    intros [|k] rec' Hk.
    + injection Hk as <-. exists a. rewrite Nat.add_0_r. subst rec.
      split; [exact Hstep | split; reflexivity].
    + destruct (Hall k rec' Hk) as (lr & Hlr & Hrest). exists lr.
      replace (i + S k)%nat with (S i + k)%nat by lia. auto.
Qed.

Lemma FindRecursion_Some (recs : list t) (rt : N) (rec : t) :
  RecursionAll.FindRecursion recs rt = Some rec ->
  exists i, recs !! i = Some rec /\ mLeadNode rec = rt /\
            forall k rec', (k < i)%nat -> recs !! k = Some rec' ->
                           mLeadNode rec' <> rt.
Proof.
  induction recs as [|r0 rest IH]; cbn; [discriminate|].
  destruct (N.eqb_spec (mLeadNode r0) rt) as [Heq|Hne].
  - intros [= <-]. exists 0%nat. split; [reflexivity|]. split; [exact Heq|].
    intros k rec' Hk. lia.
  - intros Hfind. destruct (IH Hfind) as (i & Hi & Hlead & Hfirst).
    exists (S i). split; [exact Hi|]. split; [exact Hlead|].
    intros [|k] rec' Hk Hrec'; [injection Hrec' as <-; exact Hne|].
    apply (Hfirst k); [lia | exact Hrec'].
Qed.

Lemma FindRecursion_None (recs : list t) (rt : N) :
  RecursionAll.FindRecursion recs rt = None ->
  forall rec, rec ∈ recs -> mLeadNode rec <> rt.
Proof.
  induction recs as [|r0 rest IH]; cbn; [intros _ rec Hin; inversion Hin|].
  destruct (N.eqb_spec (mLeadNode r0) rt) as [Heq|Hne]; [discriminate|].
  intros Hfind rec Hin. apply elem_of_cons in Hin as [->|Hin]; [exact Hne|].
  apply IH; assumption.
Qed.

(** X17. RecursionAll after its Init: there is one Recursion for each of
    the [gLeftRecursionsNum] descriptors, in their order and with their
    LeadNode and circles; IsLeadNode answers true exactly for the
    LeadNodes of the descriptors, and FindRecursion returns the first
    Recursion with the LeadNode asked for.  The tables went through the
    Init of every recursion and differ from the given ones by rewritten
    slot tags only. *)
Theorem RecursionAll_after_Init (DataType_enum : DataType -> N)
    (gLeftRecursionsNum : N) (gLeftRecursions : list LeftRecursion.t)
    (m m' : Tables) (recs : list t) :
  RecursionAll.Init DataType_enum gLeftRecursionsNum gLeftRecursions m
    = Ok (m', recs) ->
  relabelled m m' /\
  length recs = N.to_nat gLeftRecursionsNum /\
  (forall i rec, recs !! i = Some rec ->
     exists lr, gLeftRecursions !! i = Some lr /\
                mLeadNode rec = LeftRecursion.mRuleTable lr /\
                mCircles rec = LeftRecursion.mCircles lr) /\
  (forall rt, RecursionAll.IsLeadNode recs rt = true <->
     exists i lr, (i < N.to_nat gLeftRecursionsNum)%nat /\
                  gLeftRecursions !! i = Some lr /\
                  LeftRecursion.mRuleTable lr = rt) /\
  (forall rt rec, RecursionAll.FindRecursion recs rt = Some rec ->
     exists i, recs !! i = Some rec /\ mLeadNode rec = rt /\
               forall k rec', (k < i)%nat -> recs !! k = Some rec' ->
                              mLeadNode rec' <> rt).
Proof.
  unfold RecursionAll.Init. intros Hrun.
  destruct (RecursionAll_Init_from_spec _ _ _ _ _ _ _ _ _ Hrun)
    as (Hle & added & -> & Hlen & Hall).
  cbn [app] in *. split; [exact Hle|]. split; [exact Hlen|].
  split; [exact Hall|]. split; [|apply FindRecursion_Some].
  intros rt. unfold RecursionAll.IsLeadNode.
  destruct (RecursionAll.FindRecursion added rt) as [rec|] eqn:Hfind.
  - split; [intros _|reflexivity].
    destruct (FindRecursion_Some _ _ _ Hfind) as (i & Hi & Hlead & _).
    destruct (Hall i rec Hi) as (lr & Hlr & Hrt & _).
    exists i, lr. split; [|split; [exact Hlr | congruence]].
    apply lookup_lt_Some in Hi. lia.
  - split; [discriminate|]. intros (i & lr & Hi & Hlr & Hrt). exfalso.
    destruct (lookup_lt_is_Some_2 added i ltac:(lia)) as [rec Hrec].
    destruct (Hall i rec Hrec) as (lr' & Hlr' & Hlead & _).
    change (0 + i)%nat with i in Hlr'.
    assert (lr' = lr) as -> by congruence.
    eapply (FindRecursion_None _ _ Hfind rec);
      [eapply list_elem_of_lookup_2; exact Hrec | congruence].
Qed.

(** *** The LeadFronNodes of a OneOf LeadNode *)

Lemma lead_found_spec (indices : list N) :
  forall k, lead_found k indices = true <->
            exists i, indices !! i = Some (k + N.of_nat i)%N.
Proof.
  induction indices as [|v rest IH]; intros k; cbn [lead_found].
  - split; [discriminate | intros [i Hi]; discriminate].
  - destruct (N.eqb_spec k v) as [->|Hne].
    + split; [intros _|reflexivity]. exists 0%nat.
      change ((v :: rest) !! 0%nat) with (Some v). f_equal. lia.
    + rewrite IH. split.
      * intros [i Hi]. exists (S i).
        change ((v :: rest) !! S i) with (rest !! i). rewrite Hi. f_equal. lia.
      * intros [[|i] Hi].
        -- change ((v :: rest) !! 0%nat) with (Some v) in Hi.
           injection Hi as ->. lia.
        -- change ((v :: rest) !! S i) with (rest !! i) in Hi.
           exists i. rewrite Hi. f_equal. lia.
Qed.

Lemma circle_first_indices_spec (circles : list (list N)) :
  forall indices,
    circle_first_indices circles = Ok indices ->
    forall i v, indices !! i = Some v <->
                exists circle, circles !! i = Some circle /\
                               circle !! 1%nat = Some v.
Proof.
  induction circles as [|circle rest IH]; intros indices Hall.
  - injection Hall as <-. intros i v. split; [discriminate|].
    intros (c & Hc & _). discriminate.
  - cbn [circle_first_indices] in Hall. rsplit Hall. injection Hall as <-.
    apply of_access_Ok in Hstep1. intros [|i] v; cbn.
    + split.
      * intros [= <-]. eauto.
      * intros (c & [= <-] & Hv). congruence.
    + apply IH. exact Hstep2.
Qed.

(** X18. The LeadFronNodes of a OneOf LeadNode as the code computes
    them: every token child gives a token node; the search among the
    first indices of the circles compares the number [k] of a circle with
    the first index of that circle and does not look at the child, so the
    other children give a rule node each, all of them or none: none
    exactly when some circle [k] starts with child index [k]. *)
Theorem OneOf_LeadFronNodes_all_or_none (DataType_enum : DataType -> N)
    (gLeftRecursionsNum : N) (m : Tables) (lr : LeftRecursion.t)
    (m' : Tables) (r : t) (lead_table : RuleTable.t) :
  Init DataType_enum gLeftRecursionsNum m lr = Ok (m', r) ->
  table_at m (LeftRecursion.mRuleTable lr) = Some lead_table ->
  RuleTable.mType lead_table = ET_Oneof ->
  let hit := exists k circle,
               LeftRecursion.mCircles lr !! k = Some circle /\
               circle !! 1%nat = Some (N.of_nat k) in
  (hit ->
   mLeadFronNodes r
     = flat_map (fun d => if decide (TableData.mType d = DT_Token)
                          then [FronNode.mk 0 FNT_Token (TableData.mToken d)]
                          else [])
                (RuleTable.mData lead_table)) /\
  (~ hit ->
   mLeadFronNodes r
     = (fun d => if decide (TableData.mType d = DT_Token)
                 then FronNode.mk 0 FNT_Token (TableData.mToken d)
                 else FronNode.mk 0 FNT_Rule (TableData.mEntry d))
       <$> RuleTable.mData lead_table).
Proof.
  intros Hinit Htable Hkind hit.
  destruct (Init_OneOf_LeadFronNodes _ _ _ _ _ _ _ Hinit Htable Hkind)
    as (indices & Hindices & ->).
  pose proof (circle_first_indices_spec _ _ Hindices) as Hspec.
  assert (Hfound : lead_found 0 indices = true <-> hit).
  { rewrite lead_found_spec. unfold hit. split.
    - intros [i Hi]. apply Hspec in Hi as (circle & Hc & Hv). eauto.
    - intros (k & circle & Hc & Hv). exists k. apply Hspec. eauto. }
  split; intros Hhit.
  - apply Hfound in Hhit. rewrite Hhit.
    apply flat_map_ext. intros d. unfold lead_oneof_fron.
    destruct (decide (TableData.mType d = DT_Token)); reflexivity.
  - assert (lead_found 0 indices = false) as ->
      by (destruct (lead_found 0 indices); [exfalso; tauto | reflexivity]).
    induction (RuleTable.mData lead_table) as [|d rest IH]; [reflexivity|].
    cbn [flat_map fmap list_fmap]. rewrite IH. unfold lead_oneof_fron.
    destruct (decide (TableData.mType d = DT_Token)); reflexivity.
Qed.

Lemma FindRuleOnCircle_after_Init_witness :
  match Init declared_enum 1 Add_tables Add_recursion with
  | Ok (m', r) =>
      exists rt, FindRuleOnCircle m' (mLeadNode r) (mCircles r) 0 1 = Ok rt /\
                 IsRecursionNode (mRecursionNodes r) rt = true
  | Fail _ => False
  end.
Proof.
  destruct (Init declared_enum 1 Add_tables Add_recursion)
    as [[m' r]|f] eqn:Hinit.
  - assert (Hc : mCircles r !! 0%nat = Some [2; 1; 0]%N)
      by (vm_compute in Hinit; injection Hinit as <- <-; reflexivity).
    pose proof (FindRuleOnCircle_after_Init _ _ _ _ _ _ 0%nat _ 2%N 1%N
                  Hinit Hc eq_refl) as (rt & Hfind & _ & Hnode & _).
    exists rt. split; assumption.
  - vm_compute in Hinit. discriminate.
Defined.

Lemma Init_only_relabels_witness :
  match Init declared_enum 1 Add_tables Add_recursion with
  | Ok (m', r) => m' = Add_tables
  | Fail _ => False
  end.
Proof.
  destruct (Init declared_enum 1 Add_tables Add_recursion)
    as [[m' r]|f] eqn:Hinit.
  - apply (Init_only_relabels _ _ _ _ _ _ Hinit).
    apply (bool_decide_unpack _). vm_compute. exact I.
  - vm_compute in Hinit. discriminate.
Defined.

Lemma Init_FronNodes_allocation_witness :
  match Init declared_enum 3 Add_tables Add_recursion with
  | Ok (m', r) => length (mFronNodes r) = 3%nat /\ mFronNodes r !! 2%nat = Some []
  | Fail _ => False
  end.
Proof.
  destruct (Init declared_enum 3 Add_tables Add_recursion)
    as [[m' r]|f] eqn:Hinit.
  - destruct (Init_FronNodes_allocation _ _ _ _ _ _ Hinit)
      as (_ & _ & _ & Hlen & _ & Hrest).
    split; [exact Hlen|]. apply Hrest. cbn. lia.
  - vm_compute in Hinit. discriminate.
Defined.

Lemma RecursionAll_after_Init_witness :
  match RecursionAll.Init declared_enum 1 Add_gLeftRecursions Add_tables with
  | Ok (m', recs) =>
      length recs = 1%nat /\ RecursionAll.IsLeadNode recs 0 = true
  | Fail _ => False
  end.
Proof.
  destruct (RecursionAll.Init declared_enum 1 Add_gLeftRecursions Add_tables)
    as [[m' recs]|f] eqn:Hinit.
  - destruct (RecursionAll_after_Init _ _ _ _ _ _ Hinit)
      as (_ & Hlen & _ & Hlead & _).
    split; [exact Hlen|]. apply Hlead.
    exists 0%nat, Add_recursion. split; [cbn; lia|]. split; reflexivity.
  - vm_compute in Hinit. discriminate.
Defined.

Lemma OneOf_LeadFronNodes_all_or_none_witness :
  match Init declared_enum 1 AddSwapped_tables AddSwapped_recursion with
  | Ok (m', r) => mLeadFronNodes r = []
  | Fail _ => False
  end.
Proof.
  destruct (Init declared_enum 1 AddSwapped_tables AddSwapped_recursion)
    as [[m' r]|f] eqn:Hinit.
  - apply (proj1 (OneOf_LeadFronNodes_all_or_none _ _ _ _ _ _
                    (RuleTable.mk ET_Oneof [sub 2; sub 1] [])
                    Hinit eq_refl eq_refl)).
    exists 0%nat, [2; 0; 0]%N. split; reflexivity.
  - vm_compute in Hinit. discriminate.
Defined.


End RecursionFacts.

(** ** AST construction *)

Module ASTFacts.
Import AST.

Section Builder.

Variables Unary Binary Ternary Pre Post : N.
Variable CreateTokenTreeNode : N -> option TreeNode.
Variable Build : N -> list Param -> Result (option TreeNode).
Variable GetSortedChildByIndex : AppealNode -> N -> Result (option AppealNode).

Local Abbreviation GetOperatorProperty :=
  (GetOperatorProperty Unary Binary Ternary Pre Post).
Local Abbreviation Manipulate2Binary :=
  (Manipulate2Binary Unary Binary Ternary Pre Post).
Local Abbreviation Manipulate := (Manipulate Unary Binary Ternary Pre Post).
Local Abbreviation action_params := (action_params GetSortedChildByIndex).
Local Abbreviation run_actions := (run_actions Build GetSortedChildByIndex).
Local Abbreviation NewTreeNode :=
  (NewTreeNode Unary Binary Ternary Pre Post CreateTokenTreeNode Build
     GetSortedChildByIndex).

Lemma foldl_AddChild (trees children : list TreeNode) :
  foldl AddChild (PassNode children) trees = PassNode (children ++ trees).
Proof.
  revert children. induction trees as [|t trees IH]; intros children; cbn.
  - rewrite app_nil_r. reflexivity.
  - rewrite IH, <- app_assoc. reflexivity.
Qed.

(** C8. A rule appeal node whose actions build no tree (in particular a
    rule without actions) and of whose sorted children exactly one has
    an AST subtree gets that very subtree. *)
Theorem NewTreeNode_single_child (rule_table : RuleTable.t)
    (children : list AppealNode) (ast : option TreeNode) (only : TreeNode) :
  let appeal_node := TableAppeal rule_table children ast in
  run_actions appeal_node (RuleTable.mActions rule_table) None = Ok None ->
  child_trees appeal_node = [only] ->
  NewTreeNode appeal_node = Ok (Some only).
Proof.
  intros appeal_node Hactions Htrees. subst appeal_node. unfold NewTreeNode.
  rewrite Hactions. cbn [mbind Result_bind]. unfold Manipulate.
  rewrite Htrees. reflexivity.
Qed.

(** C5. A rule appeal node whose actions build no tree and whose sorted
    children have exactly two AST subtrees, the first a parenthesis
    node, gets a Cast node: its destination type is the expression
    inside the parentheses and its operand is the second subtree. *)
Theorem NewTreeNode_cast (rule_table : RuleTable.t)
    (children : list AppealNode) (ast : option TreeNode)
    (type_expr : option TreeNode) (child_b : TreeNode) :
  let appeal_node := TableAppeal rule_table children ast in
  run_actions appeal_node (RuleTable.mActions rule_table) None = Ok None ->
  child_trees appeal_node = [ParenthesisNode type_expr; child_b] ->
  NewTreeNode appeal_node = Ok (Some (CastNode type_expr (Some child_b))).
Proof.
  intros appeal_node Hactions Htrees. subst appeal_node. unfold NewTreeNode.
  rewrite Hactions. cbn [mbind Result_bind]. unfold Manipulate.
  rewrite Htrees. reflexivity.
Qed.

(** C6. A rule appeal node whose actions build no tree and whose sorted
    children have exactly two AST subtrees, the first not a parenthesis
    node and the second a unary operation whose operator has both the
    unary and the binary property, gets a binary operation with that
    operator, the first subtree as left operand and the operand of the
    unary operation as right operand. *)
Theorem NewTreeNode_binary (rule_table : RuleTable.t)
    (children : list AppealNode) (ast : option TreeNode)
    (child_a : TreeNode) (is_post : bool) (opr : OprId) (opnd : TreeNode)
    (property : N) :
  let appeal_node := TableAppeal rule_table children ast in
  run_actions appeal_node (RuleTable.mActions rule_table) None = Ok None ->
  child_trees appeal_node
    = [child_a; UnaOperatorNode is_post opr (Some opnd)] ->
  IsParenthesis child_a = false ->
  GetOperatorProperty opr = Ok property ->
  N.land property Unary <> 0%N -> N.land property Binary <> 0%N ->
  NewTreeNode appeal_node
    = Ok (Some (BinOperatorNode opr (Some child_a) (Some opnd))).
Proof.
  intros appeal_node Hactions Htrees Hparen Hprop Hunary Hbinary.
  subst appeal_node. unfold NewTreeNode.
  rewrite Hactions. cbn [mbind Result_bind]. unfold Manipulate.
  rewrite Htrees.
  assert (Manipulate2Cast child_a (UnaOperatorNode is_post opr (Some opnd))
          = None) as ->.
  { destruct child_a; try reflexivity. discriminate. }
  unfold Manipulate2Binary. rewrite Hprop. cbn [mbind Result_bind].
  apply N.eqb_neq in Hunary, Hbinary. rewrite Hunary, Hbinary. reflexivity.
Qed.

End Builder.

Lemma size_member (l : list TreeNode) (x : TreeNode) :
  In x l -> size x <= list_sum (map size l).
Proof.
  induction l as [|y l IH]; [intros []|].
  intros [->|Hin]; cbn [map list_sum fold_right]; [lia|].
  specialize (IH Hin). unfold list_sum in IH. lia.
Qed.

Lemma merge_children_app (merge : TreeNode -> list TreeNode -> Result (list TreeNode))
    (contents : TreeNode -> list TreeNode) (children : list TreeNode) :
  Forall (fun c => forall members, merge c members = Ok (members ++ contents c))
         children ->
  forall members,
    merge_children merge children members
      = Ok (members ++ flat_map contents children).
Proof.
  induction 1 as [|c rest Hc _ IH]; intros members; cbn.
  - rewrite app_nil_r. reflexivity.
  - rewrite Hc. cbn. rewrite IH, <- app_assoc. reflexivity.
Qed.

Lemma flat_map_flat_map {A B C : Type} (f : A -> list B) (g : B -> list C)
    (l : list A) :
  flat_map g (flat_map f l) = flat_map (fun x => flat_map g (f x)) l.
Proof.
  induction l as [|x l IH]; [reflexivity|].
  cbn. rewrite flat_map_app, IH. reflexivity.
Qed.

Lemma ExprListNode_Merge_contents (n : TreeNode) :
  forall mExprs,
    ExprListNode_Merge n mExprs
      = Ok (mExprs ++ flat_map ExprMembers (PassContents n)).
Proof.
  remember (size n) as k eqn:Hk. assert (Hle : size n <= k) by lia. clear Hk.
  revert n Hle. induction k as [|k IH]; intros n Hle mExprs.
  - destruct n; cbn in Hle; lia.
  - destruct n; cbn; rewrite ?app_nil_r; try reflexivity.
    rewrite flat_map_flat_map. apply merge_children_app.
    apply Forall_forall. intros c Hc members. apply IH.
    cbn in Hle. apply list_elem_of_In, size_member in Hc. lia.
Qed.

Lemma merge_children_guarded
    (merge : TreeNode -> list TreeNode -> Result (list TreeNode))
    (ok : TreeNode -> bool) (contents : TreeNode -> list TreeNode)
    (children : list TreeNode) :
  Forall (fun c => forall members,
            merge c members = if ok c then Ok (members ++ contents c)
                              else Fail AssertFail) children ->
  forall members,
    merge_children merge children members
      = if forallb ok children
        then Ok (members ++ flat_map contents children)
        else Fail AssertFail.
Proof.
  induction 1 as [|c rest Hc _ IH]; intros members; cbn.
  - rewrite app_nil_r. reflexivity.
  - rewrite Hc. destruct (ok c); cbn; [|reflexivity].
    rewrite IH. destruct (forallb ok rest); [|reflexivity].
    rewrite <- app_assoc. reflexivity.
Qed.

Lemma forallb_flat_map {A B : Type} (ok : B -> bool) (f : A -> list B)
    (l : list A) :
  forallb ok (flat_map f l) = forallb (fun x => forallb ok (f x)) l.
Proof.
  induction l as [|x l IH]; [reflexivity|].
  cbn. rewrite forallb_app, IH. reflexivity.
Qed.

Lemma VarListNode_Merge_contents (n : TreeNode) :
  forall mVars,
    VarListNode_Merge n mVars
      = if forallb VarMergeable (PassContents n)
        then Ok (mVars ++ flat_map VarMembers (PassContents n))
        else Fail AssertFail.
Proof.
  remember (size n) as k eqn:Hk. assert (Hle : size n <= k) by lia. clear Hk.
  revert n Hle. induction k as [|k IH]; intros n Hle mVars.
  - destruct n; cbn in Hle; lia.
  - destruct n; cbn; rewrite ?app_nil_r; try reflexivity.
    rewrite flat_map_flat_map, forallb_flat_map.
    apply (merge_children_guarded VarListNode_Merge
             (fun c => forallb VarMergeable (PassContents c))
             (fun c => flat_map VarMembers (PassContents c))).
    apply Forall_forall. intros c Hc members. apply IH.
    cbn in Hle. apply list_elem_of_In, size_member in Hc. lia.
Qed.

(** Whatever a node gives to a list node is no larger than the node, and a
    Pass node gives only nodes that are smaller than itself. *)
Lemma members_size (members : TreeNode -> list TreeNode) (n x : TreeNode) :
  (forall y z, In z (members y) -> size z <= size y) ->
  In x (flat_map members (PassContents n)) ->
  size x <= size n /\ (IsPass n = true -> size x < size n).
Proof.
  intros Hmembers.
  remember (size n) as k eqn:Hk. assert (Hle : size n <= k) by lia.
  rewrite Hk. clear Hk. revert n Hle x.
  induction k as [|k IH]; intros n Hle x Hin.
  - destruct n; cbn in Hle; lia.
  - destruct n;
      try (cbn [PassContents flat_map] in Hin; rewrite app_nil_r in Hin;
           split; [apply Hmembers; exact Hin | discriminate]).
    cbn [PassContents] in Hin. rewrite flat_map_flat_map in Hin.
    apply in_flat_map in Hin as (c & Hc & Hx).
    pose proof (size_member _ _ Hc) as Hsize. cbn in Hle |- *.
    destruct (IH c ltac:(lia) x Hx) as [Hxc _]. lia.
Qed.

Lemma ExprMembers_size (y z : TreeNode) :
  In z (ExprMembers y) -> size z <= size y.
Proof.
  destruct y; cbn; try (intros [<-|[]]; cbn; lia).
  intros Hin. apply size_member in Hin. lia.
Qed.

Lemma VarMembers_size (y z : TreeNode) :
  In z (VarMembers y) -> size z <= size y.
Proof.
  destruct y; cbn; try (intros [<-|[]]; cbn; lia).
  intros Hin. apply size_member in Hin. lia.
Qed.

(** C7 as stated fails on the code: a Pass node holding an expression list
    gives the members of that list, not the list it contains, and a Pass
    node holding a literal cannot be merged into a variable list at all. *)
Lemma Merge_Pass_not_its_contents :
  let exprs := ExprListNode [IdentifierNode 1; LiteralNode 2] in
  PassContents (PassNode [exprs]) = [exprs] /\
  ExprListNode_Merge (PassNode [exprs]) []
    <> Ok ([] ++ PassContents (PassNode [exprs])) /\
  VarListNode_Merge (PassNode [LiteralNode 2]) []
    <> Ok ([] ++ PassContents (PassNode [LiteralNode 2])).
Proof. cbn. repeat split; discriminate. Qed.

(** C7, amended.  Merging a Pass node into an expression list appends, in
    order, what its recursively contained children give: a contained
    expression list gives its members, any other contained node gives
    itself.  Merging it into a variable list does the same with contained
    variable lists and identifiers, and is a fatal error as soon as a
    contained node is neither.  The merged Pass node is never among the
    appended members. *)
Theorem Merge_Pass_flattens (children mExprs mVars : list TreeNode) :
  let pass := PassNode children in
  ExprListNode_Merge pass mExprs
    = Ok (mExprs ++ flat_map ExprMembers (PassContents pass)) /\
  VarListNode_Merge pass mVars
    = (if forallb VarMergeable (PassContents pass)
       then Ok (mVars ++ flat_map VarMembers (PassContents pass))
       else Fail AssertFail) /\
  (pass ∉ flat_map ExprMembers (PassContents pass)) /\
  (pass ∉ flat_map VarMembers (PassContents pass)).
Proof.
  intros pass. split; [apply ExprListNode_Merge_contents|].
  split; [apply VarListNode_Merge_contents|].
  split; intros Hin; apply list_elem_of_In in Hin.
  - destruct (members_size _ _ _ ExprMembers_size Hin) as [_ Hlt].
    specialize (Hlt eq_refl). lia.
  - destruct (members_size _ _ _ VarMembers_size Hin) as [_ Hlt].
    specialize (Hlt eq_refl). lia.
Qed.

Lemma NewTreeNode_single_child_witness :
  NewTreeNode flag_Unary flag_Binary flag_Ternary flag_Pre flag_Post
              no_token no_build no_child single_input
    = Ok (Some (IdentifierNode 1)).
Proof.
  apply (NewTreeNode_single_child flag_Unary flag_Binary flag_Ternary
           flag_Pre flag_Post no_token no_build no_child Expr_rule);
    reflexivity.
Defined.

Lemma NewTreeNode_cast_witness :
  NewTreeNode flag_Unary flag_Binary flag_Ternary flag_Pre flag_Post
              no_token no_build no_child cast_input
    = Ok (Some (CastNode (Some (OtherNode NK_PrimType))
                         (Some (IdentifierNode 24)))).
Proof.
  apply (NewTreeNode_cast flag_Unary flag_Binary flag_Ternary
           flag_Pre flag_Post no_token no_build no_child Expr_rule);
    reflexivity.
Defined.

Lemma NewTreeNode_binary_witness :
  NewTreeNode flag_Unary flag_Binary flag_Ternary flag_Pre flag_Post
              no_token no_build no_child plus_input
    = Ok (Some (BinOperatorNode OPR_Add (Some (IdentifierNode 1))
                                (Some (IdentifierNode 2)))).
Proof.
  apply (NewTreeNode_binary flag_Unary flag_Binary flag_Ternary
           flag_Pre flag_Post no_token no_build no_child Expr_rule _ _ _
           false OPR_Add (IdentifierNode 2) 3%N);
    try reflexivity; discriminate.
Defined.

(** *** What Manipulate returns in the cases without a rewrite *)

Section Manipulation.

Variables Unary Binary Ternary Pre Post : N.
Variable CreateTokenTreeNode : N -> option TreeNode.
Variable Build : N -> list Param -> Result (option TreeNode).
Variable GetSortedChildByIndex : AppealNode -> N -> Result (option AppealNode).

Local Abbreviation GetOperatorProperty :=
  (GetOperatorProperty Unary Binary Ternary Pre Post).
Local Abbreviation Manipulate2Binary :=
  (Manipulate2Binary Unary Binary Ternary Pre Post).
Local Abbreviation Manipulate := (Manipulate Unary Binary Ternary Pre Post).
Local Abbreviation action_params := (action_params GetSortedChildByIndex).
Local Abbreviation run_actions := (run_actions Build GetSortedChildByIndex).
Local Abbreviation NewTreeNode :=
  (NewTreeNode Unary Binary Ternary Pre Post CreateTokenTreeNode Build
     GetSortedChildByIndex).

Lemma Manipulate2Binary_Some (child_a child_b t : TreeNode) :
  Manipulate2Binary child_a child_b = Ok (Some t) ->
  exists opr opnd, t = BinOperatorNode opr (Some child_a) opnd.
Proof.
  unfold AST.Manipulate2Binary. destruct child_b; try discriminate.
  intros Hcall. rsplit Hcall.
  destruct (negb _ && negb _); [|discriminate].
  rsplit Hcall. injection Hcall as <-.
  unfold BuildBinaryOperation in Hstep0. rsplit Hstep0.
  injection Hstep0 as <-. eauto.
Qed.

(** X20. Manipulate loses no sub-tree: it returns NULL exactly when no
    sorted child has a tree; three or more child trees, or two that are
    neither a parenthesis followed by a node nor a node followed by a
    unary operation, are handed up in a Pass node that holds them all in
    their order. *)
Theorem Manipulate_passes_children (appeal_node : AppealNode) :
  let trees := child_trees appeal_node in
  (trees = [] -> Manipulate appeal_node = Ok None) /\
  (3 <= length trees -> Manipulate appeal_node = Ok (Some (PassNode trees))) /\
  (forall child_a child_b,
     trees = [child_a; child_b] ->
     IsParenthesis child_a = false -> IsUnaOperator child_b = false ->
     Manipulate appeal_node = Ok (Some (PassNode [child_a; child_b]))) /\
  (forall result, Manipulate appeal_node = Ok result ->
                  (result = None <-> trees = [])).
Proof.
  intros trees. unfold AST.Manipulate. fold trees.
  split; [intros ->; reflexivity|]. split; [|split].
  - intros Hlen. destruct trees as [|t1 [|t2 [|t3 rest]]]; cbn in Hlen; try lia.
    cbn [mbind Result_bind length Nat.ltb Nat.leb].
    unfold BuildPassNode. rewrite foldl_AddChild. reflexivity.
  - intros child_a child_b -> Hpar Huna.
    destruct child_a; try discriminate; destruct child_b; try discriminate;
      reflexivity.
  - intros result Hcall. destruct trees as [|t1 [|t2 [|t3 rest]]].
    + injection Hcall as <-. split; reflexivity.
    + injection Hcall as <-. split; discriminate.
    + rsplit Hcall. destruct a as [t|].
      * injection Hcall as <-. split; discriminate.
      * cbn in Hcall. injection Hcall as <-. split; discriminate.
    + cbn in Hcall. injection Hcall as <-. split; discriminate.
Qed.

Lemma land_lor_same (b u : N) : N.land b u = 0%N -> N.land (N.lor b u) b = b.
Proof.
  intros Hbu. rewrite N.land_lor_distr_l, N.land_diag, (N.land_comm u b), Hbu.
  apply N.lor_0_r.
Qed.

(** X21. The operators that Manipulate2Binary turns from unary into
    binary are those that supported_operators.def declares with
    [Binary|Unary], which are Add and Sub; for every other operator of
    the table the two trees are left alone, and for [OPR_NA], which has
    no row in the table, GetOperatorProperty ends in MERROR.  The
    property flags are taken to be different bits. *)
Theorem Manipulate2Binary_operators (child_a : TreeNode) (post : bool)
    (opr : OprId) (opnd : TreeNode) :
  Binary <> 0%N -> Unary <> 0%N -> N.land Binary Unary = 0%N ->
  N.land Pre Binary = 0%N -> N.land Post Binary = 0%N ->
  N.land Ternary Binary = 0%N ->
  Manipulate2Binary child_a (UnaOperatorNode post opr (Some opnd))
    = match opr with
      | OPR_Add | OPR_Sub =>
          Ok (Some (BinOperatorNode opr (Some child_a) (Some opnd)))
      | OPR_NA => Fail AssertFail
      | _ => Ok None
      end.
Proof.
  intros Hb Hu Hbu Hpre Hpost Hter.
  assert (Hub : N.land Unary Binary = 0%N) by (rewrite N.land_comm; exact Hbu).
  assert (Hboth : N.land (N.lor Binary Unary) Binary = Binary)
    by (apply land_lor_same, Hbu).
  assert (Hboth' : N.land (N.lor Binary Unary) Unary = Unary)
    by (rewrite N.lor_comm; apply land_lor_same, Hub).
  assert (Hpp : N.land (N.lor Pre Post) Binary = 0%N)
    by (rewrite N.land_lor_distr_l, Hpre, Hpost; reflexivity).
  apply N.eqb_neq in Hb, Hu.
  destruct opr; cbv -[N.lor N.land N.eqb negb andb];
    rewrite ?Hboth, ?Hboth', ?N.land_diag, ?Hbu, ?Hub, ?Hpp, ?Hter, ?Hb, ?Hu;
    reflexivity.
Qed.

Lemma run_actions_app (appeal_node : AppealNode) (acts1 acts2 : list Action.t) :
  forall sub_tree,
    run_actions appeal_node (acts1 ++ acts2) sub_tree
    = run_actions appeal_node acts1 sub_tree
        ≫= run_actions appeal_node acts2.
Proof.
  induction acts1 as [|action rest IH]; intros sub_tree; [reflexivity|].
  cbn [app AST.run_actions].
  destruct (action_params appeal_node (Action.mElems action)) as [params|];
    [|reflexivity].
  cbn. destruct (Build (Action.mId action) params) as [built|]; [|reflexivity].
  cbn. apply IH.
Qed.

(** X22. Every action overwrites the tree of the action before it: when
    the actions of a rule all return, the tree of the rule is the one
    that the last action returns, and when that is NULL the node goes
    through Manipulate, whatever the earlier actions had built. *)
Theorem NewTreeNode_last_action (rule_table : RuleTable.t)
    (children : list AppealNode) (ast : option TreeNode)
    (earlier_actions : list Action.t) (last_action : Action.t)
    (earlier built : option TreeNode) (params : list Param) :
  let appeal_node := TableAppeal rule_table children ast in
  RuleTable.mActions rule_table = earlier_actions ++ [last_action] ->
  run_actions appeal_node earlier_actions None = Ok earlier ->
  action_params appeal_node (Action.mElems last_action) = Ok params ->
  Build (Action.mId last_action) params = Ok built ->
  NewTreeNode appeal_node
    = match built with
      | Some tree => Ok (Some tree)
      | None => Manipulate appeal_node
      end.
Proof.
  intros appeal_node Hactions Hearlier Hparams Hbuild.
  subst appeal_node. unfold AST.NewTreeNode.
  rewrite Hactions, run_actions_app, Hearlier. cbn.
  rewrite Hparams. cbn. rewrite Hbuild. cbn. destruct built; reflexivity.
Qed.

End Manipulation.

(** *** Flattening Pass nodes into a switch *)

Lemma size_pos (n : TreeNode) : 1 <= size n.
Proof. destruct n; cbn; lia. Qed.

Lemma list_sum_app (l1 l2 : list nat) :
  list_sum (l1 ++ l2) = list_sum l1 + list_sum l2.
Proof.
  induction l1 as [|x l1 IH]; [reflexivity|].
  cbn [app]. change (list_sum (x :: l1 ++ l2)) with (x + list_sum (l1 ++ l2)).
  change (list_sum (x :: l1)) with (x + list_sum l1). lia.
Qed.

Lemma PassContents_not_Pass (n : TreeNode) :
  Forall (fun x => IsPass x = false) (PassContents n).
Proof.
  remember (size n) as k eqn:Hk. assert (Hle : size n <= k) by lia.
  clear Hk. revert n Hle. induction k as [|k IH]; intros n Hle.
  - pose proof (size_pos n). lia.
  - destruct n; try (repeat constructor).
    cbn [PassContents]. apply Forall_forall. intros x Hx.
    apply list_elem_of_In, in_flat_map in Hx as (c & Hc & Hx).
    pose proof (size_member _ _ Hc) as Hsize. cbn in Hle.
    assert (Hc' : Forall (fun x => IsPass x = false) (PassContents c))
      by (apply IH; lia).
    rewrite Forall_forall in Hc'. apply Hc', list_elem_of_In, Hx.
Qed.

Lemma forallb_Permutation {A : Type} (f : A -> bool) (l l' : list A) :
  l ≡ₚ l' -> forallb f l = forallb f l'.
Proof.
  intros Hperm. induction Hperm as [|x l l' _ IH|x y l|l1 l2 l3 _ IH1 _ IH2].
  - reflexivity.
  - cbn. rewrite IH. reflexivity.
  - cbn. destruct (f x), (f y); reflexivity.
  - congruence.
Qed.

(** The loop on a worklist: it ends within as many turns as the trees of
    the worklist have nodes, with every node that the trees hold under
    their Pass nodes pushed once, or at the first of them that the
    assertion refuses. *)
Lemma flatten_worklist_spec (accept : TreeNode -> bool) (fuel : nat) :
  forall working_list mItems,
    list_sum (map size working_list) <= fuel ->
    if forallb accept (flat_map PassContents working_list)
    then exists added,
           flatten_worklist accept fuel working_list mItems
             = Ok (mItems ++ added) /\
           added ≡ₚ flat_map PassContents working_list
    else flatten_worklist accept fuel working_list mItems = Fail AssertFail.
Proof.
  induction fuel as [|fuel IH]; intros working_list mItems Hfuel.
  - destruct working_list as [|t rest].
    + exists []. rewrite app_nil_r. split; reflexivity.
    + cbn [map] in Hfuel. change (list_sum (?x :: ?l)) with (x + list_sum l) in Hfuel.
      pose proof (size_pos t). lia.
  - destruct working_list as [|t rest].
    { exists []. rewrite app_nil_r. split; reflexivity. }
    cbn [map] in Hfuel. change (list_sum (?x :: ?l)) with (x + list_sum l) in Hfuel.
    assert (Hleaf : IsPass t = false ->
              flatten_worklist accept (S fuel) (t :: rest) mItems
              = (_ ← MASSERT (accept t);
                 flatten_worklist accept fuel rest (mItems ++ [t])) /\
              PassContents t = [t]).
    { destruct t; try discriminate; intros _; split; reflexivity. }
    destruct (IsPass t) eqn:Hpass.
    + destruct t as [| | | | | | | |children|]; try discriminate.
      cbn [flatten_worklist flat_map PassContents].
      assert (Hperm : flat_map PassContents (rest ++ children)
                      ≡ₚ flat_map PassContents children
                         ++ flat_map PassContents rest).
      { rewrite flat_map_app. apply Permutation_app_comm. }
      specialize (IH (rest ++ children) mItems).
      rewrite (forallb_Permutation _ _ _ Hperm) in IH.
      cbn [size] in Hfuel. rewrite map_app, list_sum_app in IH.
      specialize (IH ltac:(lia)).
      destruct (forallb accept _); [|exact IH].
      destruct IH as (added & Hrun & Hadded). exists added.
      split; [exact Hrun|]. rewrite Hadded. exact Hperm.
    + destruct (Hleaf eq_refl) as [-> Hcontents].
      cbn [flat_map]. rewrite Hcontents. cbn [app forallb].
      destruct (accept t); [|reflexivity]. cbn.
      pose proof (size_pos t).
      specialize (IH rest (mItems ++ [t]) ltac:(lia)).
      destruct (forallb accept _); [|exact IH].
      destruct IH as (added & Hrun & Hadded). exists (t :: added).
      split; [rewrite Hrun, <- app_assoc; reflexivity|].
      constructor. exact Hadded.
Qed.

Lemma flatten_worklist_leaves (accept : TreeNode -> bool) (fuel : nat) :
  forall working_list mItems,
    Forall (fun x => IsPass x = false) working_list ->
    forallb accept working_list = true ->
    length working_list <= fuel ->
    flatten_worklist accept fuel working_list mItems
      = Ok (mItems ++ working_list).
Proof.
  induction fuel as [|fuel IH]; intros working_list mItems Hleaves Hacc Hfuel.
  - destruct working_list; [|cbn in Hfuel; lia].
    rewrite app_nil_r. reflexivity.
  - destruct working_list as [|t rest]; [rewrite app_nil_r; reflexivity|].
    apply Forall_cons in Hleaves as [Ht Hrest].
    cbn [forallb] in Hacc. apply andb_true_iff in Hacc as [Hacct Haccr].
    cbn [length] in Hfuel.
    destruct t; try discriminate; cbn [flatten_worklist]; rewrite Hacct; cbn;
      rewrite IH by (assumption || lia); rewrite <- app_assoc; reflexivity.
Qed.

(** X23. SwitchCaseNode::AddStmt takes the Pass nodes apart: when the
    loop has as many turns as the tree has nodes it returns, having
    pushed on [mStmts] every node that the tree holds under its Pass
    nodes, each once and none of them a Pass node; the children of a Pass
    node that holds no further Pass node are pushed in their order. *)
Theorem SwitchCaseNode_AddStmt_flattens (fuel : nat) (t : TreeNode)
    (mStmts : list TreeNode) :
  size t <= fuel ->
  exists added,
    SwitchCaseNode_AddStmt fuel t mStmts = Ok (mStmts ++ added) /\
    added ≡ₚ PassContents t /\
    Forall (fun x => IsPass x = false) added /\
    (forall children,
       t = PassNode children ->
       Forall (fun x => IsPass x = false) children -> added = children).
Proof.
  intros Hfuel. unfold SwitchCaseNode_AddStmt.
  pose proof (flatten_worklist_spec (fun _ => true) fuel [t] mStmts) as Hspec.
  cbn [map flat_map] in Hspec. rewrite app_nil_r in Hspec.
  change (list_sum [size t]) with (size t + 0) in Hspec.
  specialize (Hspec ltac:(lia)).
  assert (Hall : forallb (fun _ : TreeNode => true) (PassContents t) = true)
    by (apply forallb_forall; reflexivity).
  rewrite Hall in Hspec. destruct Hspec as (added & Hrun & Hadded).
  exists added. split; [exact Hrun|]. split; [exact Hadded|]. split.
  - rewrite Hadded. apply PassContents_not_Pass.
  - intros children -> Hleaves.
    destruct fuel as [|fuel]; [pose proof (size_pos (PassNode children)); lia|].
    cbn [flatten_worklist app] in Hrun.
    rewrite (flatten_worklist_leaves _ fuel children mStmts Hleaves) in Hrun.
    + injection Hrun as Hrun. apply app_inv_head in Hrun. congruence.
    + apply forallb_forall. reflexivity.
    + cbn [size] in Hfuel.
      assert (length children <= list_sum (map size children)).
      { clear. induction children as [|c l IH]; [reflexivity|].
        cbn [map length]. change (list_sum (?x :: ?l)) with (x + list_sum l).
        pose proof (size_pos c). lia. }
      lia.
Qed.

(** X24. SwitchCaseNode::AddLabel and SwitchNode::AddCase take the Pass
    nodes apart in the same way and assert the kind of every other node:
    they return, with the labels (the cases) of the tree pushed once
    each, exactly when every node that the tree holds under its Pass
    nodes is a switch label (a switch case), and stop at the assertion
    otherwise. *)
Theorem Switch_AddLabel_AddCase (fuel : nat) (t : TreeNode)
    (mItems : list TreeNode) :
  size t <= fuel ->
  (if forallb IsSwitchLabel (PassContents t)
   then exists added,
          SwitchCaseNode_AddLabel fuel t mItems = Ok (mItems ++ added) /\
          added ≡ₚ PassContents t
   else SwitchCaseNode_AddLabel fuel t mItems = Fail AssertFail) /\
  (if forallb IsSwitchCase (PassContents t)
   then exists added,
          SwitchNode_AddCase fuel t mItems = Ok (mItems ++ added) /\
          added ≡ₚ PassContents t
   else SwitchNode_AddCase fuel t mItems = Fail AssertFail).
Proof.
  intros Hfuel. unfold SwitchCaseNode_AddLabel, SwitchNode_AddCase.
  pose proof (flatten_worklist_spec IsSwitchLabel fuel [t] mItems) as Hlabel.
  pose proof (flatten_worklist_spec IsSwitchCase fuel [t] mItems) as Hcase.
  cbn [map flat_map] in Hlabel, Hcase. rewrite app_nil_r in Hlabel, Hcase.
  change (list_sum [size t]) with (size t + 0) in Hlabel, Hcase.
  split; [apply Hlabel | apply Hcase]; lia.
Qed.

Lemma Manipulate2Binary_operators_witness :
  Manipulate2Binary flag_Unary flag_Binary flag_Ternary flag_Pre flag_Post
    (IdentifierNode 1) (UnaOperatorNode false OPR_Sub (Some (IdentifierNode 2)))
  = Ok (Some (BinOperatorNode OPR_Sub (Some (IdentifierNode 1))
                (Some (IdentifierNode 2)))).
Proof.
  apply (Manipulate2Binary_operators flag_Unary flag_Binary flag_Ternary
           flag_Pre flag_Post (IdentifierNode 1) false OPR_Sub
           (IdentifierNode 2)); vm_compute; congruence.
Defined.

Lemma NewTreeNode_last_action_witness :
  NewTreeNode flag_Unary flag_Binary flag_Ternary flag_Pre flag_Post
    no_token sample_build no_child
    (TableAppeal two_actions_rule [appeal_of (IdentifierNode 1)] None)
  = Manipulate flag_Unary flag_Binary flag_Ternary flag_Pre flag_Post
      (TableAppeal two_actions_rule [appeal_of (IdentifierNode 1)] None).
Proof.
  apply (NewTreeNode_last_action flag_Unary flag_Binary flag_Ternary
           flag_Pre flag_Post no_token sample_build no_child
           two_actions_rule [appeal_of (IdentifierNode 1)] None
           [Action.mk 1 []] (Action.mk 2 [])
           (Some (IdentifierNode 9)) None []); reflexivity.
Defined.

Lemma SwitchCaseNode_AddStmt_flattens_witness :
  size nested_pass <= 5 /\
  exists added,
    SwitchCaseNode_AddStmt 5 nested_pass [] = Ok ([] ++ added) /\
    added ≡ₚ PassContents nested_pass /\
    Forall (fun x => IsPass x = false) added /\
    (forall children,
       nested_pass = PassNode children ->
       Forall (fun x => IsPass x = false) children -> added = children).
Proof.
  split; [vm_compute; lia|].
  apply (SwitchCaseNode_AddStmt_flattens 5 nested_pass []). vm_compute. lia.
Defined.

Lemma Switch_AddLabel_AddCase_witness :
  (exists added,
     SwitchCaseNode_AddLabel 4 nested_labels [] = Ok ([] ++ added) /\
     added ≡ₚ PassContents nested_labels) /\
  SwitchNode_AddCase 4 nested_labels [] = Fail AssertFail.
Proof.
  apply (Switch_AddLabel_AddCase 4 nested_labels []). vm_compute. lia.
Defined.

End ASTFacts.

(** ** The parser's bookkeeping *)

Module ParserFacts.
Import Parser.

(** *** SuccMatch *)

Module SuccMatchFacts.
Import SuccMatch.

Lemma FindKnobIn_tokens (key : N) (c1 c2 : list (Guamian.Knob N N)) :
  Guamian.mData <$> c1 = Guamian.mData <$> c2 ->
  Guamian.FindKnobIn key c1 = Guamian.FindKnobIn key c2.
Proof.
  revert c2. induction c1 as [|k1 c1 IH]; intros [|k2 c2] Heq;
    try discriminate; [reflexivity|].
  injection Heq as Hk Hrest. cbn. rewrite Hk, (IH c2 Hrest). reflexivity.
Qed.

Lemma tokens_FindOrCreateKnob (key : N) (g : Guamian.t N N) :
  tokens (Guamian.PairedFindOrCreateKnob key g)
  = if bool_decide (key ∈ tokens g) then tokens g else key :: tokens g.
Proof.
  unfold Guamian.PairedFindOrCreateKnob, Guamian.FindOrCreateKnob,
    Guamian.FindKnob, tokens.
  destruct (Guamian.FindKnobIn key (Guamian.mHeader g)) as [i|] eqn:Hfind.
  - rewrite bool_decide_eq_true_2; [reflexivity|].
    destruct (decide (key ∈ Guamian.mData <$> Guamian.mHeader g)) as [Hin|Hnin];
      [exact Hin|].
    apply GuamianFacts.FindKnobIn_None in Hnin. congruence.
  - rewrite bool_decide_eq_false_2; [reflexivity|].
    apply GuamianFacts.FindKnobIn_None, Hfind.
Qed.

Lemma tokens_on_knob (f : Guamian.Knob N N -> Guamian.Knob N N) (i : nat)
    (g : Guamian.t N N) :
  (forall knob, Guamian.mData (f knob) = Guamian.mData knob) ->
  tokens (Guamian.on_knob i f g) = tokens g.
Proof.
  intros Hf. unfold tokens, Guamian.on_knob. cbn.
  apply GuamianFacts.fmap_mData_alter, Hf.
Qed.

Lemma PairedFindKnob_tokens (key : N) (g : Guamian.t N N) :
  Guamian.mHeader (Guamian.PairedFindKnob key g).1 = Guamian.mHeader g /\
  (Guamian.PairedFindKnob key g).2 = bool_decide (key ∈ tokens g) /\
  ((Guamian.PairedFindKnob key g).2 = true ->
   Guamian.paired_with key (Guamian.PairedFindKnob key g).1).
Proof.
  unfold Guamian.PairedFindKnob, tokens.
  destruct (Guamian.FindKnob key g) as [i|] eqn:Hfind; cbn.
  - split; [reflexivity|]. split.
    + symmetry. apply bool_decide_eq_true.
      destruct (decide (key ∈ Guamian.mData <$> Guamian.mHeader g))
        as [Hin|Hnin]; [exact Hin|].
      apply GuamianFacts.FindKnobIn_None in Hnin.
      unfold Guamian.FindKnob in Hfind. congruence.
    + intros _. exists i. split; [exact Hfind | reflexivity].
  - split; [reflexivity|]. split; [|discriminate].
    symmetry. apply bool_decide_eq_false.
    apply GuamianFacts.FindKnobIn_None, Hfind.
Qed.

Lemma FindElem_header (key d : N) (g1 g2 : Guamian.t N N) :
  Guamian.mHeader g1 = Guamian.mHeader g2 ->
  Guamian.FindElem key d g1 = Guamian.FindElem key d g2.
Proof.
  intros Hh. unfold Guamian.FindElem, Guamian.FindKnob. rewrite Hh.
  reflexivity.
Qed.

Lemma GetStartToken_same (start : N) (sm : SuccMatch.t) :
  same_tokens sm ->
  exists sm1,
    GetStartToken start sm
      = Ok (sm1, bool_decide (start ∈ tokens (mMatches sm))) /\
    same_tokens sm1 /\
    Guamian.mHeader (mMatches sm1) = Guamian.mHeader (mMatches sm) /\
    (start ∈ tokens (mMatches sm) ->
     Guamian.paired_with start (mMatches sm1)).
Proof.
  intros Hsame. unfold GetStartToken.
  destruct (PairedFindKnob_tokens start (mNodes sm)) as (Hn1 & Hn2 & _).
  destruct (PairedFindKnob_tokens start (mMatches sm)) as (Hm1 & Hm2 & Hm3).
  destruct (Guamian.PairedFindKnob start (mNodes sm)) as [nodes found_n].
  destruct (Guamian.PairedFindKnob start (mMatches sm)) as [matches found_m].
  cbn in *. rewrite Hsame in Hn2. subst found_n found_m.
  rewrite (bool_decide_eq_true_2 (_ = _)) by reflexivity. cbn.
  eexists. split; [reflexivity|]. split; [|split].
  - unfold same_tokens, tokens. cbn. rewrite Hn1, Hm1. exact Hsame.
  - exact Hm1.
  - intros Hin. apply Hm3. apply bool_decide_eq_true. exact Hin.
Qed.

(** X25. The memo of successful matches answers what was put into it.
    In a state whose two containers know the same start tokens,
    AddStartToken(t) followed by AddMatch(m) returns and leaves such a
    state; there GetStartToken never stops at its assertion and finds
    the start token [t] and the ones known before, and
    FindMatch(start, target) finds the match [m] of [t] and the matches
    recorded before, and stops at its assertion for a start token that
    was never added. *)
Theorem SuccMatch_round_trip (sm : SuccMatch.t) (t m : N) :
  same_tokens sm ->
  exists sm2,
    AddMatch m (AddStartToken t sm) = Ok sm2 /\
    same_tokens sm2 /\
    forall start target,
      let known := bool_decide (start = t \/ start ∈ tokens (mMatches sm)) in
      (exists sm3, GetStartToken start sm2 = Ok (sm3, known) /\
                   same_tokens sm3) /\
      match FindMatch_from start target sm2 with
      | Ok (_, found) =>
          known = true /\
          found = bool_decide (start = t /\ target = m)
                  || Guamian.FindElem start target (mMatches sm)
      | Fail e => known = false /\ e = AssertFail
      end.
Proof.
  intros Hsame.
  set (g1 := Guamian.PairedFindOrCreateKnob t (mMatches sm)).
  pose proof (GuamianFacts.paired_FindOrCreateKnob t (mMatches sm)) as Hpaired.
  fold g1 in Hpaired.
  destruct (GuamianFacts.paired_writes t m g1 Hpaired) as (Hadd & _).
  set (sm2 := mk (Guamian.PairedFindOrCreateKnob t (mNodes sm))
                 (Guamian.AddElem t m g1)).
  assert (Htok1 : forall x, x ∈ tokens g1 <-> x = t \/ x ∈ tokens (mMatches sm)).
  { intros x. unfold g1. rewrite tokens_FindOrCreateKnob.
    destruct (bool_decide_reflect (t ∈ tokens (mMatches sm))) as [Hin|Hnin].
    - split; [auto|]. intros [->|Hx]; assumption.
    - rewrite elem_of_cons. reflexivity. }
  assert (Htok2 : tokens (Guamian.AddElem t m g1) = tokens g1).
  { unfold Guamian.AddElem.
    destruct (GuamianFacts.paired_temp_knob t g1 Hpaired)
      as (i & knob & _ & Hfind & _).
    unfold Guamian.FindOrCreateKnob. rewrite Hfind.
    apply tokens_on_knob. intros k. unfold Guamian.AddElemKnob.
    destruct (Guamian.FindElemIn m (Guamian.mChildren k)); reflexivity. }
  assert (Hsame2 : same_tokens sm2).
  { unfold same_tokens, sm2. cbn. rewrite Htok2. unfold g1.
    rewrite !tokens_FindOrCreateKnob, Hsame. reflexivity. }
  exists sm2. split.
  { unfold AddMatch, AddStartToken. cbn. fold g1. rewrite Hadd. reflexivity. }
  split; [exact Hsame2|].
  intros start target known.
  destruct (GetStartToken_same start sm2 Hsame2)
    as (sm3 & Hget & Hsame3 & Hheader & Hcursor).
  assert (Hknown : bool_decide (start ∈ tokens (mMatches sm2)) = known).
  { apply bool_decide_ext. unfold sm2. cbn. rewrite Htok2. apply Htok1. }
  rewrite Hknown in Hget. split; [exists sm3; split; assumption|].
  unfold FindMatch_from. rewrite Hget. cbn.
  destruct known eqn:Hk; cbn; [|split; reflexivity].
  assert (Hin : start ∈ tokens (mMatches sm2))
    by (apply (bool_decide_unpack _); rewrite Hknown; exact I).
  destruct (GuamianFacts.paired_reads start _ (Hcursor Hin)) as (Hfind & _).
  unfold FindMatch. rewrite Hfind. cbn. split; [reflexivity|].
  rewrite (FindElem_header _ _ _ _ Hheader). unfold sm2. cbn.
  rewrite !GuamianFacts.FindElem_ElemsOf, GuamianFacts.ElemsOf_AddElem.
  unfold g1. rewrite !GuamianFacts.ElemsOf_PairedFindOrCreateKnob.
  rewrite !GuamianFacts.FindElemIn_bool.
  destruct (decide (start = t)) as [->|Hne].
  - destruct (bool_decide_reflect (m ∈ Guamian.ElemsOf t (mMatches sm)))
      as [Hm|Hm].
    + destruct (bool_decide_reflect (t = t /\ target = m)) as [[_ ->]|Hn].
      * cbn. apply bool_decide_eq_true_2. exact Hm.
      * reflexivity.
    + destruct (bool_decide_reflect (t = t /\ target = m)) as [[_ ->]|Hn].
      * cbn. apply bool_decide_eq_true_2. left.
      * cbn. apply bool_decide_ext. rewrite elem_of_cons.
        split; [intros [->|Hx]; [tauto | exact Hx] | auto].
  - rewrite (bool_decide_eq_false_2 (start = t /\ target = m)) by tauto.
    reflexivity.
Qed.

Lemma SuccMatch_round_trip_witness :
  same_tokens sample /\
  exists sm2,
    AddMatch 9 (AddStartToken 4 sample) = Ok sm2 /\
    same_tokens sm2 /\
    forall start target,
      let known := bool_decide (start = 4%N \/ start ∈ tokens (mMatches sample)) in
      (exists sm3, GetStartToken start sm2 = Ok (sm3, known) /\
                   same_tokens sm3) /\
      match FindMatch_from start target sm2 with
      | Ok (_, found) =>
          known = true /\
          found = bool_decide (start = 4%N /\ target = 9%N)
                  || Guamian.FindElem start target (mMatches sample)
      | Fail e => known = false /\ e = AssertFail
      end.
Proof.
  split; [reflexivity|]. apply (SuccMatch_round_trip sample 4 9). reflexivity.
Defined.

End SuccMatchFacts.

(** *** AppealNode *)

Section Appeal.

Variable AppealStatus : Type.
Variables IsSuccStatus IsFailStatus IsNAStatus : AppealStatus -> bool.
Variable mTkType : TokenPtr -> TK_Type.
Variable tables : Tables.
Variables TblIdentifier TblLiteral : N.

Local Abbreviation AppealNode := (AppealNode AppealStatus).
Local Abbreviation IsSucc := (IsSucc AppealStatus IsSuccStatus).
Local Abbreviation IsFail := (IsFail AppealStatus IsFailStatus).
Local Abbreviation IsNA := (IsNA AppealStatus IsNAStatus).
Local Abbreviation LongestMatch := (LongestMatch AppealStatus IsSuccStatus).
Local Abbreviation CopyMatch :=
  (CopyMatch AppealStatus IsFailStatus IsNAStatus).
Local Abbreviation slot_names :=
  (slot_names AppealStatus mTkType TblIdentifier TblLiteral).
Local Abbreviation index_in_slots :=
  (index_in_slots AppealStatus mTkType TblIdentifier TblLiteral).
Local Abbreviation GetSortedChildIndex :=
  (GetSortedChildIndex AppealStatus mTkType tables TblIdentifier TblLiteral).
Local Abbreviation child_by_index :=
  (child_by_index AppealStatus mTkType tables TblIdentifier TblLiteral).
Local Abbreviation GetSortedChildByIndex :=
  (GetSortedChildByIndex AppealStatus mTkType tables TblIdentifier TblLiteral).
Local Abbreviation spec_child :=
  (spec_child AppealStatus IsSuccStatus TblIdentifier TblLiteral).
Local Abbreviation FindSpecChild :=
  (FindSpecChild AppealStatus IsSuccStatus TblIdentifier TblLiteral).

Lemma FindMatchIn_bool (m : N) (matches : list N) :
  FindMatchIn m matches = bool_decide (m ∈ matches).
Proof.
  induction matches as [|x rest IH]; cbn.
  - symmetry. apply bool_decide_eq_false. apply not_elem_of_nil.
  - destruct (N.eqb_spec m x) as [->|Hne].
    + symmetry. apply bool_decide_eq_true. left.
    + rewrite IH. apply bool_decide_ext. rewrite elem_of_cons. tauto.
Qed.

(** The loop of CopyMatch. *)
Lemma AddMatch_all (matches : list N) :
  forall this : AppealNode,
    let this1 := foldl (fun node m => AddMatch m node) this matches in
    (exists added,
       mMatches this1 = mMatches this ++ added /\
       NoDup added /\
       forall m, m ∈ added <-> m ∈ matches /\ m ∉ mMatches this) /\
    mData this1 = mData this /\ mStartIndex this1 = mStartIndex this /\
    mAfter this1 = mAfter this /\
    mSimplifiedIndex this1 = mSimplifiedIndex this /\
    mChildren this1 = mChildren this /\
    mSortedChildren this1 = mSortedChildren this.
Proof.
  induction matches as [|x rest IH]; intros this; cbn zeta.
  - split; [|repeat split].
    exists []. rewrite app_nil_r. split; [reflexivity|].
    split; [constructor|]. intros m. rewrite elem_of_nil.
    split; [tauto | intros [H _]; exact H].
  - cbn [foldl]. specialize (IH (AddMatch x this)). cbn zeta in IH.
    destruct IH as ((added & Hm & Hnd & Hadded) & Hd & Hs & Ha & Hi & Hc & Hsc).
    assert (Hstep : AddMatch x this
                    = if bool_decide (x ∈ mMatches this) then this
                      else mkAppealNode (mData this) (mStartIndex this)
                             (mAfter this) (mMatches this ++ [x])
                             (mSimplifiedIndex this) (mChildren this)
                             (mSortedChildren this)).
    { unfold AddMatch, FindMatch. rewrite FindMatchIn_bool. reflexivity. }
    destruct (bool_decide_reflect (x ∈ mMatches this)) as [Hin|Hnin].
    + rewrite Hstep in Hm, Hadded, Hd, Hs, Ha, Hi, Hc, Hsc |- *.
      split; [|repeat split; assumption].
      exists added. split; [exact Hm|]. split; [exact Hnd|].
      intros m. rewrite Hadded, elem_of_cons.
      split; [tauto|]. intros [[->|Hr] Hn]; [contradiction | tauto].
    + rewrite Hstep in Hm, Hadded, Hd, Hs, Ha, Hi, Hc, Hsc |- *.
      cbn in Hm, Hadded, Hd, Hs, Ha, Hi, Hc, Hsc.
      split; [|repeat split; assumption].
      exists (x :: added). split; [rewrite Hm, <- app_assoc; reflexivity|].
      split.
      * constructor; [|exact Hnd].
        rewrite Hadded, elem_of_app, list_elem_of_singleton. tauto.
      * intros m. rewrite !elem_of_cons, Hadded, elem_of_app,
          list_elem_of_singleton.
        destruct (decide (m = x)) as [->|Hne]; tauto.
Qed.

(** X26. CopyMatch adds to the matches of a node the matches of another
    node that it has not yet, each once: the matches of the node keep
    their places, the new ones are pushed behind them, and a list of
    matches without duplicates stays one.  The status of the node is
    replaced by that of the other node only when the node had failed or
    was not attempted, and nothing else of the node changes. *)
Theorem CopyMatch_adds_new_matches (another this : AppealNode) :
  let this' := CopyMatch another this in
  (exists added,
     mMatches this' = mMatches this ++ added /\
     NoDup added /\
     forall m, m ∈ added <-> m ∈ mMatches another /\ m ∉ mMatches this) /\
  (forall m, FindMatch m this' = FindMatch m this || FindMatch m another) /\
  (NoDup (mMatches this) -> NoDup (mMatches this')) /\
  mAfter this' = (if IsFail this || IsNA this
                  then mAfter another else mAfter this) /\
  mData this' = mData this /\ mStartIndex this' = mStartIndex this /\
  mSimplifiedIndex this' = mSimplifiedIndex this /\
  mChildren this' = mChildren this /\
  mSortedChildren this' = mSortedChildren this.
Proof.
  intros this'.
  destruct (AddMatch_all (mMatches another) this)
    as ((added & Hm & Hnd & Hadded) & Hd & Hs & Ha & Hi & Hc & Hsc).
  set (this1 := foldl (fun node m => AddMatch m node) this (mMatches another))
    in *.
  assert (Hm' : mMatches this' = mMatches this1)
    by (unfold this', Parser.CopyMatch; fold this1;
        destruct (_ || _); reflexivity).
  assert (Hfail : Parser.IsFail _ IsFailStatus this1 = IsFail this)
    by (unfold Parser.IsFail; rewrite Ha; reflexivity).
  assert (Hna : Parser.IsNA _ IsNAStatus this1 = IsNA this)
    by (unfold Parser.IsNA; rewrite Ha; reflexivity).
  split; [exists added; rewrite Hm'; auto|]. split; [|split].
  - intros m. unfold FindMatch. rewrite Hm', Hm, !FindMatchIn_bool.
    destruct (bool_decide_reflect (m ∈ mMatches this)) as [Hin|Hnin]; cbn.
    + apply bool_decide_eq_true. apply elem_of_app. left. exact Hin.
    + apply bool_decide_ext. rewrite elem_of_app, Hadded. tauto.
  - intros Hnodup. rewrite Hm', Hm. apply NoDup_app. split; [exact Hnodup|].
    split; [|exact Hnd]. intros m Hin Hadd. apply Hadded in Hadd. tauto.
  - unfold this', Parser.CopyMatch. fold this1. rewrite Hfail, Hna.
    destruct (_ || _); cbn; repeat split; assumption.
Qed.

Lemma longest_fold (matches : list N) :
  forall acc,
    let longest :=
      foldl (fun longest m => if (longest <? m)%N then m else longest)
            acc matches in
    (acc <= longest)%N /\
    (forall m, m ∈ matches -> (m <= longest)%N) /\
    (longest = acc \/ longest ∈ matches).
Proof.
  induction matches as [|x rest IH]; intros acc; cbn zeta.
  - split; [reflexivity|]. split; [|left; reflexivity].
    intros m Hm. apply elem_of_nil in Hm. contradiction.
  - cbn [foldl].
    specialize (IH (if (acc <? x)%N then x else acc)). cbn zeta in IH.
    destruct IH as (Hge & Hall & Hmem).
    destruct (N.ltb_spec acc x) as [Hlt|Hle].
    + split; [lia|]. split.
      * intros m Hm. apply elem_of_cons in Hm as [->|Hm]; [exact Hge | auto].
      * right. destruct Hmem as [->|Hin]; [left | right; exact Hin].
    + split; [exact Hge|]. split.
      * intros m Hm. apply elem_of_cons in Hm as [->|Hm]; [lia | auto].
      * destruct Hmem as [->|Hin]; [left; reflexivity | right; right; exact Hin].
Qed.

(** X27. LongestMatch returns the largest match of a successful node: a
    match of the node than which no match of the node is larger.  It
    stops at an assertion exactly when the node is not successful or has
    no match. *)
Theorem LongestMatch_is_largest (this : AppealNode) :
  match LongestMatch this with
  | Ok longest =>
      IsSucc this = true /\ longest ∈ mMatches this /\
      forall m, m ∈ mMatches this -> (m <= longest)%N
  | Fail e => e = AssertFail /\ (IsSucc this = false \/ mMatches this = [])
  end.
Proof.
  unfold Parser.LongestMatch.
  destruct (IsSucc this) eqn:Hsucc; cbn; [|split; [reflexivity | left; reflexivity]].
  destruct (mMatches this) as [|x rest] eqn:Hmatches; cbn [length Nat.ltb Nat.leb];
    cbn [MASSERT mbind Result_bind];
    [split; [reflexivity | right; reflexivity]|].
  destruct (longest_fold (x :: rest) 0%N) as (_ & Hall & Hmem).
  split; [reflexivity|]. split; [|exact Hall].
  destruct Hmem as [Hzero|Hin]; [|exact Hin].
  rewrite Hzero. pose proof (Hall x ltac:(left)) as Hx. rewrite Hzero in Hx.
  assert (x = 0%N) as -> by lia. left.
Qed.

(** The loop of GetSortedChildIndex from slot [i] on. *)
Lemma index_in_slots_spec (child : AppealNode) (slots : list TableData.t) :
  forall i found index,
    match index_in_slots slots child i found index with
    | Ok (found', index') =>
        (exists k data,
           slots !! k = Some data /\ slot_names data child = Ok true /\
           (forall j data', (k < j)%nat -> slots !! j = Some data' ->
                            slot_names data' child = Ok false) /\
           found' = true /\ index' = N.of_nat (S (i + k)))
        \/ ((forall data, data ∈ slots -> slot_names data child = Ok false) /\
            found' = found /\ index' = index)
    | Fail e =>
        e = AssertFail /\
        exists data, data ∈ slots /\
          (TableData.mType data = DT_Type \/ TableData.mType data = DT_Null)
    end.
Proof.
  induction slots as [|data rest IH]; intros i found index.
  - right. split; [|split; reflexivity].
    intros data Hin. apply elem_of_nil in Hin. contradiction.
  - cbn [Parser.index_in_slots].
    destruct (slot_names data child) as [named|e] eqn:Hnamed; cbn.
    + assert (Hrest :
        forall found1 index1,
          (named = true -> found1 = true /\ index1 = N.of_nat (S i)) ->
          (named = false -> found1 = found /\ index1 = index) ->
          match index_in_slots rest child (S i) found1 index1 with
          | Ok (found', index') =>
              (exists k data0,
                 (data :: rest) !! k = Some data0 /\
                 slot_names data0 child = Ok true /\
                 (forall j data', (k < j)%nat ->
                    (data :: rest) !! j = Some data' ->
                    slot_names data' child = Ok false) /\
                 found' = true /\ index' = N.of_nat (S (i + k)))
              \/ ((forall data0, data0 ∈ data :: rest ->
                     slot_names data0 child = Ok false) /\
                  found' = found /\ index' = index)
          | Fail e =>
              e = AssertFail /\
              exists data0, data0 ∈ data :: rest /\
                (TableData.mType data0 = DT_Type \/
                 TableData.mType data0 = DT_Null)
          end).
      { intros found1 index1 Htrue Hfalse.
        specialize (IH (S i) found1 index1).
        destruct (index_in_slots rest child (S i) found1 index1)
          as [[found' index']|e].
        - destruct IH as [(k & data0 & Hk & Hhit & Hlater & -> & ->)
                         |(Hnone & -> & ->)].
          + left. exists (S k), data0. split; [exact Hk|].
            split; [exact Hhit|]. split; [|split; [reflexivity | f_equal; lia]].
            intros [|j] data' Hlt Hj; [lia|]. apply (Hlater j); [lia | exact Hj].
          + destruct named.
            * destruct (Htrue eq_refl) as [-> ->]. left. exists 0%nat, data.
              split; [reflexivity|]. split; [exact Hnamed|].
              split; [|split; [reflexivity | f_equal; lia]].
              intros [|j] data' Hlt Hj; [lia|]. apply Hnone.
              eapply list_elem_of_lookup_2. exact Hj.
            * destruct (Hfalse eq_refl) as [-> ->]. right.
              split; [|split; reflexivity].
              intros data0 Hin. apply elem_of_cons in Hin as [->|Hin];
                [exact Hnamed | apply Hnone, Hin].
        - destruct IH as (-> & data0 & Hin & Htype). split; [reflexivity|].
          exists data0. split; [right; exact Hin | exact Htype]. }
      destruct named; apply Hrest; intros; try discriminate; split; reflexivity.
    + assert (He : e = AssertFail /\
                   (TableData.mType data = DT_Type \/
                    TableData.mType data = DT_Null)).
      { unfold Parser.slot_names in Hnamed.
        destruct (TableData.mType data);
          repeat match type of Hnamed with
                 | context [if ?c then _ else _] => destruct c
                 | context [match ?c with _ => _ end] => destruct c
                 end; try discriminate;
          injection Hnamed as <-; auto. }
      destruct He as [-> Htype]. split; [reflexivity|].
      exists data. split; [left | exact Htype].
Qed.


(** The loop of GetSortedChildByIndex. *)
Lemma child_by_index_spec (this : AppealNode) (index : N)
    (children : list AppealNode) :
  match child_by_index this index children with
  | Ok (Some child) =>
      exists k,
        children !! k = Some child /\
        GetSortedChildIndex child 0 this = Ok (true, index) /\
        forall j c, (j < k)%nat -> children !! j = Some c ->
          exists id, GetSortedChildIndex c 0 this = Ok (true, id) /\
                     id <> index
  | Ok None =>
      forall c, c ∈ children ->
        exists id, GetSortedChildIndex c 0 this = Ok (true, id) /\ id <> index
  | Fail e =>
      exists c, c ∈ children /\
        (GetSortedChildIndex c 0 this = Fail e \/
         (e = AssertFail /\
          exists id, GetSortedChildIndex c 0 this = Ok (false, id)))
  end.
Proof.
  induction children as [|child rest IH].
  - cbn. intros c Hin. apply elem_of_nil in Hin. contradiction.
  - cbn [Parser.child_by_index].
    destruct (GetSortedChildIndex child 0 this) as [[found id]|e] eqn:Hidx;
      cbn; [|exists child; split; [left | left; exact Hidx]].
    destruct found; cbn;
      [|exists child; split; [left | right; split; [reflexivity | eauto]]].
    destruct (N.eqb_spec id index) as [->|Hne].
    + exists 0%nat. split; [reflexivity|]. split; [exact Hidx|].
      intros j c Hlt. lia.
    + destruct (child_by_index this index rest) as [[found_child|]|e].
      * destruct IH as (k & Hk & Hfound & Hearlier). exists (S k).
        split; [exact Hk|]. split; [exact Hfound|].
        intros [|j] c Hlt Hj.
        -- injection Hj as <-. eauto.
        -- apply (Hearlier j); [lia | exact Hj].
      * intros c Hin. apply elem_of_cons in Hin as [->|Hin]; [eauto | auto].
      * destruct IH as (c & Hin & Hc). exists c. split; [right; exact Hin | exact Hc].
Qed.

(** X29. A rule that names one sub-table in two of its slots loses the
    first of them: every sorted child of that table, unless it has a
    simplified index, is numbered by the later slot, so that
    GetSortedChildByIndex never returns such a child for the number of
    the earlier slot.  What it returns for an index is a sorted child
    that GetSortedChildIndex numbers with that index. *)
Theorem GetSortedChildByIndex_repeated_slot (this child : AppealNode)
    (table t : N) (rule_table : RuleTable.t) (i j : nat) (index : N) :
  mData this = AppealTable table ->
  table_at tables table = Some rule_table ->
  RuleTable.mData rule_table !! i = Some (TableData.mk DT_Subtable t) ->
  RuleTable.mData rule_table !! j = Some (TableData.mk DT_Subtable t) ->
  (i < j)%nat ->
  t <> TblIdentifier -> t <> TblLiteral ->
  GetSortedChildByIndex index this = Ok (Some child) ->
  child ∈ mSortedChildren this /\
  GetSortedChildIndex child 0 this = Ok (true, index) /\
  (mData child = AppealTable t -> mSimplifiedIndex child = 0%N ->
   (N.of_nat (S j) <= index)%N /\ index <> N.of_nat (S i)).
Proof.
  intros Hdata Htable Hi Hj Hlt Hid Hlit Hcall.
  unfold Parser.GetSortedChildByIndex in Hcall.
  pose proof (child_by_index_spec this index (mSortedChildren this)) as Hloop.
  rewrite Hcall in Hloop. destruct Hloop as (k & Hk & Hindex & _).
  split; [eapply list_elem_of_lookup_2; exact Hk|]. split; [exact Hindex|].
  intros Hchild Hsimple.
  pose proof (index_in_slots_spec child (RuleTable.mData rule_table) 0 false 0)
    as Hlast.
  unfold Parser.GetSortedChildIndex in Hindex.
  rewrite Hdata, Hsimple in Hindex. cbn in Hindex.
  rewrite Htable in Hindex. cbn in Hindex.
  rewrite Hindex in Hlast.
  assert (Hnames : slot_names (TableData.mk DT_Subtable t) child = Ok true).
  { unfold Parser.slot_names. cbn. rewrite Hchild.
    destruct (N.eqb_spec t TblIdentifier); [contradiction|].
    destruct (N.eqb_spec t TblLiteral); [contradiction|].
    rewrite N.eqb_refl. reflexivity. }
  destruct Hlast as [(k' & data & Hk' & _ & Hlater & _ & ->)|(_ & Hcontra & _)];
    [|discriminate].
  assert (Hle : (j <= k')%nat).
  { destruct (decide (j <= k')%nat) as [Hle|Hgt]; [exact Hle|].
    specialize (Hlater j _ ltac:(lia) Hj). congruence. }
  split; lia.
Qed.

(** A loop that overwrites its result keeps the last one. *)
Lemma last_kept {A : Type} (good : A -> bool) (l : list A) :
  match foldl (fun ret x => if good x then Some x else ret) None l with
  | Some x =>
      exists k, l !! k = Some x /\ good x = true /\
        forall j y, (k < j)%nat -> l !! j = Some y -> good y = false
  | None => forall y, y ∈ l -> good y = false
  end.
Proof.
  induction l as [|x l IH] using rev_ind.
  - cbn. intros y Hy. apply elem_of_nil in Hy. contradiction.
  - rewrite foldl_app. cbn [foldl].
    destruct (good x) eqn:Hx.
    + exists (length l). split; [|split; [exact Hx|]].
      * rewrite lookup_app_r by lia. rewrite Nat.sub_diag. reflexivity.
      * intros j y Hlt Hj. apply lookup_lt_Some in Hj.
        rewrite length_app in Hj. cbn in Hj. lia.
    + destruct (foldl _ None l) as [found|].
      * destruct IH as (k & Hk & Hgood & Hlater). exists k.
        split; [apply lookup_app_l_Some, Hk|]. split; [exact Hgood|].
        intros j y Hlt Hj.
        destruct (decide (j < length l)%nat) as [Hjl|Hjl].
        -- rewrite lookup_app_l in Hj by exact Hjl. apply (Hlater j y Hlt Hj).
        -- rewrite lookup_app_r in Hj by lia.
           destruct (j - length l)%nat as [|n]; [|destruct n; discriminate].
           injection Hj as <-. exact Hx.
      * intros y Hy. apply elem_of_app in Hy as [Hy|Hy]; [apply IH, Hy|].
        apply list_elem_of_singleton in Hy as ->. exact Hx.
Qed.

(** X30. FindSpecChild returns the last child that fits, not the first:
    the loop over the children has no break, so that the child returned
    is a successful child with the match that fits the slot and after
    which no child passes the tests; NULL is returned exactly when no
    child passes them, as for every slot that is neither a token nor a
    sub-table.  For a slot of the identifier or the literal table every
    successful token with the match fits. *)
Theorem FindSpecChild_last_child (tdata : TableData.t) (match_ : N)
    (this : AppealNode) :
  match FindSpecChild tdata match_ this with
  | Some child =>
      (exists k,
         mChildren this !! k = Some child /\
         forall j c, (k < j)%nat -> mChildren this !! j = Some c ->
                     spec_child tdata match_ c = false) /\
      IsSucc child = true /\ match_ ∈ mMatches child /\
      match TableData.mType tdata with
      | DT_Token =>
          mData child = AppealToken (SystemToken (TableData.mToken tdata))
      | DT_Subtable =>
          mData child = AppealTable (TableData.mEntry tdata) \/
          (IsToken child = true /\
           (TableData.mEntry tdata = TblLiteral \/
            TableData.mEntry tdata = TblIdentifier))
      | _ => False
      end
  | None =>
      forall c, c ∈ mChildren this -> spec_child tdata match_ c = false
  end.
Proof.
  unfold Parser.FindSpecChild.
  pose proof (last_kept (spec_child tdata match_) (mChildren this)) as Hloop.
  destruct (foldl _ None (mChildren this)) as [child|]; [|exact Hloop].
  destruct Hloop as (k & Hk & Hgood & Hlater).
  split; [exists k; split; assumption|].
  unfold Parser.spec_child in Hgood.
  destruct (IsSucc child) eqn:Hsucc; [|discriminate].
  destruct (FindMatch match_ child) eqn:Hmatch; [|discriminate].
  cbn in Hgood. split; [reflexivity|]. split.
  { unfold FindMatch in Hmatch. rewrite FindMatchIn_bool in Hmatch.
    apply bool_decide_eq_true in Hmatch. exact Hmatch. }
  destruct (TableData.mType tdata); try discriminate.
  - destruct (mData child) as [token|t]; [|discriminate].
    apply bool_decide_eq_true in Hgood. rewrite Hgood. reflexivity.
  - apply orb_true_iff in Hgood as [Hfirst|Hsecond].
    + left. destruct (mData child) as [token|t]; [discriminate|].
      apply N.eqb_eq in Hfirst. rewrite Hfirst. reflexivity.
    + right. apply andb_true_iff in Hsecond as [Htoken Hrule].
      split; [exact Htoken|].
      apply orb_true_iff in Hrule as [Hrule|Hrule]; apply N.eqb_eq in Hrule;
        auto.
Qed.

End Appeal.


Lemma GetSortedChildByIndex_repeated_slot_witness :
  let child := leaf (AppealTable 1) true [0%N] in
  child ∈ mSortedChildren sample_parent /\
  GetSortedChildIndex bool (fun _ => TT_ID) sample_rules 20 21
    child 0 sample_parent = Ok (true, 3%N) /\
  (mData child = AppealTable 1 -> mSimplifiedIndex child = 0%N ->
   (N.of_nat 3 <= 3)%N /\ 3%N <> N.of_nat 1).
Proof.
  intros child.
  apply (GetSortedChildByIndex_repeated_slot bool (fun _ => TT_ID)
           sample_rules 20 21 sample_parent child 0 1
           (RuleTable.mk ET_Concatenate
              [TableData.mk DT_Subtable 1; TableData.mk DT_Token 9;
               TableData.mk DT_Subtable 1] []) 0 2 3);
    try reflexivity; try lia; discriminate.
Defined.

End ParserFacts.
